(** * Cocteles: the browser client of TheCocktailDB (src/script.js)

    A shallow embedding of script.js.  JavaScript strings are sequences of
    UTF-16 code units, parsed JSON is an inductive type of values with the
    conversions the script applies to it (truthiness, string conversion,
    property reads), and the asynchronous flows are computations over a
    world made of the remote server, the console and request trace, the
    search field and the two display regions.  A flow runs to completion:
    each issues at most one request, and its [await]s are sequenced in
    program order. *)

From Stdlib Require Import String Ascii List Arith ZArith NArith Bool Lia.
Import ListNotations.
Local Open Scope N_scope.
Local Open Scope list_scope.
Set Warnings "-register-all".

(** ** Strings *)

(** A JavaScript string: its UTF-16 code units. *)
Definition jsstring := list N.

Fixpoint bytes_of (s : string) : list N :=
  match s with
  | EmptyString => []
  | String a r => N_of_ascii a :: bytes_of r
  end.

(** UTF-8 octets read as UTF-16: a sequence of one, two or three octets is
    one unit, a sequence of four octets a surrogate pair.  The literals of
    this file are UTF-8 text which the engine holds as UTF-16. *)
Fixpoint units_of_utf8 (bs : list N) : jsstring :=
  match bs with
  | [] => []
  | b :: r =>
      if b <? 128 then b :: units_of_utf8 r
      else
        match r with
        | [] => []
        | b2 :: r2 =>
            if b <? 224 then ((b - 192) * 64 + (b2 - 128)) :: units_of_utf8 r2
            else
              match r2 with
              | [] => []
              | b3 :: r3 =>
                  if b <? 240 then
                    ((b - 224) * 4096 + (b2 - 128) * 64 + (b3 - 128))
                      :: units_of_utf8 r3
                  else
                    match r3 with
                    | [] => []
                    | b4 :: r4 =>
                        let cp := (b - 240) * 262144 + (b2 - 128) * 4096
                                  + (b3 - 128) * 64 + (b4 - 128) in
                        (55296 + (cp - 65536) / 1024)
                          :: (56320 + (cp - 65536) mod 1024)
                          :: units_of_utf8 r4
                    end
              end
        end
  end.

(** [lit] reads a literal of the script.  Inside a literal of this file the
    backquote stands for the double quote of the script's text (the script
    has no backquote inside any of its texts). *)
Definition lit (s : string) : jsstring :=
  map (fun c => if c =? 96 then 34 else c) (units_of_utf8 (bytes_of s)).

Definition nl : jsstring := [10].

Fixpoint str_eqb (a b : jsstring) : bool :=
  match a, b with
  | [], [] => true
  | x :: a', y :: b' => (x =? y) && str_eqb a' b'
  | _, _ => false
  end.

Fixpoint digits (u : Decimal.uint) : jsstring :=
  match u with
  | Decimal.Nil => []
  | Decimal.D0 r => 48 :: digits r
  | Decimal.D1 r => 49 :: digits r
  | Decimal.D2 r => 50 :: digits r
  | Decimal.D3 r => 51 :: digits r
  | Decimal.D4 r => 52 :: digits r
  | Decimal.D5 r => 53 :: digits r
  | Decimal.D6 r => 54 :: digits r
  | Decimal.D7 r => 55 :: digits r
  | Decimal.D8 r => 56 :: digits r
  | Decimal.D9 r => 57 :: digits r
  end.

(** String conversion of a non-negative integer, as in [`${i}`]. *)
Definition dec (n : N) : jsstring := digits (N.to_uint n).

(** WhiteSpace and LineTerminator code units of ECMAScript, the ones
    [String.prototype.trim] strips. *)
Definition is_white (c : N) : bool :=
  (c =? 9) || (c =? 10) || (c =? 11) || (c =? 12) || (c =? 13) || (c =? 32)
  || (c =? 160) || (c =? 5760) || ((8192 <=? c) && (c <=? 8202))
  || (c =? 8232) || (c =? 8233) || (c =? 8239) || (c =? 8287)
  || (c =? 12288) || (c =? 65279).

Fixpoint trimStart (s : jsstring) : jsstring :=
  match s with
  | [] => []
  | c :: r => if is_white c then trimStart r else s
  end.

Definition trimEnd (s : jsstring) : jsstring := rev (trimStart (rev s)).

(** [String.prototype.trim]. *)
Definition trim (s : jsstring) : jsstring := trimEnd (trimStart s).

(** ** Values *)

(** What [JSON.parse] yields, and [undefined].  The script never computes
    with a number: it only tests one for truthiness and converts it to a
    string, so a number is carried as these two observations (for 1.5:
    [VNum true (lit "1.5")]; for 0: [VNum false (lit "0")]).  An object is
    the list of its own properties; a property is read at its first
    entry. *)
Inductive value : Type :=
| VUndefined
| VNull
| VBool (b : bool)
| VNum (nonzero : bool) (text : jsstring)
| VStr (s : jsstring)
| VArr (items : list value)
| VObj (fields : list (jsstring * value)).

(** ToBoolean. *)
Definition truthy (v : value) : bool :=
  match v with
  | VUndefined | VNull => false
  | VBool b => b
  | VNum nz _ => nz
  | VStr s => negb (str_eqb s [])
  | VArr _ | VObj _ => true
  end.

Fixpoint lookup (key : jsstring) (fields : list (jsstring * value)) : value :=
  match fields with
  | [] => VUndefined
  | (k, v) :: r => if str_eqb k key then v else lookup key r
  end.

(** ** Failures *)

(** The exceptions that arise.  [HttpError] is the script's own
    [new Error(`HTTP error! Status: ...`)]; the others are raised by the
    platform: [NetworkError] when [fetch] rejects, [ParseError] when
    [response.json()] rejects, [TypeError] and [URIError] by the engine
    (their texts are V8's). *)
Inductive exn : Type :=
| HttpError (status : N)
| NetworkError (msg : jsstring)
| ParseError (msg : jsstring)
| TypeError (msg : jsstring)
| URIError.

(** [error.message]. *)
Definition message (e : exn) : jsstring :=
  match e with
  | HttpError st => lit "HTTP error! Status: " ++ dec st
  | NetworkError m => m
  | ParseError m => m
  | TypeError m => m
  | URIError => lit "URI malformed"
  end.

Inductive result (A : Type) : Type :=
| Ok (a : A)
| Throw (e : exn).
Arguments Ok {A} a.
Arguments Throw {A} e.

Definition rbind {A B} (r : result A) (k : A -> result B) : result B :=
  match r with
  | Ok a => k a
  | Throw e => Throw e
  end.

Declare Scope js_scope.
Delimit Scope js_scope with js.
Notation "x <-- r ;; k" := (rbind r (fun x => k))
  (at level 61, r at next level, right associativity) : js_scope.
Local Open Scope js_scope.

(** ** Property reads and methods on values *)

(** [v.key] and [v[key]] for the property names the script reads.  None of
    them is [length], an index or a member of a prototype, so on an array,
    a string, a number or a boolean the read gives [undefined]. *)
Definition get (v : value) (key : jsstring) : result value :=
  match v with
  | VUndefined =>
      Throw (TypeError (lit "Cannot read properties of undefined (reading '"
                          ++ key ++ lit "')"))
  | VNull =>
      Throw (TypeError (lit "Cannot read properties of null (reading '"
                          ++ key ++ lit "')"))
  | VObj fs => Ok (lookup key fs)
  | _ => Ok VUndefined
  end.

(** [v[0]]. *)
Definition get_first (v : value) : result value :=
  match v with
  | VUndefined =>
      Throw (TypeError (lit "Cannot read properties of undefined (reading '0')"))
  | VNull =>
      Throw (TypeError (lit "Cannot read properties of null (reading '0')"))
  | VArr l => Ok (nth 0%nat l VUndefined)
  | VStr s => Ok (match s with [] => VUndefined | c :: _ => VStr [c] end)
  | VObj fs => Ok (lookup (lit "0") fs)
  | _ => Ok VUndefined
  end.

(** Whether an object has an own property [key]. *)
Definition has_key (key : jsstring) (fields : list (jsstring * value)) : bool :=
  existsb (fun kv => str_eqb (fst kv) key) fields.

(** ToString, the conversion of a template literal's [${...}].  An object
    is converted by its [toString]: the inherited one gives
    [[object Object]]; an own property [toString] of a parsed object is
    never a function, and the inherited [valueOf] gives the object back,
    so such an object has no primitive value and the conversion raises.
    An array joins the conversions of its elements. *)
Fixpoint toString (v : value) : result jsstring :=
  match v with
  | VUndefined => Ok (lit "undefined")
  | VNull => Ok (lit "null")
  | VBool true => Ok (lit "true")
  | VBool false => Ok (lit "false")
  | VNum _ t => Ok t
  | VStr s => Ok s
  | VArr l =>
      (fix join (l : list value) : result jsstring :=
         match l with
         | [] => Ok []
         | x :: r =>
             first <-- match x with
                       | VUndefined | VNull => Ok []
                       | _ => toString x
                       end ;;
             rest <-- match r with
                      | [] => Ok []
                      | _ :: _ => (t <-- join r ;; Ok (lit "," ++ t))
                      end ;;
             Ok (first ++ rest)
         end) l
  | VObj fs =>
      if has_key (lit "toString") fs
      then Throw (TypeError (lit "Cannot convert object to primitive value"))
      else Ok (lit "[object Object]")
  end.

(** [`${record.key}`]: the property, converted. *)
Definition interpolate (record : value) (key : jsstring) : result jsstring :=
  v <-- get record key ;;
  toString v.

(** [v.length === 0], for a truthy [v]. *)
Definition length_is_zero (v : value) : bool :=
  match v with
  | VArr l => match l with [] => true | _ => false end
  | VStr s => match s with [] => true | _ => false end
  | VObj fs => match lookup (lit "length") fs with
               | VNum false _ => true
               | _ => false
               end
  | _ => false
  end.

(** [v.trim()], where [who] is the name of the variable in the script. *)
Definition trim_of (who : string) (v : value) : result jsstring :=
  match v with
  | VStr s => Ok (trim s)
  | VUndefined =>
      Throw (TypeError (lit "Cannot read properties of undefined (reading 'trim')"))
  | VNull =>
      Throw (TypeError (lit "Cannot read properties of null (reading 'trim')"))
  | _ => Throw (TypeError (lit who ++ lit ".trim is not a function"))
  end.

(** [v.forEach(x => { html += f(x) })] started from [html]: the value of
    [html] when the loop ends, or the first exception. *)
Fixpoint forEach_append (f : value -> result jsstring) (l : list value)
  (html : jsstring) : result jsstring :=
  match l with
  | [] => Ok html
  | x :: r => piece <-- f x ;; forEach_append f r (html ++ piece)
  end.

Definition forEach (who : string) (v : value) (f : value -> result jsstring)
  (html : jsstring) : result jsstring :=
  match v with
  | VArr l => forEach_append f l html
  | VUndefined =>
      Throw (TypeError (lit "Cannot read properties of undefined (reading 'forEach')"))
  | VNull =>
      Throw (TypeError (lit "Cannot read properties of null (reading 'forEach')"))
  | _ => Throw (TypeError (lit who ++ lit ".forEach is not a function"))
  end.

(** ** encodeURIComponent *)

(** uriUnescaped: letters, digits and the marks [- _ . ! ~ * ' ( )]. *)
Definition unescaped (c : N) : bool :=
  ((65 <=? c) && (c <=? 90)) || ((97 <=? c) && (c <=? 122))
  || ((48 <=? c) && (c <=? 57))
  || (c =? 45) || (c =? 95) || (c =? 46) || (c =? 33) || (c =? 126)
  || (c =? 42) || (c =? 39) || (c =? 40) || (c =? 41).

(** The UTF-8 octets of a code point. *)
Definition utf8 (cp : N) : list N :=
  if cp <? 128 then [cp]
  else if cp <? 2048 then [192 + cp / 64; 128 + cp mod 64]
  else if cp <? 65536 then
    [224 + cp / 4096; 128 + (cp / 64) mod 64; 128 + cp mod 64]
  else
    [240 + cp / 262144; 128 + (cp / 4096) mod 64; 128 + (cp / 64) mod 64;
     128 + cp mod 64].

Definition hexdigit (d : N) : N := if d <? 10 then 48 + d else 55 + d.

(** An octet as [%XY], upper-case hexadecimal. *)
Definition pct (b : N) : jsstring := [37; hexdigit (b / 16); hexdigit (b mod 16)].

Definition pct_all (bs : list N) : jsstring := flat_map pct bs.

Definition is_high_surrogate (c : N) : bool := (55296 <=? c) && (c <=? 56319).
Definition is_low_surrogate (c : N) : bool := (56320 <=? c) && (c <=? 57343).

(** [encodeURIComponent]: an unescaped unit stays; any other code point (a
    surrogate pair is one code point) becomes the escapes of its UTF-8
    octets; a surrogate without its partner raises URIError. *)
Fixpoint encodeURIComponent (s : jsstring) : result jsstring :=
  match s with
  | [] => Ok []
  | c :: r =>
      if unescaped c then (t <-- encodeURIComponent r ;; Ok (c :: t))
      else if is_low_surrogate c then Throw URIError
      else if is_high_surrogate c then
        match r with
        | [] => Throw URIError
        | d :: r' =>
            if is_low_surrogate d then
              t <-- encodeURIComponent r' ;;
              Ok (pct_all (utf8 ((c - 55296) * 1024 + (d - 56320) + 65536)) ++ t)
            else Throw URIError
        end
      else (t <-- encodeURIComponent r ;; Ok (pct_all (utf8 c) ++ t))
  end.

(** ** The world *)

(** What [response.json()] settles with: a rejection (the body is not
    JSON; [msg] is the engine's text) or the parsed value. *)
Inductive body : Type :=
| Malformed (msg : jsstring)
| Json (data : value).

Record response : Type := mkResponse { status : N; payload : body }.

(** [response.ok]: a status in 200..299. *)
Definition ok (r : response) : bool := (200 <=? status r) && (status r <=? 299).

(** What [fetch(url)] settles with: a rejection (no response at all) or a
    response. *)
Inductive fetch_outcome : Type :=
| Rejected (msg : jsstring)
| Responded (r : response).

(** What the script does to the outside, in order. *)
Inductive event : Type :=
| ConsoleLog (label arg : jsstring)
| ConsoleError (label : jsstring) (e : exn)
| Request (url : jsstring).

(** [net] is the remote server; [trace] the console lines and requests so
    far, oldest first; [searchInput] the content of the search field;
    [cocktailDisplay] and [categoriesDisplay] the [innerHTML] of the two
    regions.  An element that the page lacks is [None]. *)
Record World : Type := mkWorld {
  net : jsstring -> fetch_outcome;
  trace : list event;
  searchInput : option jsstring;
  cocktailDisplay : option jsstring;
  categoriesDisplay : option jsstring
}.

(** A computation of the script: it changes the world and returns or
    throws; what it did before a throw stays done. *)
Definition M (A : Type) : Type := World -> result A * World.

Definition ret {A} (a : A) : M A := fun w => (Ok a, w).

Definition throw {A} (e : exn) : M A := fun w => (Throw e, w).

Definition bind {A B} (c : M A) (k : A -> M B) : M B :=
  fun w =>
    match c w with
    | (Ok a, w') => k a w'
    | (Throw e, w') => (Throw e, w')
    end.

(** [try { c } catch (error) { handler }]. *)
Definition try_catch {A} (c : M A) (handler : exn -> M A) : M A :=
  fun w =>
    match c w with
    | (Ok a, w') => (Ok a, w')
    | (Throw e, w') => handler e w'
    end.

Definition lift {A} (r : result A) : M A := fun w => (r, w).

Notation "x <- c ;; k" := (bind c (fun x => k))
  (at level 61, c at next level, right associativity) : js_scope.
Notation "c ;; k" := (bind c (fun _ => k))
  (at level 61, right associativity) : js_scope.

Definition emit (ev : event) : M unit :=
  fun w =>
    (Ok tt, mkWorld (net w) (trace w ++ [ev]) (searchInput w)
              (cocktailDisplay w) (categoriesDisplay w)).

Definition console_log (label arg : jsstring) : M unit :=
  emit (ConsoleLog label arg).

Definition console_error (label : jsstring) (e : exn) : M unit :=
  emit (ConsoleError label e).

(** [await fetch(url)]. *)
Definition fetch (url : jsstring) : M response :=
  emit (Request url) ;;
  fun w =>
    match net w url with
    | Rejected msg => (Throw (NetworkError msg), w)
    | Responded r => (Ok r, w)
    end.

(** [await response.json()]. *)
Definition json (r : response) : M value :=
  match payload r with
  | Malformed msg => throw (ParseError msg)
  | Json data => ret data
  end.

(** Whether [cocktailDisplayDiv] is an element. *)
Definition cocktailDisplayDiv : M bool :=
  fun w => (Ok (match cocktailDisplay w with Some _ => true | None => false end), w).

(** [cocktailDisplayDiv.innerHTML = html]. *)
Definition set_cocktailDisplay (html : jsstring) : M unit :=
  fun w =>
    match cocktailDisplay w with
    | None =>
        (Throw (TypeError (lit "Cannot set properties of null (setting 'innerHTML')")), w)
    | Some _ =>
        (Ok tt, mkWorld (net w) (trace w) (searchInput w) (Some html)
                  (categoriesDisplay w))
    end.

(** Whether [document.getElementById('categories-display')] is an
    element. *)
Definition categoriesDisplayDiv : M bool :=
  fun w => (Ok (match categoriesDisplay w with Some _ => true | None => false end), w).

(** [categoriesDisplayDiv.innerHTML = html]. *)
Definition set_categoriesDisplay (html : jsstring) : M unit :=
  fun w =>
    match categoriesDisplay w with
    | None =>
        (Throw (TypeError (lit "Cannot set properties of null (setting 'innerHTML')")), w)
    | Some _ =>
        (Ok tt, mkWorld (net w) (trace w) (searchInput w) (cocktailDisplay w)
                  (Some html))
    end.

(** [searchInput.value]. *)
Definition searchInput_value : M jsstring :=
  fun w =>
    match searchInput w with
    | None =>
        (Throw (TypeError (lit "Cannot read properties of null (reading 'value')")), w)
    | Some s => (Ok s, w)
    end.

(** ** The script *)

Definition cocktailApiBaseUrl : jsstring :=
  lit "https://www.thecocktaildb.com/api/json/v1/1/".

(** script.js, lines 21-40. *)
Definition fetchCocktailData (url : jsstring) : M value :=
  console_log (lit "Fetching URL:") url ;;
  try_catch
    (response <- fetch url ;;
     if negb (ok response) then throw (HttpError (status response))
     else
       data <- json response ;;
       drinks <- lift (get data (lit "drinks")) ;;
       if negb (truthy drinks) then ret VNull
       else lift (get_first drinks))
    (fun error =>
       console_error (lit "Cocktail Fetch error:") error ;;
       throw error).

(** The loop of lines 56-64, entered with counter [i] and [n] rounds to
    go, [html] being [ingredientsHtml] so far. *)
Fixpoint ingredients_from (drink : value) (i : N) (n : nat) (html : jsstring)
  : result jsstring :=
  match n with
  | O => Ok html
  | S n' =>
      ingredient <-- get drink (lit "strIngredient" ++ dec i) ;;
      measure <-- get drink (lit "strMeasure" ++ dec i) ;;
      if negb (truthy ingredient) then Ok html
      else
        m <-- (if truthy measure
               then (t <-- trim_of "measure" measure ;; Ok (t ++ lit " "))
               else Ok []) ;;
        g <-- trim_of "ingredient" ingredient ;;
        ingredients_from drink (i + 1) n'
          (html ++ lit "<li>" ++ m ++ g ++ lit "</li>")
  end.

(** Lines 55-65: the value of [ingredientsHtml] after the loop. *)
Definition ingredientsHtml (drink : value) : result jsstring :=
  html <-- ingredients_from drink 1 15 (lit "<ul>") ;;
  Ok (html ++ lit "</ul>").

(** The template literal of lines 68-80; each [${...}] is evaluated and
    converted in its turn. *)
Definition detailHtml (drink : value) (ingredients : jsstring) : result jsstring :=
  name <-- interpolate drink (lit "strDrink") ;;
  thumb <-- interpolate drink (lit "strDrinkThumb") ;;
  alt <-- interpolate drink (lit "strDrink") ;;
  strCategory <-- get drink (lit "strCategory") ;;
  category <-- (if truthy strCategory
                then (c <-- interpolate drink (lit "strCategory") ;;
                      Ok (lit "<p><strong>Categoría:</strong> " ++ c ++ lit "</p>"))
                else Ok []) ;;
  strAlcoholic <-- get drink (lit "strAlcoholic") ;;
  alcoholic <-- (if truthy strAlcoholic
                 then (c <-- interpolate drink (lit "strAlcoholic") ;;
                       Ok (lit "<p><strong>Tipo:</strong> " ++ c ++ lit "</p>"))
                 else Ok []) ;;
  strGlass <-- get drink (lit "strGlass") ;;
  glass <-- (if truthy strGlass
             then (c <-- interpolate drink (lit "strGlass") ;;
                   Ok (lit "<p><strong>Vaso recomendado:</strong> " ++ c ++ lit "</p>"))
             else Ok []) ;;
  strInstructions <-- get drink (lit "strInstructions") ;;
  instructions <-- toString (if truthy strInstructions then strInstructions
                             else VStr (lit "Instrucciones no disponibles.")) ;;
  Ok (nl
      ++ lit "            <h3>" ++ name ++ lit "</h3>" ++ nl
      ++ lit "            <img src=`" ++ thumb
      ++ lit "` alt=`[Imagen de " ++ alt
      ++ lit "]` onerror=`this.style.display='none'`>" ++ nl
      ++ lit "            " ++ category ++ nl
      ++ lit "            " ++ alcoholic ++ nl
      ++ lit "            " ++ glass ++ nl
      ++ nl
      ++ lit "            <h4>Ingredientes:</h4>" ++ nl
      ++ lit "            " ++ ingredients ++ nl
      ++ nl
      ++ lit "            <h4>Instrucciones:</h4>" ++ nl
      ++ lit "            <p>" ++ instructions ++ lit "</p>" ++ nl
      ++ lit "        ").

(** script.js, lines 46-81. *)
Definition displayCocktail (drink : value) : M unit :=
  present <- cocktailDisplayDiv ;;
  if negb present then ret tt
  else if negb (truthy drink) then
    set_cocktailDisplay
      (lit "<p class=`error-text`>No se encontró ningún cóctel con ese nombre.</p>")
  else
    ingredients <- lift (ingredientsHtml drink) ;;
    html <- lift (detailHtml drink ingredients) ;;
    set_cocktailDisplay html.

(** script.js, lines 87-91. *)
Definition displayError (message : jsstring) : M unit :=
  present <- cocktailDisplayDiv ;;
  if present then
    set_cocktailDisplay (lit "<p class=`error-text`>" ++ message ++ lit "</p>")
  else ret tt.

(** script.js, lines 97-101; [None] is a call without argument. *)
Definition displayLoading (message : option jsstring) : M unit :=
  let message := match message with
                 | Some m => m
                 | None => lit "Cargando..."
                 end in
  present <- cocktailDisplayDiv ;;
  if present then
    set_cocktailDisplay (lit "<p class=`loading-text`>" ++ message ++ lit "</p>")
  else ret tt.

(** script.js, lines 106-114. *)
Definition fetchAndDisplayRandomCocktail : M unit :=
  displayLoading (Some (lit "Buscando un cóctel aleatorio...")) ;;
  try_catch
    (drink <- fetchCocktailData (cocktailApiBaseUrl ++ lit "random.php") ;;
     displayCocktail drink)
    (fun error =>
       displayError (lit "Error al cargar cóctel aleatorio: " ++ message error)).

(** script.js, lines 119-133. *)
Definition searchAndDisplayCocktail : M unit :=
  value <- searchInput_value ;;
  let searchTerm := trim value in
  if negb (truthy (VStr searchTerm)) then
    displayError (lit "Por favor, introduce un nombre de cóctel para buscar.")
  else
    displayLoading (Some (lit "Buscando `" ++ searchTerm ++ lit "`...")) ;;
    try_catch
      (encoded <- lift (encodeURIComponent searchTerm) ;;
       drink <- fetchCocktailData
                  (cocktailApiBaseUrl ++ lit "search.php?s=" ++ encoded) ;;
       displayCocktail drink)
      (fun error =>
         displayError (lit "Error al buscar cóctel: " ++ message error)).

(** script.js, lines 163-179. *)
Definition fetchCocktailCategories : M value :=
  try_catch
    (response <- fetch (cocktailApiBaseUrl ++ lit "list.php?c=list") ;;
     if negb (ok response) then throw (HttpError (status response))
     else
       data <- json response ;;
       drinks <- lift (get data (lit "drinks")) ;;
       if negb (truthy drinks) then ret VNull
       else ret drinks)
    (fun error =>
       console_error (lit "Category Fetch error:") error ;;
       displayError (lit "Error al cargar las categorías: " ++ message error) ;;
       ret VNull).

(** The template literal of lines 197-203. *)
Definition categoryCard (category : value) : result jsstring :=
  categoryName <-- get category (lit "strCategory") ;;
  tag <-- toString categoryName ;;
  label <-- toString categoryName ;;
  Ok (nl
      ++ lit "                <div class=`category-card m-2 p-4 bg-white rounded-lg shadow-md cursor-pointer hover:bg-teal-100`" ++ nl
      ++ lit "                     data-category=`" ++ tag ++ lit "`" ++ nl
      ++ lit "                     style=`width: 150px; text-align: center;`>" ++ nl
      ++ lit "                    " ++ label ++ nl
      ++ lit "                </div>" ++ nl
      ++ lit "            ").

(** script.js, lines 185-216.  Binding the click listeners (lines 208-215)
    leaves the markup as it is; a click enters as [categoryCardClick]. *)
Definition displayCategories (categories : value) : M unit :=
  present <- categoriesDisplayDiv ;;
  if negb present then ret tt
  else if negb (truthy categories) || length_is_zero categories then
    set_categoriesDisplay (lit "<p class=`error-text`>No se encontraron categorías.</p>")
  else
    categoriesHtml <- lift (forEach "categories" categories categoryCard []) ;;
    set_categoriesDisplay categoriesHtml.

(** The template literal of lines 237-242. *)
Definition cocktailItem (drink : value) : result jsstring :=
  id <-- interpolate drink (lit "idDrink") ;;
  thumb <-- interpolate drink (lit "strDrinkThumb") ;;
  alt <-- interpolate drink (lit "strDrink") ;;
  name <-- interpolate drink (lit "strDrink") ;;
  Ok (nl
      ++ lit "                    <div class=`cocktail-item m-2 p-4 bg-white rounded-lg shadow-md text-center cursor-pointer` data-drink-id=`"
      ++ id ++ lit "`>" ++ nl
      ++ lit "                        <img src=`" ++ thumb
      ++ lit "` alt=`" ++ alt
      ++ lit "` style=`max-width: 150px; height: auto; margin: 0 auto;`>" ++ nl
      ++ lit "                        <h3 class=`text-lg font-semibold`>"
      ++ name ++ lit "</h3>" ++ nl
      ++ lit "                    </div>" ++ nl
      ++ lit "                ").

(** Lines 235-245: the grid of a category's cocktails, written to the
    cocktail display. *)
Definition displayCocktailGrid (drinks : value) : M unit :=
  cocktailsHtml <- lift (forEach "data.drinks" drinks cocktailItem
                           (lit "<div class=`grid grid-cols-2 md:grid-cols-3 lg:grid-cols-4 gap-4`>")) ;;
  set_cocktailDisplay (cocktailsHtml ++ lit "</div>").

(** script.js, lines 222-257.  Binding the click listeners (lines 248-253)
    leaves the markup as it is; a click enters as
    [fetchAndDisplayCocktailDetails]. *)
Definition fetchAndDisplayCocktailsByCategory (category : jsstring) : M unit :=
  displayLoading
    (Some (lit "Cargando cócteles de la categoría `" ++ category ++ lit "`...")) ;;
  try_catch
    (encoded <- lift (encodeURIComponent category) ;;
     response <- fetch (cocktailApiBaseUrl ++ lit "filter.php?c=" ++ encoded) ;;
     if negb (ok response) then throw (HttpError (status response))
     else
       data <- json response ;;
       drinks <- lift (get data (lit "drinks")) ;;
       if negb (truthy drinks) then
         set_cocktailDisplay
           (lit "<p class=`error-text`>No se encontraron cócteles en la categoría `"
            ++ category ++ lit "`.</p>")
       else displayCocktailGrid drinks)
    (fun error =>
       displayError (lit "Error al cargar cócteles de la categoría `" ++ category
                     ++ lit "`: " ++ message error)).

(** script.js, lines 263-271. *)
Definition fetchAndDisplayCocktailDetails (drinkId : jsstring) : M unit :=
  displayLoading (Some (lit "Cargando detalles del cóctel...")) ;;
  try_catch
    (encoded <- lift (encodeURIComponent drinkId) ;;
     drink <- fetchCocktailData
                (cocktailApiBaseUrl ++ lit "lookup.php?i=" ++ encoded) ;;
     displayCocktail drink)
    (fun error =>
       displayError (lit "Error al cargar detalles del cóctel: " ++ message error)).

(** The click listener of a category card, lines 209-214. *)
Definition categoryCardClick (category : jsstring) : M unit :=
  set_cocktailDisplay [] ;;
  fetchAndDisplayCocktailsByCategory category.

(** script.js, lines 274-277. *)
Definition initializeCategories : M unit :=
  categories <- fetchCocktailCategories ;;
  displayCategories categories.

(** ** Notions of the specification and sample data *)

(** The absence value: [null], and [undefined], which is what the first
    element of an empty array reads as.  Every consumer of a fetched drink
    tests it with [!drink], which both satisfy. *)
Definition Absent (v : value) : Prop := v = VNull \/ v = VUndefined.

(** A page with all its elements, empty, in front of a server that
    answers every request with status 200 and the JSON value [data]. *)
Definition page_serving (data : value) : World :=
  mkWorld (fun _ => Responded (mkResponse 200 (Json data))) [] (Some [])
    (Some []) (Some []).

Definition gin_fizz : value := VObj [(lit "strDrink", VStr (lit "Gin Fizz"))].
Definition gin_sour : value := VObj [(lit "strDrink", VStr (lit "Gin Sour"))].

(** A region after [html] was assigned to it, when the page has it. *)
Definition painted (region : option jsstring) (html : jsstring) : option jsstring :=
  match region with
  | Some _ => Some html
  | None => None
  end.

(** The world after the cocktail display was overwritten with [html]. *)
Definition paint_cocktail (html : jsstring) (w : World) : World :=
  mkWorld (net w) (trace w) (searchInput w) (painted (cocktailDisplay w) html)
    (categoriesDisplay w).

(** The world after the categories display was overwritten with [html]. *)
Definition paint_categories (html : jsstring) (w : World) : World :=
  mkWorld (net w) (trace w) (searchInput w) (cocktailDisplay w)
    (painted (categoriesDisplay w) html).

(** The world after [evs] happened. *)
Definition after_events (evs : list event) (w : World) : World :=
  mkWorld (net w) (trace w ++ evs) (searchInput w) (cocktailDisplay w)
    (categoriesDisplay w).

(** The error state and the loading state of the cocktail display. *)
Definition error_state (msg : jsstring) : jsstring :=
  lit "<p class=`error-text`>" ++ msg ++ lit "</p>".

Definition loading_state (msg : jsstring) : jsstring :=
  lit "<p class=`loading-text`>" ++ msg ++ lit "</p>".

(** The localized not-found message of the cocktail display and the
    none-found message of the categories display. *)
Definition not_found_state : jsstring :=
  error_state (lit "No se encontró ningún cóctel con ese nombre.").

Definition no_categories_state : jsstring :=
  error_state (lit "No se encontraron categorías.").

(** The failure of a request, if it fails: no response (network error), a
    status outside 200..299 (HTTP error), or a body that is not JSON (parse
    error). *)
Definition fetch_failure (o : fetch_outcome) : option exn :=
  match o with
  | Rejected msg => Some (NetworkError msg)
  | Responded r =>
      if negb (ok r) then Some (HttpError (status r))
      else match payload r with
           | Malformed msg => Some (ParseError msg)
           | Json _ => None
           end
  end.

(** A string made of white space only (the empty string included). *)
Definition whitespace_only (s : jsstring) : bool := forallb is_white s.

Definition categoriesUrl : jsstring := cocktailApiBaseUrl ++ lit "list.php?c=list".
Definition randomUrl : jsstring := cocktailApiBaseUrl ++ lit "random.php".

(** Sample servers: one that finds nothing, one that is down, one that
    answers 404. *)
Definition page_finding_nothing : World :=
  page_serving (VObj [(lit "drinks", VNull)]).

Definition page_offline : World :=
  mkWorld (fun _ => Rejected (lit "Failed to fetch")) [] (Some [])
    (Some []) (Some []).

Definition page_404 : World :=
  mkWorld (fun _ => Responded (mkResponse 404 (Malformed (lit "Unexpected end of JSON input"))))
    [] (Some (lit "  mojito ")) (Some []) (Some []).

(** A page whose search field holds [s]. *)
Definition page_searching (s : jsstring) : World :=
  mkWorld (fun _ => Responded (mkResponse 200 (Json (VObj [(lit "drinks", VArr [gin_fizz])]))))
    [] (Some s) (Some (lit "<p>before</p>")) (Some []).

(** Every request of the trace [t] comes after a console line that shows
    its URL; [shown] are the URLs shown before [t]. *)
Fixpoint requests_logged (shown : list jsstring) (t : list event) : bool :=
  match t with
  | [] => true
  | ConsoleLog _ arg :: r => requests_logged (arg :: shown) r
  | ConsoleError _ _ :: r => requests_logged shown r
  | Request url :: r => existsb (str_eqb url) shown && requests_logged shown r
  end.

(** The URLs requested in a trace, oldest first. *)
Fixpoint requests (t : list event) : list jsstring :=
  match t with
  | [] => []
  | Request url :: r => url :: requests r
  | _ :: r => requests r
  end.

Definition ordinary_drink : value :=
  VObj [(lit "idDrink", VStr (lit "13940")); (lit "strDrink", VStr (lit "69 Special"));
        (lit "strDrinkThumb", VStr (lit "https://www.thecocktaildb.com/images/media/drink/vqyxqx1472669095.jpg"))].

(** A computation that writes nothing to the console and requests
    nothing. *)
Definition quiet {A : Type} (c : M A) : Prop :=
  forall w, trace (snd (c w)) = trace w.

(** The ingredient and the measure of a record at position [i]. *)
Definition strIngredient (drink : value) (i : N) : value :=
  match get drink (lit "strIngredient" ++ dec i) with
  | Ok v => v
  | Throw _ => VUndefined
  end.

Definition strMeasure (drink : value) (i : N) : value :=
  match get drink (lit "strMeasure" ++ dec i) with
  | Ok v => v
  | Throw _ => VUndefined
  end.

(** A field that is a text or is missing (null, undefined, empty). *)
Definition text_or_missing (v : value) : bool :=
  match v with
  | VStr _ | VNull | VUndefined => true
  | _ => false
  end.

Definition text_of (v : value) : jsstring :=
  match v with
  | VStr s => s
  | _ => []
  end.

(** The entry of the ingredient list for position [i]: the trimmed measure
    and a space when the measure is present, then the trimmed
    ingredient. *)
Definition ingredient_entry (drink : value) (i : N) : jsstring :=
  lit "<li>"
  ++ (if truthy (strMeasure drink i)
      then trim (text_of (strMeasure drink i)) ++ lit " "
      else [])
  ++ trim (text_of (strIngredient drink i))
  ++ lit "</li>".

(** The positions [i], [i+1], ..., [k] of them. *)
Fixpoint positions (i : N) (k : nat) : list N :=
  match k with
  | O => []
  | S k' => i :: positions (i + 1) k'
  end.

(** A record with ingredients at positions 1, 2 and 4, and a measure for
    the first only. *)
Definition gapped_drink : value :=
  VObj [(lit "strDrink", VStr (lit "Gapped"));
        (lit "strIngredient1", VStr (lit "Gin"));
        (lit "strMeasure1", VStr (lit "2 oz "));
        (lit "strIngredient2", VStr (lit " Lime "));
        (lit "strMeasure2", VNull);
        (lit "strIngredient3", VNull);
        (lit "strIngredient4", VStr (lit "Sugar"));
        (lit "strMeasure4", VStr (lit "1 tsp"))].

(** ** Percent-encoding, read back *)

(** The value of a hexadecimal digit. *)
Definition hexval (c : N) : option N :=
  if (48 <=? c) && (c <=? 57) then Some (c - 48)
  else if (65 <=? c) && (c <=? 70) then Some (c - 55)
  else if (97 <=? c) && (c <=? 102) then Some (c - 87)
  else None.

Definition is_hex (c : N) : bool :=
  match hexval c with
  | Some _ => true
  | None => false
  end.

(** A string in which nothing is left raw: each unit is unescaped (a
    letter, a digit or one of [- _ . ! ~ * ' ( )]) or belongs to an escape
    [%XY]. *)
Fixpoint well_escaped (s : jsstring) : bool :=
  match s with
  | [] => true
  | c :: r =>
      if c =? 37 then
        match r with
        | h :: l :: r' => is_hex h && is_hex l && well_escaped r'
        | _ => false
        end
      else unescaped c && well_escaped r
  end.

(** The octets of a percent-encoded string: an escape [%XY] is the octet
    XY, any other unit stands for itself. *)
Fixpoint pct_decode (s : jsstring) : option (list N) :=
  match s with
  | [] => Some []
  | c :: r =>
      if c =? 37 then
        match r with
        | h :: l :: r' =>
            match hexval h, hexval l, pct_decode r' with
            | Some a, Some b, Some bs => Some ((a * 16 + b) :: bs)
            | _, _, _ => None
            end
        | _ => None
        end
      else
        match pct_decode r with
        | Some bs => Some (c :: bs)
        | None => None
        end
  end.

(** Percent-decoding applied once, as the receiver of a URL applies it to
    a query value: the octets, read as UTF-8. *)
Definition decode_once (s : jsstring) : option jsstring :=
  match pct_decode s with
  | Some bs => Some (units_of_utf8 bs)
  | None => None
  end.

(** A string of UTF-16 code units. *)
Definition utf16 (s : jsstring) : Prop := Forall (fun c => c < 65536) s.

(** A string in which every surrogate is part of a pair. *)
Fixpoint well_paired (s : jsstring) : bool :=
  match s with
  | [] => true
  | c :: r =>
      if is_low_surrogate c then false
      else if is_high_surrogate c then
        match r with
        | d :: r' => is_low_surrogate d && well_paired r'
        | [] => false
        end
      else well_paired r
  end.

(** ** Well-formed markup *)

(** Where a reader of markup is: in text, in the name of a tag (of a
    closing tag when [closing]), among the attributes of the open tag
    [name], or inside a double-quoted attribute value. *)
Inductive mode : Type :=
| InText
| InName (closing : bool) (name : jsstring)
| InAttrs (name : jsstring)
| InValue (name : jsstring).

Definition is_name_char (c : N) : bool :=
  ((65 <=? c) && (c <=? 90)) || ((97 <=? c) && (c <=? 122))
  || ((48 <=? c) && (c <=? 57)).

(** Elements without content and closing tag. *)
Definition is_void (name : jsstring) : bool :=
  str_eqb name (lit "img") || str_eqb name (lit "br") || str_eqb name (lit "hr")
  || str_eqb name (lit "input").

(** The element [name] has been opened. *)
Definition opened (name : jsstring) (open : list jsstring) : list jsstring :=
  if is_void name then open else name :: open.

(** One unit of markup read in mode [m] with the elements [open] not yet
    closed, innermost first; [None] when the unit is not allowed there. *)
Definition step (st : mode * list jsstring) (c : N) : option (mode * list jsstring) :=
  let (m, open) := st in
  match m with
  | InText =>
      if c =? 60 then Some (InName false [], open) else Some (InText, open)
  | InName closing name =>
      if c =? 47 then
        match closing, name with
        | false, [] => Some (InName true [], open)
        | _, _ => None
        end
      else if c =? 62 then
        match name with
        | [] => None
        | _ :: _ =>
            if closing then
              match open with
              | top :: rest => if str_eqb top name then Some (InText, rest) else None
              | [] => None
              end
            else Some (InText, opened name open)
        end
      else if is_white c then
        match closing, name with
        | false, _ :: _ => Some (InAttrs name, open)
        | _, _ => None
        end
      else if is_name_char c then Some (InName closing (name ++ [c]), open)
      else None
  | InAttrs name =>
      if c =? 62 then Some (InText, opened name open)
      else if c =? 34 then Some (InValue name, open)
      else if c =? 60 then None
      else Some (InAttrs name, open)
  | InValue name =>
      if c =? 34 then Some (InAttrs name, open) else Some (InValue name, open)
  end.

Fixpoint run (st : mode * list jsstring) (s : jsstring) : option (mode * list jsstring) :=
  match s with
  | [] => Some st
  | c :: r =>
      match step st c with
      | Some st' => run st' r
      | None => None
      end
  end.

(** Valid markup: read from the start, every tag is complete, every
    attribute value is closed, every closing tag closes the innermost open
    element, and at the end no element is left open. *)
Definition valid_markup (s : jsstring) : bool :=
  match run (InText, []) s with
  | Some (InText, []) => true
  | _ => false
  end.

(** A text without [<], which may stand between tags, and a text without
    double quote, which may stand inside an attribute value. *)
Definition no_lt (s : jsstring) : bool := forallb (fun c => negb (c =? 60)) s.
Definition no_quote (s : jsstring) : bool := forallb (fun c => negb (c =? 34)) s.

(** A value none of whose texts holds [<] or a double quote. *)
Fixpoint markup_free (v : value) : bool :=
  match v with
  | VNum _ t => no_lt t && no_quote t
  | VStr s => no_lt s && no_quote s
  | VArr l =>
      (fix all (l : list value) : bool :=
         match l with
         | [] => true
         | x :: r => markup_free x && all r
         end) l
  | VObj fs =>
      (fix all (fs : list (jsstring * value)) : bool :=
         match fs with
         | [] => true
         | (_, x) :: r => markup_free x && all r
         end) fs
  | _ => true
  end.

(** ** The shapes the renderers are given *)

(** A value whose properties can be read. *)
Definition readable (v : value) : bool :=
  match v with
  | VNull | VUndefined => false
  | _ => true
  end.

(** A cocktail record, or the absence of one: each of the fifteen
    ingredients and measures is a text or missing; any other field may be
    missing. *)
Definition record_shape (drink : value) : bool :=
  negb (truthy drink)
  || forallb (fun i => text_or_missing (strIngredient drink i)
                       && text_or_missing (strMeasure drink i))
       (positions 1 15).

(** A list of records, or the absence of one. *)
Definition list_shape (v : value) : bool :=
  match v with
  | VArr l => forallb readable l
  | _ => negb (truthy v)
  end.

(** A value that a template can convert to a string: anything but an
    object with an own property [toString], alone or in an array. *)
Definition printable (v : value) : bool :=
  match toString v with
  | Ok _ => true
  | Throw _ => false
  end.

(** The property [key] of a record; [undefined] where there is none. *)
Definition field (record : value) (key : jsstring) : value :=
  match get record key with
  | Ok v => v
  | Throw _ => VUndefined
  end.

(** The properties [keys] of a record can all be converted. *)
Definition prints (keys : list jsstring) (record : value) : bool :=
  forallb (fun key => printable (field record key)) keys.

(** The properties that the detail view, a category card and an item of
    the grid convert. *)
Definition detail_keys : list jsstring :=
  [lit "strDrink"; lit "strDrinkThumb"; lit "strCategory"; lit "strAlcoholic";
   lit "strGlass"; lit "strInstructions"].

Definition card_keys : list jsstring := [lit "strCategory"].

Definition item_keys : list jsstring :=
  [lit "idDrink"; lit "strDrinkThumb"; lit "strDrink"].

(** The items of a list; none for anything else. *)
Definition items_of (v : value) : list value :=
  match v with
  | VArr l => l
  | _ => []
  end.

(** A record without category, type, glass, instructions, thumbnail and
    measures. *)
Definition bare_drink : value :=
  VObj [(lit "idDrink", VStr (lit "11007")); (lit "strDrink", VStr (lit "Margarita"));
        (lit "strIngredient1", VStr (lit "Tequila"));
        (lit "strIngredient2", VStr (lit "Lime juice"))].

(** A server whose answer is a page of markup, not JSON; the text is the
    engine's. *)
Definition page_answered_with_markup : World :=
  mkWorld (fun _ => Responded (mkResponse 200
             (Malformed (lit "Unexpected token '<', `<!DOCTYPE `... is not valid JSON"))))
    [] (Some (lit "<b>")) (Some []) (Some []).

(** Markup that leaves a reader in text where it found it, with the same
    elements open: text and complete elements. *)
Definition fragment (html : jsstring) : Prop :=
  forall open, run (InText, open) html = Some (InText, open).

(** The server answers the request of [url] with success and a JSON body
    whose [drinks] is [drinks]. *)
Definition answers_with (w : World) (url : jsstring) (drinks : value) : Prop :=
  exists r data,
    net w url = Responded r /\ ok r = true /\ payload r = Json data
    /\ get data (lit "drinks") = Ok drinks.

Definition margarita : value :=
  VObj [(lit "idDrink", VStr (lit "11007")); (lit "strDrink", VStr (lit "Margarita"));
        (lit "strDrinkThumb", VStr (lit "https://www.thecocktaildb.com/images/media/drink/5noda61589575158.jpg"));
        (lit "strCategory", VStr (lit "Ordinary Drink"));
        (lit "strAlcoholic", VStr (lit "Alcoholic"));
        (lit "strGlass", VStr (lit "Cocktail glass"));
        (lit "strInstructions", VStr (lit "Rub the rim of the glass with the lime slice."));
        (lit "strIngredient1", VStr (lit "Tequila")); (lit "strMeasure1", VStr (lit "1 1/2 oz "));
        (lit "strIngredient2", VStr (lit "Triple sec")); (lit "strMeasure2", VStr (lit "1/2 oz "));
        (lit "strIngredient3", VStr (lit "Lime juice")); (lit "strMeasure3", VStr (lit "1 oz "));
        (lit "strIngredient4", VStr (lit "Salt")); (lit "strMeasure4", VNull);
        (lit "strIngredient5", VNull); (lit "strMeasure5", VNull)].

(** The opening tag of the grid of a category's cocktails. *)
Definition grid_open : jsstring :=
  lit "<div class=`grid grid-cols-2 md:grid-cols-3 lg:grid-cols-4 gap-4`>".

Definition shot_b52 : value :=
  VObj [(lit "strDrink", VStr (lit "B-52"));
        (lit "strDrinkThumb", VStr (lit "https://www.thecocktaildb.com/images/media/drink/5a3vg61504372070.jpg"));
        (lit "idDrink", VStr (lit "15853"))].

Definition shot_b53 : value :=
  VObj [(lit "strDrink", VStr (lit "B-53"));
        (lit "strDrinkThumb", VStr (lit "https://www.thecocktaildb.com/images/media/drink/rwqxrv1461866023.jpg"));
        (lit "idDrink", VStr (lit "13332"))].

Definition category_shot : value := VObj [(lit "strCategory", VStr (lit "Shot"))].
Definition category_beer : value := VObj [(lit "strCategory", VStr (lit "Beer"))].

(** Whether the page has a region. *)
Definition has_region (region : option jsstring) : bool :=
  match region with
  | Some _ => true
  | None => false
  end.

(** A computation that leaves the server, the search field and the
    categories display as they are, and the cocktail display present or
    absent as it was. *)
Definition keeps_page {A : Type} (c : M A) : Prop :=
  forall w,
    net (snd (c w)) = net w
    /\ searchInput (snd (c w)) = searchInput w
    /\ categoriesDisplay (snd (c w)) = categoriesDisplay w
    /\ has_region (cocktailDisplay (snd (c w))) = has_region (cocktailDisplay w).

(** Two worlds with the same server and the same search field, whose
    pages both have or both lack the cocktail display; what the displays
    and the console hold may differ. *)
Definition same_page (w1 w2 : World) : Prop :=
  net w1 = net w2 /\ searchInput w1 = searchInput w2
  /\ has_region (cocktailDisplay w1) = has_region (cocktailDisplay w2).

(** Two worlds that in addition show the same in the cocktail display. *)
Definition same_view (w1 w2 : World) : Prop :=
  net w1 = net w2 /\ searchInput w1 = searchInput w2
  /\ cocktailDisplay w1 = cocktailDisplay w2.

(** A computation whose outcome and view are fixed by the view it starts
    from. *)
Definition respects {A : Type} (c : M A) : Prop :=
  forall w1 w2,
    same_view w1 w2 ->
    fst (c w1) = fst (c w2) /\ same_view (snd (c w1)) (snd (c w2)).

(** A computation whose outcome and view are fixed by the page it starts
    from: it overwrites the cocktail display. *)
Definition repaints {A : Type} (c : M A) : Prop :=
  forall w1 w2,
    same_page w1 w2 ->
    fst (c w1) = fst (c w2) /\ same_view (snd (c w1)) (snd (c w2)).

(** A markup that is a loading state. *)
Definition is_loading_state (html : jsstring) : Prop :=
  exists msg, html = loading_state msg.

(** The cocktail display holds a markup that is not a loading state. *)
Definition settled (w : World) : Prop :=
  exists html, cocktailDisplay w = Some html /\ ~ is_loading_state html.

(** A computation that, on a page with the cocktail display, keeps the
    display and leaves it settled when it returns. *)
Definition settles {A : Type} (c : M A) : Prop :=
  forall w,
    cocktailDisplay w <> None ->
    cocktailDisplay (snd (c w)) <> None
    /\ (forall a, fst (c w) = Ok a -> settled (snd (c w))).

(** A value that is present but has no [trim]: not a text. *)
Definition untrimmable (v : value) : bool :=
  truthy v && negb (match v with VStr _ => true | _ => false end).

(** A record whose second ingredient is a number. *)
Definition odd_drink : value :=
  VObj [(lit "strDrink", VStr (lit "Odd"));
        (lit "strIngredient1", VStr (lit "Gin"));
        (lit "strIngredient2", VNum true (lit "7"))].

(** ** The entries of a rendered list *)

(** [s] starts with [p]. *)
Fixpoint starts_with (p s : jsstring) : bool :=
  match p, s with
  | [], _ => true
  | _ :: _, [] => false
  | a :: p', b :: s' => (a =? b) && starts_with p' s'
  end.

(** The number of list items in a markup: the places where [<li>]
    stands. *)
Fixpoint list_items (s : jsstring) : nat :=
  match s with
  | [] => 0%nat
  | _ :: r => ((if starts_with (lit "<li>") s then 1 else 0) + list_items r)%nat
  end.

(** [s] ends in the middle of a [p]: what follows [s] could complete
    it. *)
Fixpoint cut_short (p s : jsstring) : bool :=
  match p, s with
  | [], _ => false
  | _ :: _, [] => true
  | a :: p', b :: s' => (a =? b) && cut_short p' s'
  end.

(** No [<li>] starts in [s] and ends after it. *)
Fixpoint self_contained (s : jsstring) : bool :=
  match s with
  | [] => true
  | _ :: r => negb (cut_short (lit "<li>") s) && self_contained r
  end.

(** A piece of markup with [n] list items, whatever follows it. *)
Definition sealed (a : jsstring) (n : nat) : Prop :=
  forall b, list_items (a ++ b) = (n + list_items b)%nat.

(** The detail view around its list of ingredients (script.js, lines
    75-78): what stands before the heading of the list, the heading, the
    list, the heading of the instructions, and what follows it. *)
Definition detail_with_list (before list after : jsstring) : jsstring :=
  before
  ++ lit "            <h4>Ingredientes:</h4>" ++ nl
  ++ lit "            " ++ list ++ nl
  ++ nl
  ++ lit "            <h4>Instrucciones:</h4>" ++ after.

(** * Properties *)

(** ** The single-cocktail fetch *)

Ltac run_script :=
  unfold fetchCocktailData, fetchCocktailCategories, fetch, json, console_log,
    console_error, emit, bind, try_catch, lift, ret, throw;
  cbn [net trace searchInput cocktailDisplay categoriesDisplay fst snd
       payload status].

(** C1. Given a successful response with a JSON body whose [drinks] can be
    read, [fetchCocktailData] returns the absence value when [drinks] is
    null ([null] is returned) or the empty array (its first element,
    [undefined], is returned), and otherwise returns exactly the first
    element of the array; this for every URL, so for the search, random
    and lookup-by-id endpoints alike. *)
Theorem fetchCocktailData_absent_or_first :
  forall (w : World) (url : jsstring) (r : response) (data drinks : value),
    net w url = Responded r ->
    ok r = true ->
    payload r = Json data ->
    get data (lit "drinks") = Ok drinks ->
    (drinks = VNull -> fst (fetchCocktailData url w) = Ok VNull) /\
    (drinks = VArr [] -> fst (fetchCocktailData url w) = Ok VUndefined) /\
    (drinks = VNull \/ drinks = VArr [] ->
       exists v, fst (fetchCocktailData url w) = Ok v /\ Absent v) /\
    (forall first rest,
       drinks = VArr (first :: rest) ->
       fst (fetchCocktailData url w) = Ok first).
Proof.
  intros w url r data drinks Hnet Hok Hbody Hget.
  assert (Hrun : fst (fetchCocktailData url w)
                 = if negb (truthy drinks) then Ok VNull else get_first drinks).
  { run_script. rewrite Hnet, Hok. cbn [negb]. rewrite Hbody, Hget.
    destruct (negb (truthy drinks)); [reflexivity|].
    destruct (get_first drinks); reflexivity. }
  rewrite Hrun. repeat split.
  - intros ->. reflexivity.
  - intros ->. reflexivity.
  - intros [-> | ->]; eexists; (split; [reflexivity|]); [now left | now right].
  - intros first rest ->. reflexivity.
Qed.

(** The theorem at a search answered with two drinks: the first comes
    back. *)
Lemma fetchCocktailData_absent_or_first_witness :
  fst (fetchCocktailData (cocktailApiBaseUrl ++ lit "search.php?s=gin")
         (page_serving (VObj [(lit "drinks", VArr [gin_fizz; gin_sour])])))
  = Ok gin_fizz.
Proof.
  refine (proj2 (proj2 (proj2
    (fetchCocktailData_absent_or_first
       (page_serving (VObj [(lit "drinks", VArr [gin_fizz; gin_sour])]))
       (cocktailApiBaseUrl ++ lit "search.php?s=gin")
       (mkResponse 200 (Json (VObj [(lit "drinks", VArr [gin_fizz; gin_sour])])))
       (VObj [(lit "drinks", VArr [gin_fizz; gin_sour])])
       (VArr [gin_fizz; gin_sour])
       eq_refl eq_refl eq_refl eq_refl)))
    gin_fizz [gin_sour] eq_refl).
Defined.

(** ** Painting the regions *)

Arguments lit : simpl never.
Arguments message : simpl never.
Opaque lit.

Lemma displayError_run (msg : jsstring) (w : World) :
  displayError msg w = (Ok tt, paint_cocktail (error_state msg) w).
Proof.
  destruct w as [n t si cd cg]. destruct cd; reflexivity.
Qed.

Lemma displayLoading_run (msg : jsstring) (w : World) :
  displayLoading (Some msg) w = (Ok tt, paint_cocktail (loading_state msg) w).
Proof.
  destruct w as [n t si cd cg]. destruct cd; reflexivity.
Qed.

Lemma displayCocktail_falsy (drink : value) (w : World) :
  truthy drink = false ->
  displayCocktail drink w = (Ok tt, paint_cocktail not_found_state w).
Proof.
  intros Hf. destruct w as [n t si cd cg].
  unfold displayCocktail, bind, cocktailDisplayDiv. cbn.
  destruct cd; [| reflexivity]. cbn. rewrite Hf. reflexivity.
Qed.

Lemma paint_cocktail_twice (a b : jsstring) (w : World) :
  paint_cocktail a (paint_cocktail b w) = paint_cocktail a w.
Proof.
  destruct w as [n t si cd cg]. destruct cd; reflexivity.
Qed.

Lemma paint_categories_twice (a b : jsstring) (w : World) :
  paint_categories a (paint_categories b w) = paint_categories a w.
Proof.
  destruct w as [n t si cd cg]. destruct cg; reflexivity.
Qed.

(** A successful response that finds nothing makes [fetchCocktailData]
    return [null]; the console shows the URL and no error. *)
Lemma fetchCocktailData_nothing_found
  (w : World) (url : jsstring) (r : response) (data drinks : value) :
  net w url = Responded r -> ok r = true -> payload r = Json data ->
  get data (lit "drinks") = Ok drinks -> truthy drinks = false ->
  fetchCocktailData url w
  = (Ok VNull, after_events [ConsoleLog (lit "Fetching URL:") url; Request url] w).
Proof.
  intros Hnet Hok Hbody Hget Hf. destruct w as [n t si cd cg]. cbn in Hnet.
  run_script. rewrite Hnet, Hok. cbn [negb]. rewrite Hbody, Hget, Hf. cbn.
  unfold after_events. cbn. now rewrite <- app_assoc.
Qed.

(** A failed request makes [fetchCocktailData] raise the failure, after
    logging the URL and the error. *)
Lemma fetchCocktailData_raises (w : World) (url : jsstring) (e : exn) :
  fetch_failure (net w url) = Some e ->
  fetchCocktailData url w
  = (Throw e,
     after_events [ConsoleLog (lit "Fetching URL:") url; Request url;
                   ConsoleError (lit "Cocktail Fetch error:") e] w).
Proof.
  intros Hfail. destruct w as [n t si cd cg]. cbn in Hfail.
  run_script. unfold after_events. cbn.
  destruct (n url) as [msg | r]; cbn in Hfail.
  - injection Hfail as <-. cbn. now rewrite <- !app_assoc.
  - destruct (negb (ok r)).
    + injection Hfail as <-. cbn. now rewrite <- !app_assoc.
    + destruct (payload r); [| discriminate].
      injection Hfail as <-. cbn. now rewrite <- !app_assoc.
Qed.

Lemma fetchCocktailData_found
  (w : World) (url : jsstring) (r : response) (data drinks first : value) :
  net w url = Responded r -> ok r = true -> payload r = Json data ->
  get data (lit "drinks") = Ok drinks -> truthy drinks = true ->
  get_first drinks = Ok first ->
  fetchCocktailData url w
  = (Ok first, after_events [ConsoleLog (lit "Fetching URL:") url; Request url] w).
Proof.
  intros Hnet Hok Hbody Hget Ht Hfirst. destruct w as [n t si cd cg]. cbn in Hnet.
  run_script. rewrite Hnet, Hok. cbn [negb]. rewrite Hbody, Hget, Ht. cbn.
  rewrite Hfirst. unfold after_events. cbn. now rewrite <- app_assoc.
Qed.

(** ** Absence is rendered as not found *)

(** C8. [displayCocktail] of the absence value returns normally and leaves
    the not-found message in the cocktail display, whatever the display
    held before; and when the server finds nothing (drinks null or empty)
    the body of the flows' [try] block, fetch then display, ends normally
    with that message and without any console error: the catch handler,
    the error path, is not entered. *)
Theorem displayCocktail_absent_not_found :
  forall (w : World) (v : value),
    Absent v ->
    displayCocktail v w = (Ok tt, paint_cocktail not_found_state w)
    /\ (forall (url : jsstring) (r : response) (data drinks : value),
          net w url = Responded r -> ok r = true -> payload r = Json data ->
          get data (lit "drinks") = Ok drinks ->
          drinks = VNull \/ drinks = VArr [] ->
          (drink <- fetchCocktailData url ;; displayCocktail drink) w
          = (Ok tt,
             paint_cocktail not_found_state
               (after_events [ConsoleLog (lit "Fetching URL:") url; Request url] w))).
Proof.
  intros w v Habs. split.
  - apply displayCocktail_falsy. destruct Habs as [-> | ->]; reflexivity.
  - intros url r data drinks Hnet Hok Hbody Hget [-> | ->]; unfold bind.
    + rewrite (fetchCocktailData_nothing_found w url r data VNull)
        by (assumption || reflexivity).
      now apply displayCocktail_falsy.
    + rewrite (fetchCocktailData_found w url r data (VArr []) VUndefined)
        by (assumption || reflexivity).
      now apply displayCocktail_falsy.
Qed.

(** The theorem at a page whose server finds nothing for the random
    request. *)
Lemma displayCocktail_absent_not_found_witness :
  displayCocktail VNull page_finding_nothing
  = (Ok tt, paint_cocktail not_found_state page_finding_nothing)
  /\ (drink <- fetchCocktailData randomUrl ;; displayCocktail drink)
       page_finding_nothing
     = (Ok tt,
        paint_cocktail not_found_state
          (after_events [ConsoleLog (lit "Fetching URL:") randomUrl;
                         Request randomUrl] page_finding_nothing)).
Proof.
  pose proof (displayCocktail_absent_not_found page_finding_nothing VNull
                (or_introl eq_refl)) as [H1 H2].
  split.
  - exact H1.
  - exact (H2 randomUrl
             (mkResponse 200 (Json (VObj [(lit "drinks", VNull)])))
             (VObj [(lit "drinks", VNull)]) VNull
             eq_refl eq_refl eq_refl eq_refl (or_introl eq_refl)).
Defined.

(** ** The categories display *)

(** C7. [displayCategories] of the empty list and of the absence value
    ([null]; [undefined] alike) leave the same world, in which the
    categories display holds the none-found message. *)
Theorem displayCategories_empty_same_as_absent :
  forall (w : World),
    displayCategories (VArr []) w = displayCategories VNull w
    /\ displayCategories (VArr []) w = displayCategories VUndefined w
    /\ displayCategories VNull w
       = (Ok tt, paint_categories no_categories_state w).
Proof.
  intros [n t si cd cg]. destruct cg; repeat split; reflexivity.
Qed.

(** ** The search field *)

Lemma trimStart_whitespace_only (s : jsstring) :
  whitespace_only s = true -> trimStart s = [].
Proof.
  induction s as [| c r IH]; cbn; [reflexivity |].
  intros H. apply andb_prop in H as [Hc Hr]. rewrite Hc. now apply IH.
Qed.

Lemma trimStart_empty_whitespace_only (s : jsstring) :
  trimStart s = [] -> whitespace_only s = true.
Proof.
  induction s as [| c r IH]; cbn; [reflexivity |].
  destruct (is_white c); [| discriminate]. exact IH.
Qed.

Lemma whitespace_only_app (a b : jsstring) :
  whitespace_only (a ++ b) = whitespace_only a && whitespace_only b.
Proof. apply forallb_app. Qed.

Lemma whitespace_only_rev (s : jsstring) :
  whitespace_only (rev s) = whitespace_only s.
Proof.
  induction s as [| c r IH]; cbn; [reflexivity |].
  rewrite whitespace_only_app, IH. cbn. rewrite andb_true_r. apply andb_comm.
Qed.

Lemma trimStart_fixed (s : jsstring) : trimStart (trimStart s) = trimStart s.
Proof.
  induction s as [| c r IH]; cbn; [reflexivity |].
  destruct (is_white c) eqn:Hc; [exact IH |]. cbn. now rewrite Hc.
Qed.

(** A string trims to the empty string exactly when it is white space
    only. *)
Lemma trim_empty_iff (s : jsstring) :
  trim s = [] <-> whitespace_only s = true.
Proof.
  unfold trim, trimEnd. split.
  - intros H. apply (f_equal (@rev N)) in H. rewrite rev_involutive in H.
    cbn in H. apply trimStart_empty_whitespace_only in H.
    rewrite whitespace_only_rev in H.
    apply trimStart_whitespace_only in H. rewrite trimStart_fixed in H.
    now apply trimStart_empty_whitespace_only.
  - intros H. now rewrite (trimStart_whitespace_only s H).
Qed.

(** C5. When the search field is empty or white space only, that is when
    it trims to the empty string, [searchAndDisplayCocktail] returns at
    once with the validation error in the cocktail display; the trace is
    as before, so no request was issued (and no console line written):
    [fetchCocktailData] was not called. *)
Theorem search_blank_short_circuits :
  forall (w : World) (s : jsstring),
    searchInput w = Some s ->
    whitespace_only s = true ->
    trim s = []
    /\ searchAndDisplayCocktail w
       = (Ok tt,
          paint_cocktail
            (error_state (lit "Por favor, introduce un nombre de cóctel para buscar."))
            w)
    /\ trace (snd (searchAndDisplayCocktail w)) = trace w
    /\ (forall url, ~ In (Request url) (trace w) ->
                    ~ In (Request url) (trace (snd (searchAndDisplayCocktail w)))).
Proof.
  intros w s Hs Hws.
  assert (Ht : trim s = []) by now apply trim_empty_iff.
  assert (Hrun : searchAndDisplayCocktail w
                 = (Ok tt,
                    paint_cocktail
                      (error_state (lit "Por favor, introduce un nombre de cóctel para buscar."))
                      w)).
  { unfold searchAndDisplayCocktail, bind at 1, searchInput_value.
    rewrite Hs, Ht. cbn [truthy str_eqb negb]. apply displayError_run. }
  rewrite Hrun. cbn. repeat split; auto.
Qed.

(** The theorem at a field holding a space, a tab and a no-break space. *)
Lemma search_blank_short_circuits_witness :
  searchAndDisplayCocktail (page_searching [32; 9; 160])
  = (Ok tt,
     paint_cocktail
       (error_state (lit "Por favor, introduce un nombre de cóctel para buscar."))
       (page_searching [32; 9; 160])).
Proof.
  exact (proj1 (proj2
    (search_blank_short_circuits (page_searching [32; 9; 160]) [32; 9; 160]
       eq_refl eq_refl))).
Defined.

(** ** Failures of the API client and the flows *)

Lemma fetch_failure_painted (html : jsstring) (w : World) (url : jsstring) :
  net (paint_cocktail html w) url = net w url.
Proof. reflexivity. Qed.

Lemma paint_after_events_paint (a b : jsstring) (evs : list event) (w : World) :
  paint_cocktail a (after_events evs (paint_cocktail b w))
  = paint_cocktail a (after_events evs w).
Proof.
  destruct w as [n t si cd cg]. destruct cd; reflexivity.
Qed.

(** A [try] whose handler is a [displayError] never lets anything out. *)
Lemma try_catch_displayError_ok (c : M unit) (f : exn -> jsstring) (w : World) :
  fst (try_catch c (fun error => displayError (f error)) w) = Ok tt.
Proof.
  unfold try_catch. destruct (c w) as [[[] | e] w']; [reflexivity |].
  now rewrite displayError_run.
Qed.

(** The [try] of the three single-cocktail flows when the request fails. *)
Lemma show_fetched_failure (url : jsstring) (f : exn -> jsstring) (w : World) (e : exn) :
  fetch_failure (net w url) = Some e ->
  try_catch (drink <- fetchCocktailData url ;; displayCocktail drink)
    (fun error => displayError (f error)) w
  = (Ok tt,
     paint_cocktail (error_state (f e))
       (after_events [ConsoleLog (lit "Fetching URL:") url; Request url;
                      ConsoleError (lit "Cocktail Fetch error:") e] w)).
Proof.
  intros Hfail. unfold try_catch, bind.
  rewrite (fetchCocktailData_raises w url e Hfail). apply displayError_run.
Qed.

Lemma single_flow_failure
  (url : jsstring) (f : exn -> jsstring) (loading : jsstring) (w : World) (e : exn) :
  fetch_failure (net w url) = Some e ->
  try_catch (drink <- fetchCocktailData url ;; displayCocktail drink)
    (fun error => displayError (f error)) (paint_cocktail loading w)
  = (Ok tt,
     paint_cocktail (error_state (f e))
       (after_events [ConsoleLog (lit "Fetching URL:") url; Request url;
                      ConsoleError (lit "Cocktail Fetch error:") e] w)).
Proof.
  intros Hfail. rewrite (show_fetched_failure url f (paint_cocktail loading w) e Hfail).
  now rewrite paint_after_events_paint.
Qed.

Lemma try_catch_bind_lift_ok {A B : Type} (a : A) (k : A -> M B)
  (h : exn -> M B) (w : World) :
  try_catch (x <- lift (Ok a) ;; k x) h w = try_catch (k a) h w.
Proof. reflexivity. Qed.

Lemma try_catch_bind_lift_throw {A B : Type} (e : exn) (k : A -> M B)
  (h : exn -> M B) (w : World) :
  try_catch (x <- lift (Throw e) ;; k x) h w = h e w.
Proof. reflexivity. Qed.
Lemma random_flow_failure (w : World) (e : exn) :
  fetch_failure (net w randomUrl) = Some e ->
  fetchAndDisplayRandomCocktail w
  = (Ok tt,
     paint_cocktail
       (error_state (lit "Error al cargar cóctel aleatorio: " ++ message e))
       (after_events [ConsoleLog (lit "Fetching URL:") randomUrl; Request randomUrl;
                      ConsoleError (lit "Cocktail Fetch error:") e] w)).
Proof.
  intros Hfail. unfold fetchAndDisplayRandomCocktail, bind at 1.
  rewrite displayLoading_run.
  exact (single_flow_failure randomUrl
           (fun error => lit "Error al cargar cóctel aleatorio: " ++ message error)
           _ w e Hfail).
Qed.

Lemma details_flow_failure (w : World) (drinkId encoded : jsstring) (e : exn) :
  encodeURIComponent drinkId = Ok encoded ->
  fetch_failure (net w (cocktailApiBaseUrl ++ lit "lookup.php?i=" ++ encoded)) = Some e ->
  fetchAndDisplayCocktailDetails drinkId w
  = (Ok tt,
     paint_cocktail
       (error_state (lit "Error al cargar detalles del cóctel: " ++ message e))
       (after_events
          [ConsoleLog (lit "Fetching URL:")
             (cocktailApiBaseUrl ++ lit "lookup.php?i=" ++ encoded);
           Request (cocktailApiBaseUrl ++ lit "lookup.php?i=" ++ encoded);
           ConsoleError (lit "Cocktail Fetch error:") e] w)).
Proof.
  intros Henc Hfail. unfold fetchAndDisplayCocktailDetails, bind at 1.
  rewrite displayLoading_run, Henc, try_catch_bind_lift_ok.
  exact (single_flow_failure _
           (fun error => lit "Error al cargar detalles del cóctel: " ++ message error)
           _ w e Hfail).
Qed.

Lemma search_flow_failure (w : World) (s encoded : jsstring) (e : exn) :
  searchInput w = Some s ->
  whitespace_only s = false ->
  encodeURIComponent (trim s) = Ok encoded ->
  fetch_failure (net w (cocktailApiBaseUrl ++ lit "search.php?s=" ++ encoded)) = Some e ->
  searchAndDisplayCocktail w
  = (Ok tt,
     paint_cocktail
       (error_state (lit "Error al buscar cóctel: " ++ message e))
       (after_events
          [ConsoleLog (lit "Fetching URL:")
             (cocktailApiBaseUrl ++ lit "search.php?s=" ++ encoded);
           Request (cocktailApiBaseUrl ++ lit "search.php?s=" ++ encoded);
           ConsoleError (lit "Cocktail Fetch error:") e] w)).
Proof.
  intros Hs Hws Henc Hfail.
  assert (Ht : truthy (VStr (trim s)) = true).
  { destruct (trim s) eqn:Htrim; [| reflexivity].
    apply trim_empty_iff in Htrim. congruence. }
  unfold searchAndDisplayCocktail, bind at 1, searchInput_value.
  rewrite Hs, Ht. cbn [negb]. unfold bind at 1.
  rewrite displayLoading_run, Henc, try_catch_bind_lift_ok.
  exact (single_flow_failure _
           (fun error => lit "Error al buscar cóctel: " ++ message error)
           _ w e Hfail).
Qed.

Lemma category_flow_failure (w : World) (category encoded : jsstring) (e : exn) :
  encodeURIComponent category = Ok encoded ->
  fetch_failure (net w (cocktailApiBaseUrl ++ lit "filter.php?c=" ++ encoded)) = Some e ->
  fetchAndDisplayCocktailsByCategory category w
  = (Ok tt,
     paint_cocktail
       (error_state (lit "Error al cargar cócteles de la categoría `" ++ category
                     ++ lit "`: " ++ message e))
       (after_events
          [Request (cocktailApiBaseUrl ++ lit "filter.php?c=" ++ encoded)] w)).
Proof.
  intros Henc Hfail. unfold fetchAndDisplayCocktailsByCategory, bind at 1.
  rewrite displayLoading_run, Henc, try_catch_bind_lift_ok.
  rewrite <- (paint_after_events_paint _
                (loading_state (lit "Cargando cócteles de la categoría `" ++ category
                                ++ lit "`..."))).
  set (w1 := paint_cocktail _ w).
  change (net w _) with (net w1 (cocktailApiBaseUrl ++ lit "filter.php?c=" ++ encoded)) in Hfail.
  clearbody w1. destruct w1 as [n t si cd cg]. cbn in Hfail.
  unfold try_catch. run_script.
  destruct (n _) as [msg | r]; cbn in Hfail.
  - injection Hfail as <-. cbn. destruct cd; reflexivity.
  - destruct (negb (ok r)).
    + injection Hfail as <-. cbn. destruct cd; reflexivity.
    + destruct (payload r); [| discriminate].
      injection Hfail as <-. cbn. destruct cd; reflexivity.
Qed.

(** The listing of the categories when its request fails: the failure is
    caught inside [fetchCocktailCategories], shown in the cocktail
    display, and [null] is returned; [displayCategories] then shows the
    none-found message. *)
Lemma fetchCocktailCategories_failure (w : World) (e : exn) :
  fetch_failure (net w categoriesUrl) = Some e ->
  fetchCocktailCategories w
  = (Ok VNull,
     paint_cocktail
       (error_state (lit "Error al cargar las categorías: " ++ message e))
       (after_events [Request categoriesUrl;
                      ConsoleError (lit "Category Fetch error:") e] w)).
Proof.
  intros Hfail. destruct w as [n t si cd cg]. cbn in Hfail.
  unfold fetchCocktailCategories. fold categoriesUrl. unfold try_catch. run_script.
  unfold paint_cocktail, after_events. cbn.
  destruct (n categoriesUrl) as [msg | r]; cbn in Hfail.
  - injection Hfail as <-. cbn. rewrite <- !app_assoc. destruct cd; reflexivity.
  - destruct (negb (ok r)).
    + injection Hfail as <-. cbn. rewrite <- !app_assoc. destruct cd; reflexivity.
    + destruct (payload r); [| discriminate].
      injection Hfail as <-. cbn. rewrite <- !app_assoc. destruct cd; reflexivity.
Qed.

Lemma initializeCategories_failure (w : World) (e : exn) :
  fetch_failure (net w categoriesUrl) = Some e ->
  initializeCategories w
  = (Ok tt,
     paint_categories no_categories_state
       (paint_cocktail
          (error_state (lit "Error al cargar las categorías: " ++ message e))
          (after_events [Request categoriesUrl;
                         ConsoleError (lit "Category Fetch error:") e] w))).
Proof.
  intros Hfail. unfold initializeCategories, bind.
  rewrite (fetchCocktailCategories_failure w e Hfail).
  generalize (paint_cocktail
                (error_state (lit "Error al cargar las categorías: " ++ message e))
                (after_events [Request categoriesUrl;
                               ConsoleError (lit "Category Fetch error:") e] w)).
  intros [n t si cd cg]. destruct cg; reflexivity.
Qed.

Lemma random_flow_returns (w : World) :
  fst (fetchAndDisplayRandomCocktail w) = Ok tt.
Proof.
  unfold fetchAndDisplayRandomCocktail, bind at 1. rewrite displayLoading_run.
  apply (try_catch_displayError_ok _
           (fun error => lit "Error al cargar cóctel aleatorio: " ++ message error)).
Qed.

Lemma details_flow_returns (drinkId : jsstring) (w : World) :
  fst (fetchAndDisplayCocktailDetails drinkId w) = Ok tt.
Proof.
  unfold fetchAndDisplayCocktailDetails, bind at 1. rewrite displayLoading_run.
  apply (try_catch_displayError_ok _
           (fun error => lit "Error al cargar detalles del cóctel: " ++ message error)).
Qed.

Lemma category_flow_returns (category : jsstring) (w : World) :
  fst (fetchAndDisplayCocktailsByCategory category w) = Ok tt.
Proof.
  unfold fetchAndDisplayCocktailsByCategory, bind at 1. rewrite displayLoading_run.
  apply (try_catch_displayError_ok _
           (fun error => lit "Error al cargar cócteles de la categoría `" ++ category
                           ++ lit "`: " ++ message error)).
Qed.

Lemma search_flow_returns (w : World) :
  searchInput w <> None -> fst (searchAndDisplayCocktail w) = Ok tt.
Proof.
  intros Hs. unfold searchAndDisplayCocktail, bind at 1, searchInput_value.
  destruct (searchInput w) as [s |]; [| congruence].
  destruct (negb (truthy (VStr (trim s)))).
  - now rewrite displayError_run.
  - unfold bind at 1. rewrite displayLoading_run.
    apply (try_catch_displayError_ok _
             (fun error => lit "Error al buscar cóctel: " ++ message error)).
Qed.

Lemma fetchCocktailCategories_returns (w : World) :
  exists v, fst (fetchCocktailCategories w) = Ok v.
Proof.
  unfold fetchCocktailCategories, try_catch.
  match goal with |- context [match ?c w with _ => _ end] => destruct (c w) as [[v | e] w'] end.
  - now exists v.
  - exists VNull. unfold bind, console_error, emit. now rewrite displayError_run.
Qed.

(** C2. An operation of the API client returns a value or raises: a
    failed request (no response, a status that is not a success, a body
    that is not JSON) makes [fetchCocktailData] raise that failure, and
    [fetchCocktailCategories] always returns.  No flow of the controller
    lets an exception out (the search flow given that the page has its
    search field), and when the request of a flow fails the flow ends with
    the cocktail display in the error state that carries the failure's
    message. *)
Theorem api_failures_become_error_states :
  forall (w : World),
    (forall url e, fetch_failure (net w url) = Some e ->
                   fst (fetchCocktailData url w) = Throw e)
    /\ (exists v, fst (fetchCocktailCategories w) = Ok v)
    /\ fst (fetchAndDisplayRandomCocktail w) = Ok tt
    /\ (forall drinkId, fst (fetchAndDisplayCocktailDetails drinkId w) = Ok tt)
    /\ (forall category, fst (fetchAndDisplayCocktailsByCategory category w) = Ok tt)
    /\ (searchInput w <> None -> fst (searchAndDisplayCocktail w) = Ok tt)
    /\ (forall e,
          fetch_failure (net w randomUrl) = Some e ->
          cocktailDisplay (snd (fetchAndDisplayRandomCocktail w))
          = painted (cocktailDisplay w)
              (error_state (lit "Error al cargar cóctel aleatorio: " ++ message e)))
    /\ (forall s encoded e,
          searchInput w = Some s ->
          whitespace_only s = false ->
          encodeURIComponent (trim s) = Ok encoded ->
          fetch_failure (net w (cocktailApiBaseUrl ++ lit "search.php?s=" ++ encoded))
          = Some e ->
          cocktailDisplay (snd (searchAndDisplayCocktail w))
          = painted (cocktailDisplay w)
              (error_state (lit "Error al buscar cóctel: " ++ message e)))
    /\ (forall drinkId encoded e,
          encodeURIComponent drinkId = Ok encoded ->
          fetch_failure (net w (cocktailApiBaseUrl ++ lit "lookup.php?i=" ++ encoded))
          = Some e ->
          cocktailDisplay (snd (fetchAndDisplayCocktailDetails drinkId w))
          = painted (cocktailDisplay w)
              (error_state (lit "Error al cargar detalles del cóctel: " ++ message e)))
    /\ (forall category encoded e,
          encodeURIComponent category = Ok encoded ->
          fetch_failure (net w (cocktailApiBaseUrl ++ lit "filter.php?c=" ++ encoded))
          = Some e ->
          cocktailDisplay (snd (fetchAndDisplayCocktailsByCategory category w))
          = painted (cocktailDisplay w)
              (error_state (lit "Error al cargar cócteles de la categoría `" ++ category
                            ++ lit "`: " ++ message e)))
    /\ (forall e,
          fetch_failure (net w categoriesUrl) = Some e ->
          fst (initializeCategories w) = Ok tt
          /\ cocktailDisplay (snd (initializeCategories w))
             = painted (cocktailDisplay w)
                 (error_state (lit "Error al cargar las categorías: " ++ message e))).
Proof.
  intros w. repeat match goal with |- _ /\ _ => split end.
  - intros url e H. now rewrite (fetchCocktailData_raises w url e H).
  - apply fetchCocktailCategories_returns.
  - apply random_flow_returns.
  - intros; apply details_flow_returns.
  - intros; apply category_flow_returns.
  - apply search_flow_returns.
  - intros e H. now rewrite (random_flow_failure w e H).
  - intros s encoded e Hs Hws Henc H.
    now rewrite (search_flow_failure w s encoded e Hs Hws Henc H).
  - intros drinkId encoded e Henc H.
    now rewrite (details_flow_failure w drinkId encoded e Henc H).
  - intros category encoded e Henc H.
    now rewrite (category_flow_failure w category encoded e Henc H).
  - intros e H. rewrite (initializeCategories_failure w e H). split; reflexivity.
Qed.

(** The theorem at a page whose field holds [  mojito ] while the server
    answers 404: the search ends in the error state with the status. *)
Lemma api_failures_become_error_states_witness :
  cocktailDisplay (snd (searchAndDisplayCocktail page_404))
  = Some (error_state (lit "Error al buscar cóctel: HTTP error! Status: 404")).
Proof.
  exact (proj1 (proj2 (proj2 (proj2 (proj2 (proj2 (proj2 (proj2
    (api_failures_become_error_states page_404))))))))
    (lit "  mojito ") (lit "mojito") (HttpError 404)
    eq_refl eq_refl eq_refl eq_refl).
Defined.

(** ** The initial listing of the categories *)

(** C10. When the request for the listing of the categories fails,
    [fetchCocktailCategories] shows the error, with its message, in the
    cocktail display (not in the categories display), and returns [null]
    instead of raising; [initializeCategories] then overwrites the
    categories display with the none-found message: one failure changes
    both regions. *)
Theorem category_listing_failure_paints_both_regions :
  forall (w : World) (e : exn),
    fetch_failure (net w categoriesUrl) = Some e ->
    fetchCocktailCategories w
    = (Ok VNull,
       paint_cocktail
         (error_state (lit "Error al cargar las categorías: " ++ message e))
         (after_events [Request categoriesUrl;
                        ConsoleError (lit "Category Fetch error:") e] w))
    /\ categoriesDisplay (snd (fetchCocktailCategories w)) = categoriesDisplay w
    /\ fst (initializeCategories w) = Ok tt
    /\ cocktailDisplay (snd (initializeCategories w))
       = painted (cocktailDisplay w)
           (error_state (lit "Error al cargar las categorías: " ++ message e))
    /\ categoriesDisplay (snd (initializeCategories w))
       = painted (categoriesDisplay w) no_categories_state.
Proof.
  intros w e H.
  rewrite (fetchCocktailCategories_failure w e H),
    (initializeCategories_failure w e H).
  repeat split.
Qed.

(** The theorem at a page whose server cannot be reached. *)
Lemma category_listing_failure_paints_both_regions_witness :
  cocktailDisplay (snd (initializeCategories page_offline))
  = Some (error_state (lit "Error al cargar las categorías: Failed to fetch"))
  /\ categoriesDisplay (snd (initializeCategories page_offline))
     = Some no_categories_state.
Proof.
  pose proof (category_listing_failure_paints_both_regions page_offline
                (NetworkError (lit "Failed to fetch")) eq_refl)
    as (_ & _ & _ & H1 & H2).
  exact (conj H1 H2).
Defined.

(** ** The console and the requests *)

Lemma fetchCocktailData_trace (w : World) (url : jsstring) :
  exists tail,
    trace (snd (fetchCocktailData url w))
    = trace w ++ ConsoleLog (lit "Fetching URL:") url :: Request url :: tail
    /\ (tail = [] \/ exists e, tail = [ConsoleError (lit "Cocktail Fetch error:") e]).
Proof.
  destruct w as [n t si cd cg]. run_script.
  destruct (n url) as [msg | r]; cbn.
  - eexists. rewrite <- !app_assoc. split; [reflexivity | right; eauto].
  - destruct (negb (ok r)); cbn.
    + eexists. rewrite <- !app_assoc. split; [reflexivity | right; eauto].
    + destruct (payload r) as [msg | data]; cbn.
      * eexists. rewrite <- !app_assoc. split; [reflexivity | right; eauto].
      * destruct (get data (lit "drinks")) as [drinks | e]; cbn.
        -- destruct (negb (truthy drinks)); cbn.
           ++ eexists. rewrite <- !app_assoc. split; [reflexivity | now left].
           ++ destruct (get_first drinks); cbn; eexists; rewrite <- !app_assoc;
                (split; [reflexivity | (now left) || (right; eauto)]).
        -- eexists. rewrite <- !app_assoc. split; [reflexivity | right; eauto].
Qed.

(** What [fetchCocktailData] returns depends on the server's answer alone,
    not on the console, the search field or the regions. *)
Lemma fetchCocktailData_result_by_net (w : World) (url : jsstring)
  (t : list event) (si cd cg : option jsstring) :
  fst (fetchCocktailData url (mkWorld (net w) t si cd cg))
  = fst (fetchCocktailData url w).
Proof.
  destruct w as [n t' si' cd' cg']. run_script.
  destruct (n url) as [msg | r]; cbn; [reflexivity |].
  destruct (negb (ok r)); cbn; [reflexivity |].
  destruct (payload r) as [msg | data]; cbn; [reflexivity |].
  destruct (get data (lit "drinks")) as [drinks | e]; cbn; [| reflexivity].
  destruct (negb (truthy drinks)); cbn; [reflexivity |].
  destruct (get_first drinks); reflexivity.
Qed.

(** The listing of the categories requests its URL without showing it on
    the console first. *)
Lemma fetchCocktailCategories_trace (w : World) :
  exists tail,
    trace (snd (fetchCocktailCategories w)) = trace w ++ Request categoriesUrl :: tail
    /\ (tail = [] \/ exists e, tail = [ConsoleError (lit "Category Fetch error:") e]).
Proof.
  destruct w as [n t si cd cg].
  unfold fetchCocktailCategories. fold categoriesUrl. unfold try_catch. run_script.
  assert (Hfail : forall e,
            exists tail,
              trace (snd ((console_error (lit "Category Fetch error:") e ;;
                           displayError (lit "Error al cargar las categorías: " ++ message e) ;;
                           ret VNull)
                            (mkWorld n (t ++ [Request categoriesUrl]) si cd cg)))
              = t ++ Request categoriesUrl :: tail
              /\ (tail = [] \/ exists e', tail = [ConsoleError (lit "Category Fetch error:") e'])).
  { intros e. exists [ConsoleError (lit "Category Fetch error:") e].
    split; [| right; eauto].
    unfold bind, console_error, emit. cbn.
    destruct cd; cbn; now rewrite <- app_assoc. }
  unfold bind, console_error, emit in Hfail. cbn in Hfail.
  destruct (n categoriesUrl) as [msg | r]; cbn; [apply Hfail |].
  destruct (negb (ok r)); cbn; [apply Hfail |].
  destruct (payload r) as [msg | data]; cbn; [apply Hfail |].
  destruct (get data (lit "drinks")) as [drinks | e]; cbn; [| apply Hfail].
  destruct (negb (truthy drinks)); cbn; eexists; (split; [reflexivity | now left]).
Qed.

Lemma quiet_bind {A B : Type} (c : M A) (k : A -> M B) :
  quiet c -> (forall a, quiet (k a)) -> quiet (bind c k).
Proof.
  intros Hc Hk w. unfold bind. specialize (Hc w).
  destruct (c w) as [[a | e] w']; cbn in *; [| exact Hc].
  now rewrite Hk.
Qed.

Lemma quiet_lift {A : Type} (r : result A) : quiet (lift r).
Proof. intros w. reflexivity. Qed.

Lemma quiet_ret {A : Type} (a : A) : quiet (ret a).
Proof. intros w. reflexivity. Qed.

Lemma quiet_set_cocktailDisplay (html : jsstring) : quiet (set_cocktailDisplay html).
Proof. intros [n t si cd cg]. destruct cd; reflexivity. Qed.

Lemma quiet_displayError (msg : jsstring) : quiet (displayError msg).
Proof. intros w. now rewrite displayError_run. Qed.

Lemma quiet_displayCocktail (drink : value) : quiet (displayCocktail drink).
Proof.
  unfold displayCocktail. apply quiet_bind; [intros w; reflexivity |].
  intros present. destruct (negb present); [apply quiet_ret |].
  destruct (negb (truthy drink)); [apply quiet_set_cocktailDisplay |].
  apply quiet_bind; [apply quiet_lift |]. intros ingredients.
  apply quiet_bind; [apply quiet_lift |]. intros html.
  apply quiet_set_cocktailDisplay.
Qed.

Lemma quiet_displayCocktailGrid (drinks : value) : quiet (displayCocktailGrid drinks).
Proof.
  unfold displayCocktailGrid. apply quiet_bind; [apply quiet_lift |].
  intros html. apply quiet_set_cocktailDisplay.
Qed.

Lemma quiet_try_displayError {A : Type} (c : M unit) (f : exn -> jsstring) :
  quiet c -> quiet (try_catch c (fun error => displayError (f error))).
Proof.
  intros Hc w. unfold try_catch. specialize (Hc w).
  destruct (c w) as [[[] | e] w']; cbn [snd] in *; [exact Hc |].
  now rewrite quiet_displayError.
Qed.

Lemma requests_app (a b : list event) : requests (a ++ b) = requests a ++ requests b.
Proof.
  induction a as [| [l x | l e | u] a IH]; cbn; [reflexivity | exact IH | exact IH |].
  now rewrite IH.
Qed.

Lemma quiet_throw {A : Type} (e : exn) : quiet (@throw A e).
Proof. intros w. reflexivity. Qed.

Lemma quiet_json (r : response) : quiet (json r).
Proof. intros w. unfold json. now destruct (payload r). Qed.

Lemma trace_bind {A B : Type} (c : M A) (k : A -> M B) (w : World) :
  (forall a, quiet (k a)) -> trace (snd (bind c k w)) = trace (snd (c w)).
Proof.
  intros Hk. unfold bind. destruct (c w) as [[a | e] w']; [apply Hk | reflexivity].
Qed.

Lemma trace_try_catch {A : Type} (c : M A) (h : exn -> M A) (w : World) :
  (forall e, quiet (h e)) -> trace (snd (try_catch c h w)) = trace (snd (c w)).
Proof.
  intros Hh. unfold try_catch. destruct (c w) as [[a | e] w']; [reflexivity | apply Hh].
Qed.

Lemma fetch_trace (url : jsstring) (w : World) :
  trace (snd (fetch url w)) = trace w ++ [Request url].
Proof.
  destruct w as [n t si cd cg]. unfold fetch, bind, emit. cbn.
  now destruct (n url).
Qed.

(** The flow of a category requests the filter URL, built from the encoded
    category, and writes nothing to the console; when the category cannot
    be encoded nothing is requested. *)
Lemma category_flow_trace (category : jsstring) (w : World) :
  trace (snd (fetchAndDisplayCocktailsByCategory category w))
  = trace w
    ++ match encodeURIComponent category with
       | Ok encoded => [Request (cocktailApiBaseUrl ++ lit "filter.php?c=" ++ encoded)]
       | Throw _ => []
       end.
Proof.
  unfold fetchAndDisplayCocktailsByCategory, bind at 1. rewrite displayLoading_run.
  rewrite trace_try_catch by (intros e; apply quiet_displayError).
  destruct (encodeURIComponent category) as [encoded | e].
  - unfold bind at 1, lift at 1.
    rewrite trace_bind.
    + now rewrite fetch_trace.
    + intros response. destruct (negb (ok response)); [apply quiet_throw |].
      apply quiet_bind; [apply quiet_json |]. intros data.
      apply quiet_bind; [apply quiet_lift |]. intros drinks.
      destruct (negb (truthy drinks));
        [apply quiet_set_cocktailDisplay | apply quiet_displayCocktailGrid].
  - cbn. now rewrite app_nil_r.
Qed.

(** C9, as the script has it.  [fetchCocktailData] writes the console line
    with the URL right before its request, and what it returns is fixed
    by the server's answer alone, whatever the console holds.  The
    listing of the categories and the flow of a category issue their
    requests without a console line for the URL. *)
Theorem fetchCocktailData_logs_url_before_request :
  forall (w : World) (url : jsstring),
    (exists tail,
        trace (snd (fetchCocktailData url w))
        = trace w ++ ConsoleLog (lit "Fetching URL:") url :: Request url :: tail
        /\ (tail = [] \/ exists e, tail = [ConsoleError (lit "Cocktail Fetch error:") e]))
    /\ requests_logged []
         (skipn (length (trace w)) (trace (snd (fetchCocktailData url w)))) = true
    /\ (forall t si cd cg,
          fst (fetchCocktailData url (mkWorld (net w) t si cd cg))
          = fst (fetchCocktailData url w))
    /\ (exists tail,
          trace (snd (fetchCocktailCategories w))
          = trace w ++ Request categoriesUrl :: tail
          /\ (tail = [] \/ exists e, tail = [ConsoleError (lit "Category Fetch error:") e]))
    /\ (forall category,
          trace (snd (fetchAndDisplayCocktailsByCategory category w))
          = trace w
            ++ match encodeURIComponent category with
               | Ok encoded =>
                   [Request (cocktailApiBaseUrl ++ lit "filter.php?c=" ++ encoded)]
               | Throw _ => []
               end).
Proof.
  intros w url. repeat match goal with |- _ /\ _ => split end.
  - apply fetchCocktailData_trace.
  - destruct (fetchCocktailData_trace w url) as (tail & -> & Htail).
    rewrite skipn_app, Nat.sub_diag, skipn_all. cbn [app skipn requests_logged].
    assert (Hu : str_eqb url url = true).
    { clear. induction url as [| c r IH]; cbn; [reflexivity |].
      now rewrite N.eqb_refl, IH. }
    cbn [existsb]. rewrite Hu. cbn.
    destruct Htail as [-> | [e ->]]; reflexivity.
  - apply fetchCocktailData_result_by_net.
  - apply fetchCocktailCategories_trace.
  - intros category. apply category_flow_trace.
Qed.

(** C9 fails as stated: the listing of the categories and the flow of a
    category request their URLs and the console shows nothing before. *)
Lemma category_requests_are_not_logged :
  trace (snd (fetchCocktailCategories (page_serving (VObj [(lit "drinks", VArr [])]))))
  = [Request categoriesUrl]
  /\ requests_logged []
       (trace (snd (fetchCocktailCategories
                      (page_serving (VObj [(lit "drinks", VArr [])]))))) = false
  /\ trace (snd (fetchAndDisplayCocktailsByCategory (lit "Shot")
                   (page_serving (VObj [(lit "drinks", VArr [ordinary_drink])]))))
     = [Request (cocktailApiBaseUrl ++ lit "filter.php?c=Shot")]
  /\ requests_logged []
       (trace (snd (fetchAndDisplayCocktailsByCategory (lit "Shot")
                      (page_serving (VObj [(lit "drinks", VArr [ordinary_drink])])))))
     = false.
Proof. repeat split; vm_compute; reflexivity. Qed.

(** ** The ingredient list *)

Lemma get_not_nullish (drink : value) (key : jsstring) :
  drink <> VNull -> drink <> VUndefined ->
  exists v, get drink key = Ok v.
Proof.
  intros H1 H2. destruct drink; try congruence; cbn; eauto.
Qed.

(** The loop, entered at position [i] with [n] rounds to go: when the next
    [k] positions hold an ingredient and either the rounds end there or
    the position after them holds none, the loop appends their entries. *)
Lemma ingredients_from_run (drink : value) (k : nat) :
  drink <> VNull -> drink <> VUndefined ->
  forall (i : N) (n : nat) (html : jsstring),
    (k <= n)%nat ->
    (forall j, In j (positions i k) ->
               (exists s, strIngredient drink j = VStr s /\ s <> [])
               /\ text_or_missing (strMeasure drink j) = true) ->
    ((k < n)%nat -> truthy (strIngredient drink (i + N.of_nat k)) = false) ->
    ingredients_from drink i n html
    = Ok (html ++ concat (map (ingredient_entry drink) (positions i k))).
Proof.
  intros Hn Hu. induction k as [| k IH]; intros i n html Hle Hpresent Hstop.
  - cbn [positions map concat]. rewrite app_nil_r. destruct n as [| n]; [reflexivity |].
    cbn [ingredients_from].
    specialize (Hstop ltac:(lia)). rewrite N.add_0_r in Hstop.
    unfold strIngredient in Hstop.
    destruct (get_not_nullish drink (lit "strIngredient" ++ dec i) Hn Hu) as [g Hg].
    destruct (get_not_nullish drink (lit "strMeasure" ++ dec i) Hn Hu) as [m Hm].
    rewrite Hg in *. rewrite Hm. cbn [rbind]. now rewrite Hstop.
  - destruct n as [| n]; [lia |]. cbn [ingredients_from positions map concat].
    destruct (Hpresent i (or_introl eq_refl)) as [(s & Hs & Hne) Hmeasure].
    assert (Hrest : ingredients_from drink (i + 1) n
                      (html ++ ingredient_entry drink i)
                    = Ok ((html ++ ingredient_entry drink i)
                          ++ concat (map (ingredient_entry drink) (positions (i + 1) k)))).
    { apply IH.
      - lia.
      - intros j Hj. apply Hpresent. now right.
      - intros Hlt. replace (i + 1 + N.of_nat k) with (i + N.of_nat (S k)) by lia.
        apply Hstop. lia. }
    rewrite <- app_assoc in Hrest. rewrite <- Hrest. clear Hrest IH.
    unfold ingredient_entry.
    unfold strIngredient in *. unfold strMeasure in *.
    destruct (get_not_nullish drink (lit "strIngredient" ++ dec i) Hn Hu) as [g Hg].
    destruct (get_not_nullish drink (lit "strMeasure" ++ dec i) Hn Hu) as [m Hm].
    rewrite Hg in *. rewrite Hm in *. subst g. cbn [rbind text_of].
    assert (Ht : truthy (VStr s) = true) by (destruct s; [congruence | reflexivity]).
    rewrite Ht. cbn [negb trim_of rbind].
    destruct m; try discriminate; cbn [truthy trim_of rbind text_of].
    + reflexivity.
    + reflexivity.
    + destruct (negb (str_eqb s0 [])); cbn [rbind]; [| reflexivity].
      now rewrite <- !app_assoc.
Qed.

Lemma positions_length (i : N) (k : nat) : length (positions i k) = k.
Proof.
  revert i. induction k as [| k IH]; intros i; cbn; [reflexivity |].
  now rewrite IH.
Qed.


(** ** encodeURIComponent *)

Ltac Zify.zify_post_hook ::= Z.to_euclidean_division_equations.

Lemma split4096 (cp : N) :
  cp / 4096 * 4096 + (cp / 64) mod 64 * 64 + cp mod 64 = cp.
Proof. lia. Qed.

Lemma split262144 (cp : N) :
  cp / 262144 * 262144 + (cp / 4096) mod 64 * 4096 + (cp / 64) mod 64 * 64
  + cp mod 64 = cp.
Proof.
  pose proof (split4096 cp) as H.
  assert (cp / 262144 * 64 + (cp / 4096) mod 64 = cp / 4096).
  { replace (cp / 262144) with (cp / 4096 / 64)
      by (rewrite N.Div0.div_div; reflexivity).
    lia. }
  nia.
Qed.

Lemma pair_back (x y : N) :
  x < 1024 -> y < 1024 ->
  (x * 1024 + y) / 1024 = x /\ (x * 1024 + y) mod 1024 = y.
Proof. lia. Qed.

Lemma hexval_hexdigit (d : N) : d < 16 -> hexval (hexdigit d) = Some d.
Proof.
  intros H. unfold hexdigit, hexval.
  destruct (d <? 10) eqn:Hd.
  - apply N.ltb_lt in Hd.
    replace ((48 <=? 48 + d) && (48 + d <=? 57)) with true
      by (symmetry; apply andb_true_intro; split; apply N.leb_le; lia).
    f_equal. lia.
  - apply N.ltb_ge in Hd.
    replace ((48 <=? 55 + d) && (55 + d <=? 57)) with false
      by (symmetry; apply andb_false_intro2; apply N.leb_gt; lia).
    replace ((65 <=? 55 + d) && (55 + d <=? 70)) with true
      by (symmetry; apply andb_true_intro; split; apply N.leb_le; lia).
    f_equal. lia.
Qed.

Lemma pct_decode_pct (b : N) (t : jsstring) :
  b < 256 ->
  pct_decode (pct b ++ t)
  = match pct_decode t with Some bs => Some (b :: bs) | None => None end.
Proof.
  intros H. unfold pct. cbn [app pct_decode]. cbn [N.eqb Pos.eqb].
  rewrite !hexval_hexdigit by lia.
  destruct (pct_decode t); [| reflexivity]. do 2 f_equal. lia.
Qed.

Lemma pct_decode_pct_all (bs : list N) (t : jsstring) :
  Forall (fun b => b < 256) bs ->
  pct_decode (pct_all bs ++ t)
  = match pct_decode t with Some cs => Some (bs ++ cs) | None => None end.
Proof.
  induction 1 as [| b bs Hb Hbs IH]; cbn [pct_all flat_map].
  - cbn. now destruct (pct_decode t).
  - rewrite <- app_assoc, pct_decode_pct by exact Hb.
    fold (pct_all bs). rewrite IH. now destruct (pct_decode t).
Qed.

Lemma well_escaped_pct_all (bs : list N) (t : jsstring) :
  Forall (fun b => b < 256) bs ->
  well_escaped (pct_all bs ++ t) = well_escaped t.
Proof.
  induction 1 as [| b bs Hb Hbs IH]; cbn [pct_all flat_map]; [reflexivity |].
  rewrite <- app_assoc. unfold pct at 1. cbn [app well_escaped]. cbn [N.eqb Pos.eqb].
  unfold is_hex. rewrite !hexval_hexdigit by lia. cbn [andb].
  exact IH.
Qed.

Lemma utf8_octets (cp : N) : cp < 1114112 -> Forall (fun b => b < 256) (utf8 cp).
Proof.
  intros H. unfold utf8.
  destruct (N.ltb_spec cp 128); [repeat constructor; lia |].
  destruct (N.ltb_spec cp 2048); [repeat constructor; lia |].
  destruct (N.ltb_spec cp 65536); repeat constructor; lia.
Qed.

Lemma units_of_utf8_unit (c : N) (rest : list N) :
  c < 65536 ->
  units_of_utf8 (utf8 c ++ rest) = c :: units_of_utf8 rest.
Proof.
  intros H. unfold utf8.
  destruct (N.ltb_spec c 128) as [H1 | H1].
  - cbn [app units_of_utf8]. now rewrite (proj2 (N.ltb_lt c 128) H1).
  - destruct (N.ltb_spec c 2048) as [H2 | H2].
    + cbn [app units_of_utf8].
      replace (192 + c / 64 <? 128) with false by (symmetry; apply N.ltb_ge; lia).
      replace (192 + c / 64 <? 224) with true by (symmetry; apply N.ltb_lt; lia).
      f_equal. lia.
    + rewrite (proj2 (N.ltb_lt c 65536) H). cbn [app units_of_utf8].
      replace (224 + c / 4096 <? 128) with false by (symmetry; apply N.ltb_ge; lia).
      replace (224 + c / 4096 <? 224) with false by (symmetry; apply N.ltb_ge; lia).
      replace (224 + c / 4096 <? 240) with true by (symmetry; apply N.ltb_lt; lia).
      f_equal. pose proof (split4096 c). lia.
Qed.

Lemma units_of_utf8_pair (c d : N) (rest : list N) :
  is_high_surrogate c = true -> is_low_surrogate d = true ->
  units_of_utf8 (utf8 ((c - 55296) * 1024 + (d - 56320) + 65536) ++ rest)
  = c :: d :: units_of_utf8 rest.
Proof.
  unfold is_high_surrogate, is_low_surrogate. intros Hc Hd.
  apply andb_prop in Hc as [Hc1 Hc2]. apply andb_prop in Hd as [Hd1 Hd2].
  apply N.leb_le in Hc1, Hc2, Hd1, Hd2.
  remember (c - 55296) as x eqn:Hx. remember (d - 56320) as y eqn:Hy.
  assert (Hxb : x < 1024) by lia. assert (Hyb : y < 1024) by lia.
  remember (x * 1024 + y + 65536) as cp eqn:Hcp.
  assert (Hlo : 65536 <= cp) by lia. assert (Hhi : cp < 1114112) by lia.
  unfold utf8.
  replace (cp <? 128) with false by (symmetry; apply N.ltb_ge; lia).
  replace (cp <? 2048) with false by (symmetry; apply N.ltb_ge; lia).
  replace (cp <? 65536) with false by (symmetry; apply N.ltb_ge; lia).
  cbn [app units_of_utf8].
  replace (240 + cp / 262144 <? 128) with false by (symmetry; apply N.ltb_ge; lia).
  replace (240 + cp / 262144 <? 224) with false by (symmetry; apply N.ltb_ge; lia).
  replace (240 + cp / 262144 <? 240) with false by (symmetry; apply N.ltb_ge; lia).
  cbv zeta.
  replace ((240 + cp / 262144 - 240) * 262144 + (128 + (cp / 4096) mod 64 - 128) * 4096
           + (128 + (cp / 64) mod 64 - 128) * 64 + (128 + cp mod 64 - 128))
    with cp.
  2:{ pose proof (split262144 cp) as Hs.
      replace (240 + cp / 262144 - 240) with (cp / 262144) by lia.
      replace (128 + (cp / 4096) mod 64 - 128) with ((cp / 4096) mod 64) by lia.
      replace (128 + (cp / 64) mod 64 - 128) with ((cp / 64) mod 64) by lia.
      replace (128 + cp mod 64 - 128) with (cp mod 64) by lia.
      now rewrite Hs. }
  replace (cp - 65536) with (x * 1024 + y) by lia.
  destruct (pair_back x y Hxb Hyb) as [-> ->].
  f_equal; [lia |]. f_equal. lia.
Qed.

Lemma unescaped_ascii (c : N) : unescaped c = true -> c < 128 /\ c <> 37.
Proof.
  unfold unescaped. intros H.
  repeat (apply orb_prop in H; destruct H as [H | H]);
    try (apply andb_prop in H as [H1 H2]; apply N.leb_le in H1, H2; lia);
    apply N.eqb_eq in H; lia.
Qed.

(** What [encodeURIComponent] returns is fully escaped, and decoding it
    once gives the string back. *)
Lemma encodeURIComponent_sound (n : nat) :
  forall (s u : jsstring),
    (length s <= n)%nat -> utf16 s -> encodeURIComponent s = Ok u ->
    well_escaped u = true
    /\ exists bs, pct_decode u = Some bs /\ units_of_utf8 bs = s.
Proof.
  induction n as [| n IH]; intros s u Hlen Hs Henc.
  - destruct s; [| cbn in Hlen; lia]. cbn in Henc. injection Henc as <-.
    split; [reflexivity |]. now exists [].
  - destruct s as [| c r]; [cbn in Henc; injection Henc as <-; split;
                            [reflexivity | now exists []] |].
    cbn [encodeURIComponent] in Henc. cbn [length] in Hlen.
    inversion Hs as [| ? ? Hc Hr]; subst.
    destruct (unescaped c) eqn:Hun.
    + destruct (encodeURIComponent r) as [t | e] eqn:Hr'; [| discriminate].
      cbn in Henc. injection Henc as <-.
      destruct (IH r t ltac:(lia) Hr Hr') as (Hw & bs & Hd & Hu).
      destruct (unescaped_ascii c Hun) as [Hlt Hne].
      cbn [well_escaped pct_decode].
      replace (c =? 37) with false by (symmetry; now apply N.eqb_neq).
      rewrite Hun, Hw, Hd. split; [reflexivity |].
      exists (c :: bs). split; [reflexivity |].
      cbn [units_of_utf8]. rewrite (proj2 (N.ltb_lt c 128) Hlt). now rewrite Hu.
    + destruct (is_low_surrogate c) eqn:Hlow; [discriminate |].
      destruct (is_high_surrogate c) eqn:Hhigh.
      * destruct r as [| d r']; [discriminate |].
        destruct (is_low_surrogate d) eqn:Hd; [| discriminate].
        destruct (encodeURIComponent r') as [t | e] eqn:Hr'; [| discriminate].
        cbn in Henc. injection Henc as <-.
        inversion Hr as [| ? ? Hd16 Hr16]; subst.
        cbn [length] in Hlen.
        destruct (IH r' t ltac:(lia) Hr16 Hr') as (Hw & bs & Hdec & Hu).
        assert (Hcp : (c - 55296) * 1024 + (d - 56320) + 65536 < 1114112).
        { unfold is_high_surrogate, is_low_surrogate in Hhigh, Hd.
          apply andb_prop in Hhigh as [H1 H2]. apply andb_prop in Hd as [H3 H4].
          apply N.leb_le in H1, H2, H3, H4. lia. }
        rewrite well_escaped_pct_all, pct_decode_pct_all by now apply utf8_octets.
        rewrite Hdec. split; [exact Hw |].
        eexists. split; [reflexivity |].
        rewrite units_of_utf8_pair by assumption. now rewrite Hu.
      * destruct (encodeURIComponent r) as [t | e] eqn:Hr'; [| discriminate].
        cbn in Henc. injection Henc as <-.
        destruct (IH r t ltac:(lia) Hr Hr') as (Hw & bs & Hdec & Hu).
        rewrite well_escaped_pct_all, pct_decode_pct_all
          by (apply utf8_octets; lia).
        rewrite Hdec. split; [exact Hw |].
        eexists. split; [reflexivity |].
        rewrite units_of_utf8_unit by exact Hc. now rewrite Hu.
Qed.

Lemma unescaped_not_surrogate (c : N) :
  unescaped c = true -> is_low_surrogate c = false /\ is_high_surrogate c = false.
Proof.
  intros H. destruct (unescaped_ascii c H) as [Hlt _].
  unfold is_low_surrogate, is_high_surrogate.
  split; apply andb_false_intro1; apply N.leb_gt; lia.
Qed.

(** [encodeURIComponent] returns exactly on the strings whose surrogates
    are paired. *)
Lemma encodeURIComponent_returns (n : nat) :
  forall (s : jsstring),
    (length s <= n)%nat -> well_paired s = true ->
    exists u, encodeURIComponent s = Ok u.
Proof.
  induction n as [| n IH]; intros s Hlen Hp.
  - destruct s; [now exists [] | cbn in Hlen; lia].
  - destruct s as [| c r]; [now exists [] |].
    cbn [length] in Hlen. cbn [well_paired] in Hp. cbn [encodeURIComponent].
    destruct (unescaped c) eqn:Hun.
    + destruct (unescaped_not_surrogate c Hun) as [Hl Hh]. rewrite Hl, Hh in Hp.
      destruct (IH r ltac:(lia) Hp) as [t ->]. cbn. eauto.
    + destruct (is_low_surrogate c); [discriminate |].
      destruct (is_high_surrogate c).
      * destruct r as [| d r']; [discriminate |].
        apply andb_prop in Hp as [Hd Hp]. rewrite Hd. cbn [length] in Hlen.
        destruct (IH r' ltac:(lia) Hp) as [t ->]. cbn. eauto.
      * destruct (IH r ltac:(lia) Hp) as [t ->]. cbn. eauto.
Qed.

Lemma show_fetched_requests (url : jsstring) (f : exn -> jsstring) (w : World) :
  requests
    (trace (snd (try_catch (drink <- fetchCocktailData url ;; displayCocktail drink)
                   (fun error => displayError (f error)) w)))
  = requests (trace w) ++ [url].
Proof.
  unfold try_catch, bind.
  destruct (fetchCocktailData_trace w url) as (tail & Ht & Htail).
  assert (Hreq : requests (trace (snd (fetchCocktailData url w)))
                 = requests (trace w) ++ [url]).
  { rewrite Ht, requests_app. cbn. now destruct Htail as [-> | [e ->]]. }
  destruct (fetchCocktailData url w) as [[drink | e] w1]; cbn [snd] in *.
  - pose proof (quiet_displayCocktail drink w1) as Hq.
    destruct (displayCocktail drink w1) as [[[] | e] w2]; cbn [snd] in *.
    + now rewrite Hq.
    + now rewrite quiet_displayError, Hq.
  - now rewrite quiet_displayError.
Qed.

Lemma details_flow_requests (drinkId : jsstring) (w : World) :
  requests (trace (snd (fetchAndDisplayCocktailDetails drinkId w)))
  = requests (trace w)
    ++ match encodeURIComponent drinkId with
       | Ok encoded => [cocktailApiBaseUrl ++ lit "lookup.php?i=" ++ encoded]
       | Throw _ => []
       end.
Proof.
  unfold fetchAndDisplayCocktailDetails, bind at 1. rewrite displayLoading_run.
  destruct (encodeURIComponent drinkId) as [encoded | e].
  - rewrite try_catch_bind_lift_ok.
    exact (show_fetched_requests _
             (fun error => lit "Error al cargar detalles del cóctel: " ++ message error) _).
  - rewrite try_catch_bind_lift_throw, quiet_displayError. cbn. now rewrite app_nil_r.
Qed.

Lemma search_flow_requests (s : jsstring) (w : World) :
  searchInput w = Some s ->
  requests (trace (snd (searchAndDisplayCocktail w)))
  = requests (trace w)
    ++ match trim s with
       | [] => []
       | _ :: _ =>
           match encodeURIComponent (trim s) with
           | Ok encoded => [cocktailApiBaseUrl ++ lit "search.php?s=" ++ encoded]
           | Throw _ => []
           end
       end.
Proof.
  intros Hs. unfold searchAndDisplayCocktail, bind at 1, searchInput_value. rewrite Hs.
  destruct (trim s) as [| c r] eqn:Ht.
  - cbn [truthy str_eqb negb]. rewrite quiet_displayError. now rewrite app_nil_r.
  - cbn [truthy str_eqb negb]. unfold bind at 1. rewrite displayLoading_run.
    destruct (encodeURIComponent (c :: r)) as [encoded | e].
    + rewrite try_catch_bind_lift_ok.
      exact (show_fetched_requests _
               (fun error => lit "Error al buscar cóctel: " ++ message error) _).
    + rewrite try_catch_bind_lift_throw, quiet_displayError. cbn. now rewrite app_nil_r.
Qed.

(** C6. A value of the user that goes into a request URL (the trimmed
    search term, the category, the drink identifier) is passed through
    [encodeURIComponent] exactly once: the one URL the flow requests ends
    with the encoded value; in the encoded value nothing is left raw,
    every unit is unescaped or belongs to an escape [%XY]; and one
    percent-decoding gives the value back, so nothing was encoded twice.
    The encoding exists whenever the surrogates of the value are paired;
    otherwise nothing is requested. *)
Theorem user_values_are_encoded_once :
  forall (w : World) (value : jsstring),
    utf16 value ->
    (forall encoded,
        encodeURIComponent value = Ok encoded ->
        well_escaped encoded = true /\ decode_once encoded = Some value)
    /\ (well_paired value = true -> exists encoded, encodeURIComponent value = Ok encoded)
    /\ requests (trace (snd (fetchAndDisplayCocktailsByCategory value w)))
       = requests (trace w)
         ++ match encodeURIComponent value with
            | Ok encoded => [cocktailApiBaseUrl ++ lit "filter.php?c=" ++ encoded]
            | Throw _ => []
            end
    /\ requests (trace (snd (fetchAndDisplayCocktailDetails value w)))
       = requests (trace w)
         ++ match encodeURIComponent value with
            | Ok encoded => [cocktailApiBaseUrl ++ lit "lookup.php?i=" ++ encoded]
            | Throw _ => []
            end
    /\ (forall s,
          searchInput w = Some s -> trim s = value -> value <> [] ->
          requests (trace (snd (searchAndDisplayCocktail w)))
          = requests (trace w)
            ++ match encodeURIComponent value with
               | Ok encoded => [cocktailApiBaseUrl ++ lit "search.php?s=" ++ encoded]
               | Throw _ => []
               end).
Proof.
  intros w value H16. repeat match goal with |- _ /\ _ => split end.
  - intros encoded Henc.
    destruct (encodeURIComponent_sound (length value) value encoded (le_n _) H16 Henc)
      as (Hw & bs & Hd & Hu).
    split; [exact Hw |]. unfold decode_once. now rewrite Hd, Hu.
  - intros Hp. exact (encodeURIComponent_returns (length value) value (le_n _) Hp).
  - rewrite category_flow_trace, requests_app.
    now destruct (encodeURIComponent value).
  - apply details_flow_requests.
  - intros s Hs Ht Hne. rewrite (search_flow_requests s w Hs), Ht.
    destruct value; [congruence | reflexivity].
Qed.

(** The theorem at the category [Coffee / Tea]. *)
Lemma user_values_are_encoded_once_witness :
  requests (trace (snd (fetchAndDisplayCocktailsByCategory (lit "Coffee / Tea")
                          (page_serving (VObj [(lit "drinks", VArr [ordinary_drink])])))))
  = [cocktailApiBaseUrl ++ lit "filter.php?c=Coffee%20%2F%20Tea"]
  /\ decode_once (lit "Coffee%20%2F%20Tea") = Some (lit "Coffee / Tea").
Proof.
  assert (H16 : utf16 (lit "Coffee / Tea")).
  { apply Forall_forall. intros c Hc. apply N.ltb_lt.
    revert c Hc. apply forallb_forall. vm_compute. reflexivity. }
  assert (He : encodeURIComponent (lit "Coffee / Tea") = Ok (lit "Coffee%20%2F%20Tea"))
    by (vm_compute; reflexivity).
  pose proof (user_values_are_encoded_once
                (page_serving (VObj [(lit "drinks", VArr [ordinary_drink])]))
                (lit "Coffee / Tea") H16) as (Henc & _ & Hcat & _).
  split.
  - rewrite He in Hcat. exact Hcat.
  - exact (proj2 (Henc (lit "Coffee%20%2F%20Tea") He)).
Defined.

(** ** The renderers *)

Lemma run_app (a b : jsstring) :
  forall st,
    run st (a ++ b)
    = match run st a with
      | Some st' => run st' b
      | None => None
      end.
Proof.
  induction a as [| c a IH]; intros st; cbn [app run]; [reflexivity |].
  destruct (step st c); [apply IH | reflexivity].
Qed.

Lemma run_text (s : jsstring) (open : list jsstring) :
  no_lt s = true -> run (InText, open) s = Some (InText, open).
Proof.
  induction s as [| c s IH]; cbn [run no_lt forallb]; [reflexivity |].
  intros H. apply andb_prop in H as [Hc Hs]. cbn [step].
  destruct (c =? 60); [discriminate | now apply IH].
Qed.

Lemma run_value (s name : jsstring) (open : list jsstring) :
  no_quote s = true -> run (InValue name, open) s = Some (InValue name, open).
Proof.
  induction s as [| c s IH]; cbn [run no_quote forallb]; [reflexivity |].
  intros H. apply andb_prop in H as [Hc Hs]. cbn [step].
  destruct (c =? 34); [discriminate | now apply IH].
Qed.

Lemma fragment_nil : fragment [].
Proof. intros open. reflexivity. Qed.

Lemma fragment_app (a b : jsstring) : fragment a -> fragment b -> fragment (a ++ b).
Proof. intros Ha Hb open. now rewrite run_app, Ha, Hb. Qed.

Lemma fragment_text (s : jsstring) : no_lt s = true -> fragment s.
Proof. intros H open. now apply run_text. Qed.

Lemma fragment_valid (html : jsstring) : fragment html -> valid_markup html = true.
Proof. intros H. unfold valid_markup. now rewrite H. Qed.

(** Reading a literal: computed. *)
Ltac read_literal :=
  match goal with
  | |- context [run ?st (lit ?l)] =>
      let v := eval vm_compute in (run st (lit l)) in
      replace (run st (lit l)) with v by (vm_compute; reflexivity);
      cbv beta iota
  | |- context [run ?st []] => change (run st []) with (Some st); cbv beta iota
  | |- context [run ?st nl] =>
      let v := eval vm_compute in (run st nl) in
      replace (run st nl) with v by (vm_compute; reflexivity);
      cbv beta iota
  end.

Ltac read_data :=
  match goal with
  | H : fragment ?s |- context [run (InText, ?o) ?s] => rewrite (H o); cbv beta iota
  | |- context [run (InText, ?o) ?s] =>
      rewrite (run_text s o) by assumption; cbv beta iota
  | |- context [run (InValue ?n, ?o) ?s] =>
      rewrite (run_value s n o) by assumption; cbv beta iota
  end.

Ltac read_markup := repeat (first [rewrite run_app | read_literal | read_data]).

Lemma error_state_fragment (msg : jsstring) :
  no_lt msg = true -> fragment (error_state msg).
Proof.
  intros H open. unfold error_state. read_markup. reflexivity.
Qed.

Lemma loading_state_fragment (msg : jsstring) :
  no_lt msg = true -> fragment (loading_state msg).
Proof.
  intros H open. unfold loading_state. read_markup. reflexivity.
Qed.

Lemma no_lt_app (a b : jsstring) : no_lt (a ++ b) = no_lt a && no_lt b.
Proof. apply forallb_app. Qed.

Lemma no_quote_app (a b : jsstring) : no_quote (a ++ b) = no_quote a && no_quote b.
Proof. apply forallb_app. Qed.

(** ** Counting list items *)

Lemma starts_with_app (p s b : jsstring) :
  cut_short p s = false -> starts_with p (s ++ b) = starts_with p s.
Proof.
  revert s. induction p as [| a p IH]; intros s H; [now destruct s |].
  destruct s as [| c s]; [discriminate |].
  cbn [cut_short] in H. cbn [app starts_with].
  destruct (a =? c); [cbn [andb] in *; now apply IH | reflexivity].
Qed.

Lemma sealed_literal (a : jsstring) :
  self_contained a = true -> sealed a (list_items a).
Proof.
  intros H b. induction a as [| c a IH]; [reflexivity |].
  cbn [self_contained] in H. apply andb_prop in H as [Hc Ha].
  apply negb_true_iff in Hc.
  change ((c :: a) ++ b) with (c :: (a ++ b)). cbn [list_items].
  change (c :: a ++ b) with ((c :: a) ++ b).
  rewrite (starts_with_app _ _ b Hc), (IH Ha). lia.
Qed.

Lemma li_units : lit "<li>" = [60; 108; 105; 62].
Proof. vm_compute. reflexivity. Qed.

Lemma sealed_text (a : jsstring) : no_lt a = true -> sealed a 0.
Proof.
  intros H b. induction a as [| c a IH]; [reflexivity |].
  cbn [no_lt forallb] in H. apply andb_prop in H as [Hc Ha].
  apply negb_true_iff in Hc.
  change ((c :: a) ++ b) with (c :: (a ++ b)). cbn [list_items].
  rewrite li_units. cbn [starts_with]. rewrite N.eqb_sym, Hc. cbn [andb Nat.add].
  now apply IH.
Qed.

Lemma sealed_nil : sealed [] 0.
Proof. intros b. reflexivity. Qed.

Lemma sealed_app (a b : jsstring) (n m : nat) :
  sealed a n -> sealed b m -> sealed (a ++ b) (n + m).
Proof. intros Ha Hb c. rewrite <- app_assoc, Ha, Hb. lia. Qed.

Lemma sealed_total (a : jsstring) (n : nat) : sealed a n -> list_items a = n.
Proof.
  intros H. specialize (H []). rewrite app_nil_r in H. cbn [list_items] in H. lia.
Qed.

(** Counting through a literal: computed. *)
Ltac count_literal :=
  match goal with
  | |- context [list_items (lit ?l ++ ?b)] =>
      rewrite (sealed_literal (lit l) ltac:(vm_compute; reflexivity) b);
      let n := eval vm_compute in (list_items (lit l)) in
      replace (list_items (lit l)) with n by (vm_compute; reflexivity)
  | |- context [list_items (nl ++ ?b)] =>
      rewrite (sealed_literal nl ltac:(vm_compute; reflexivity) b);
      replace (list_items nl) with 0%nat by (vm_compute; reflexivity)
  end.

Ltac count_data :=
  match goal with
  | H : sealed ?s _ |- context [list_items (?s ++ ?b)] => rewrite (H b)
  | H : no_lt ?s = true |- context [list_items (?s ++ ?b)] =>
      rewrite (sealed_text s H b)
  end.

Ltac count_items := repeat (first [count_literal | count_data]); cbn [Nat.add].

Lemma toString_array (x : value) (r : list value) :
  toString (VArr (x :: r))
  = (first <-- match x with
               | VUndefined | VNull => Ok []
               | _ => toString x
               end ;;
     rest <-- match r with
              | [] => Ok []
              | _ :: _ => (t <-- toString (VArr r) ;; Ok (lit "," ++ t))
              end ;;
     Ok (first ++ rest)).
Proof. reflexivity. Qed.

(** The string conversion of a value without markup characters has
    none. *)
Lemma toString_markup_free :
  forall v s, toString v = Ok s -> markup_free v = true ->
              no_lt s = true /\ no_quote s = true.
Proof.
  fix IH 1. intros v. destruct v as [| | b | nz t | s0 | l | fs]; intros s Hs H.
  - cbn in Hs. injection Hs as <-. split; vm_compute; reflexivity.
  - cbn in Hs. injection Hs as <-. split; vm_compute; reflexivity.
  - destruct b; cbn in Hs; injection Hs as <-; split; vm_compute; reflexivity.
  - cbn in Hs. injection Hs as <-. cbn in H. apply andb_prop in H. exact H.
  - cbn in Hs. injection Hs as <-. cbn in H. apply andb_prop in H. exact H.
  - revert l s Hs H. fix IHl 1. intros [| x r] s Hs H.
    + cbn in Hs. injection Hs as <-. split; reflexivity.
    + assert (Hx : markup_free x = true /\ markup_free (VArr r) = true).
      { cbn in H. apply andb_prop in H. exact H. }
      destruct Hx as [Hx Hr].
      pose proof (IH x) as IHx. pose proof (IHl r) as IHr.
      rewrite toString_array in Hs.
      destruct (match x with VUndefined | VNull => Ok [] | _ => toString x end)
        as [first | e] eqn:Ef; cbn [rbind] in Hs; [| discriminate].
      destruct (match r with
                | [] => Ok []
                | _ :: _ => (t <-- toString (VArr r) ;; Ok (lit "," ++ t))
                end) as [rest | e] eqn:Er; cbn [rbind] in Hs; [| discriminate].
      injection Hs as <-.
      assert (Hfirst : no_lt first = true /\ no_quote first = true).
      { destruct x; try (injection Ef as <-; split; reflexivity);
          exact (IHx _ Ef Hx). }
      assert (Hrest : no_lt rest = true /\ no_quote rest = true).
      { destruct r as [| y r']; [injection Er as <-; split; reflexivity |].
        destruct (toString (VArr (y :: r'))) as [t | e] eqn:Et;
          cbn [rbind] in Er; [| discriminate].
        injection Er as <-. destruct (IHr t eq_refl Hr) as [H1 H2].
        rewrite no_lt_app, no_quote_app, H1, H2. split; vm_compute; reflexivity. }
      rewrite no_lt_app, no_quote_app.
      destruct Hfirst as [-> ->]. destruct Hrest as [-> ->]. split; reflexivity.
  - cbn in Hs. destruct (has_key (lit "toString") fs); [discriminate |].
    injection Hs as <-. split; vm_compute; reflexivity.
Qed.

Lemma lookup_markup_free (key : jsstring) (fs : list (jsstring * value)) :
  markup_free (VObj fs) = true -> markup_free (lookup key fs) = true.
Proof.
  induction fs as [| [k v] fs IH]; intros H; [reflexivity |].
  assert (Hv : markup_free v = true /\ markup_free (VObj fs) = true).
  { cbn in H. apply andb_prop in H. exact H. }
  cbn [lookup]. destruct (str_eqb k key); [apply Hv | apply IH, Hv].
Qed.

Lemma get_markup_free (v got : value) (key : jsstring) :
  markup_free v = true -> get v key = Ok got -> markup_free got = true.
Proof.
  intros H Hg. destruct v; cbn in Hg; try discriminate;
    injection Hg as <-; try reflexivity.
  now apply lookup_markup_free.
Qed.

Lemma trimStart_keeps (P : N -> bool) (s : jsstring) :
  forallb P s = true -> forallb P (trimStart s) = true.
Proof.
  induction s as [| c s IH]; cbn [trimStart]; [reflexivity |].
  intros H. destruct (is_white c); [| exact H].
  cbn in H. apply andb_prop in H as [_ H]. now apply IH.
Qed.

Lemma forallb_rev (P : N -> bool) (s : jsstring) :
  forallb P (rev s) = forallb P s.
Proof.
  induction s as [| c s IH]; cbn; [reflexivity |].
  rewrite forallb_app, IH. cbn. rewrite andb_true_r. apply andb_comm.
Qed.

Lemma trim_keeps (P : N -> bool) (s : jsstring) :
  forallb P s = true -> forallb P (trim s) = true.
Proof.
  intros H. unfold trim, trimEnd. rewrite forallb_rev.
  apply trimStart_keeps. rewrite forallb_rev. now apply trimStart_keeps.
Qed.

Lemma readable_get (v : value) (key : jsstring) :
  readable v = true -> get v key = Ok (match v with VObj fs => lookup key fs | _ => VUndefined end).
Proof. destruct v; cbn; intros H; try discriminate; reflexivity. Qed.

Lemma truthy_readable (v : value) : truthy v = true -> readable v = true.
Proof. destruct v; cbn; intros H; try discriminate; reflexivity. Qed.

(** On a record of the shape, the loop returns, and what it appends is a
    sequence of complete [li] elements when the record has no markup
    characters. *)
Lemma ingredients_from_fragment (drink : value) :
  readable drink = true ->
  forall (n : nat) (i : N) (html : jsstring),
    forallb (fun j => text_or_missing (strIngredient drink j)
                      && text_or_missing (strMeasure drink j)) (positions i n) = true ->
    exists body,
      ingredients_from drink i n html = Ok (html ++ body)
      /\ (markup_free drink = true -> fragment body).
Proof.
  intros Hr. induction n as [| n IH]; intros i html Hshape.
  - exists []. split; [cbn; now rewrite app_nil_r | intros _; apply fragment_nil].
  - cbn [positions forallb] in Hshape. apply andb_prop in Hshape as [Hi Hrest].
    apply andb_prop in Hi as [Hg Hm].
    unfold strIngredient, strMeasure in Hg, Hm.
    cbn [ingredients_from].
    pose proof (get_markup_free drink) as Hfree.
    destruct (get drink (lit "strIngredient" ++ dec i)) as [g | e] eqn:Eg.
    2:{ rewrite readable_get in Eg by exact Hr. discriminate. }
    destruct (get drink (lit "strMeasure" ++ dec i)) as [m | e] eqn:Em.
    2:{ rewrite readable_get in Em by exact Hr. discriminate. }
    cbn [rbind].
    destruct (truthy g) eqn:Tg; cbn [negb].
    2:{ exists []. split; [now rewrite app_nil_r | intros _; apply fragment_nil]. }
    destruct g as [| | | | s | |]; try discriminate. cbn [trim_of rbind].
    assert (Hmp : exists mp,
               (if truthy m
                then (t <-- trim_of "measure" m ;; Ok (t ++ lit " "))
                else Ok []) = Ok mp
               /\ (markup_free drink = true -> no_lt mp = true)).
    { destruct m as [| | | | s0 | |]; try discriminate; cbn [truthy trim_of rbind].
      - exists []. split; [reflexivity | reflexivity].
      - exists []. split; [reflexivity | reflexivity].
      - destruct (negb (str_eqb s0 [])); cbn [rbind].
        + eexists. split; [reflexivity |]. intros Hd.
          rewrite no_lt_app. apply andb_true_intro. split; [| vm_compute; reflexivity].
          apply trim_keeps. specialize (Hfree _ _ Hd Em). cbn in Hfree.
          now apply andb_prop in Hfree.
        + exists []. split; [reflexivity | reflexivity]. }
    destruct Hmp as (mp & -> & Hmp). cbn [rbind].
    destruct (IH (i + 1) (html ++ lit "<li>" ++ mp ++ trim s ++ lit "</li>") Hrest)
      as (body & -> & Hbody).
    exists (lit "<li>" ++ mp ++ trim s ++ lit "</li>" ++ body).
    split; [now rewrite <- !app_assoc |].
    intros Hd. specialize (Hmp Hd). specialize (Hbody Hd).
    assert (Hs : no_lt (trim s) = true).
    { apply trim_keeps. specialize (Hfree _ _ Hd Eg). cbn in Hfree.
      now apply andb_prop in Hfree. }
    intros open. read_markup. reflexivity.
Qed.

Lemma ingredientsHtml_fragment (drink : value) :
  readable drink = true ->
  forallb (fun j => text_or_missing (strIngredient drink j)
                    && text_or_missing (strMeasure drink j)) (positions 1 15) = true ->
  exists list,
    ingredientsHtml drink = Ok list
    /\ (markup_free drink = true -> fragment list).
Proof.
  intros Hr Hshape. unfold ingredientsHtml.
  destruct (ingredients_from_fragment drink Hr 15 1 (lit "<ul>") Hshape)
    as (body & -> & Hbody).
  cbn [rbind]. eexists. split; [reflexivity |].
  intros Hd. specialize (Hbody Hd). intros open. rewrite <- app_assoc.
  read_markup. reflexivity.
Qed.

Lemma interpolate_markup_free (record : value) (key s : jsstring) :
  interpolate record key = Ok s -> markup_free record = true ->
  no_lt s = true /\ no_quote s = true.
Proof.
  unfold interpolate. intros Hs Hd.
  destruct (get record key) as [v | e] eqn:Hg; cbn [rbind] in Hs; [| discriminate].
  apply (toString_markup_free v s Hs). now apply (get_markup_free record v key).
Qed.

Lemma printable_toString (v : value) :
  printable v = true -> exists s, toString v = Ok s.
Proof.
  unfold printable. destruct (toString v) as [s | e]; [eauto | discriminate].
Qed.

Lemma interpolate_prints (record : value) (key : jsstring) :
  readable record = true -> printable (field record key) = true ->
  exists s, interpolate record key = Ok s.
Proof.
  intros Hr Hp. unfold interpolate, field in *.
  rewrite readable_get in * by exact Hr. cbn [rbind].
  now apply printable_toString.
Qed.

Lemma prints_field (keys : list jsstring) (record : value) (key : jsstring) :
  prints keys record = true -> In key keys -> printable (field record key) = true.
Proof.
  unfold prints. intros H Hin. rewrite forallb_forall in H. now apply H.
Qed.

(** An optional line of the detail view, present when the field is, has
    what the empty line and every line of a text without [<] have. *)
Lemma optional_line_has (P : jsstring -> Prop) (drink : value)
  (key before line : jsstring) :
  (if truthy (field drink key)
   then (c <-- interpolate drink key ;; Ok (before ++ c ++ lit "</p>"))
   else Ok []) = Ok line ->
  markup_free drink = true ->
  P [] ->
  (forall c, no_lt c = true -> P (before ++ c ++ lit "</p>")) ->
  P line.
Proof.
  intros Hline Hd Hnil Hbefore. destruct (truthy (field drink key)).
  - destruct (interpolate drink key) as [c | e] eqn:Hc; cbn [rbind] in Hline;
      [| discriminate].
    injection Hline as <-. apply Hbefore.
    now apply (interpolate_markup_free drink key c Hc Hd).
  - injection Hline as <-. exact Hnil.
Qed.

Lemma optional_line_returns (drink : value) (key before : jsstring) :
  readable drink = true -> printable (field drink key) = true ->
  exists line,
    (if truthy (field drink key)
     then (c <-- interpolate drink key ;; Ok (before ++ c ++ lit "</p>"))
     else Ok []) = Ok line.
Proof.
  intros Hr Hp. destruct (truthy (field drink key)); [| eauto].
  destruct (interpolate_prints drink key Hr Hp) as [c ->]. cbn [rbind]. eauto.
Qed.

(** The template of the detail view returns on every readable record
    whose fields can be converted, with the list of ingredients between
    the two headings.  When the record has no markup characters, what
    stands before and after is a fragment each and holds no list item. *)
Lemma detailHtml_parts (drink : value) :
  readable drink = true ->
  prints detail_keys drink = true ->
  exists before after,
    (forall list, detailHtml drink list = Ok (detail_with_list before list after))
    /\ (markup_free drink = true ->
        (fragment before /\ fragment after) /\ (sealed before 0 /\ sealed after 0)).
Proof.
  intros Hr Hp.
  assert (Hkey : forall key, In key detail_keys -> printable (field drink key) = true)
    by (intros key; now apply prints_field).
  unfold detail_keys in Hkey. cbn [In] in Hkey.
  destruct (interpolate_prints drink (lit "strDrink") Hr) as [name Hname]; [auto 10 |].
  destruct (interpolate_prints drink (lit "strDrinkThumb") Hr) as [thumb Hthumb];
    [auto 10 |].
  assert (Hfield : forall key,
            match drink with VObj fs => lookup key fs | _ => VUndefined end
            = field drink key).
  { intros key. unfold field. now rewrite readable_get by exact Hr. }
  destruct (optional_line_returns drink (lit "strCategory")
              (lit "<p><strong>Categoría:</strong> ") Hr) as [category Hcategory];
    [auto 10 |].
  destruct (optional_line_returns drink (lit "strAlcoholic")
              (lit "<p><strong>Tipo:</strong> ") Hr) as [alcoholic Halcoholic];
    [auto 10 |].
  destruct (optional_line_returns drink (lit "strGlass")
              (lit "<p><strong>Vaso recomendado:</strong> ") Hr) as [glass Hglass];
    [auto 10 |].
  assert (Hinstr : exists instructions,
             toString (if truthy (field drink (lit "strInstructions"))
                       then field drink (lit "strInstructions")
                       else VStr (lit "Instrucciones no disponibles."))
             = Ok instructions
             /\ (markup_free drink = true -> no_lt instructions = true)).
  { destruct (truthy (field drink (lit "strInstructions"))).
    - destruct (printable_toString (field drink (lit "strInstructions")))
        as [instructions Hi]; [auto 10 |].
      exists instructions. split; [exact Hi |]. intros Hd.
      apply (toString_markup_free _ _ Hi). unfold field.
      rewrite readable_get by exact Hr.
      destruct drink; try reflexivity. now apply lookup_markup_free.
    - eexists. split; [reflexivity |]. intros _. vm_compute. reflexivity. }
  destruct Hinstr as (instructions & Hi & Hiclean).
  exists (nl
          ++ lit "            <h3>" ++ name ++ lit "</h3>" ++ nl
          ++ lit "            <img src=`" ++ thumb
          ++ lit "` alt=`[Imagen de " ++ name
          ++ lit "]` onerror=`this.style.display='none'`>" ++ nl
          ++ lit "            " ++ category ++ nl
          ++ lit "            " ++ alcoholic ++ nl
          ++ lit "            " ++ glass ++ nl
          ++ nl),
         (nl
          ++ lit "            <p>" ++ instructions ++ lit "</p>" ++ nl
          ++ lit "        ").
  split.
  - intros list. unfold detailHtml. rewrite Hname, Hthumb. cbn [rbind].
    rewrite !readable_get by exact Hr. cbn [rbind]. rewrite !Hfield.
    rewrite Hcategory, Halcoholic, Hglass. cbn [rbind]. rewrite Hi. cbn [rbind].
    unfold detail_with_list. rewrite <- !app_assoc. reflexivity.
  - intros Hd.
    destruct (interpolate_markup_free drink _ name Hname Hd) as [Hn1 Hn2].
    destruct (interpolate_markup_free drink _ thumb Hthumb Hd) as [Ht1 Ht2].
    specialize (Hiclean Hd).
    assert (Hc : fragment category).
    { apply (optional_line_has fragment drink _ _ category Hcategory Hd fragment_nil).
      intros c Hcl open. read_markup. reflexivity. }
    assert (Ha : fragment alcoholic).
    { apply (optional_line_has fragment drink _ _ alcoholic Halcoholic Hd fragment_nil).
      intros c Hcl open. read_markup. reflexivity. }
    assert (Hg : fragment glass).
    { apply (optional_line_has fragment drink _ _ glass Hglass Hd fragment_nil).
      intros c Hcl open. read_markup. reflexivity. }
    assert (Hcs : sealed category 0).
    { apply (optional_line_has (fun s => sealed s 0) drink _ _ category Hcategory Hd
               sealed_nil).
      intros c Hcl b. rewrite <- !app_assoc. count_items. reflexivity. }
    assert (Has : sealed alcoholic 0).
    { apply (optional_line_has (fun s => sealed s 0) drink _ _ alcoholic Halcoholic Hd
               sealed_nil).
      intros c Hcl b. rewrite <- !app_assoc. count_items. reflexivity. }
    assert (Hgs : sealed glass 0).
    { apply (optional_line_has (fun s => sealed s 0) drink _ _ glass Hglass Hd
               sealed_nil).
      intros c Hcl b. rewrite <- !app_assoc. count_items. reflexivity. }
    split; split.
    + intros open. read_markup. reflexivity.
    + intros open. read_markup. reflexivity.
    + intros b. rewrite <- !app_assoc. count_items. reflexivity.
    + intros b. rewrite <- !app_assoc. count_items. reflexivity.
Qed.

(** The template is a fragment when the record has no markup characters
    and the list of ingredients is a fragment. *)
Lemma detailHtml_fragment (drink : value) (ingredients : jsstring) :
  readable drink = true ->
  prints detail_keys drink = true ->
  exists html,
    detailHtml drink ingredients = Ok html
    /\ (markup_free drink = true -> fragment ingredients -> fragment html).
Proof.
  intros Hr Hp.
  destruct (detailHtml_parts drink Hr Hp) as (before & after & Hrun & Hparts).
  exists (detail_with_list before ingredients after). split; [apply Hrun |].
  intros Hd Hing. destruct (Hparts Hd) as [[Hb Ha] _].
  intros open. unfold detail_with_list. read_markup. reflexivity.
Qed.

Lemma paint_cocktail_absent (html : jsstring) (w : World) :
  cocktailDisplay w = None -> paint_cocktail html w = w.
Proof. destruct w as [n t si cd cg]. cbn. now intros ->. Qed.

Lemma set_cocktailDisplay_run (html : jsstring) (w : World) :
  cocktailDisplay w <> None ->
  set_cocktailDisplay html w = (Ok tt, paint_cocktail html w).
Proof.
  destruct w as [n t si cd cg]. cbn. intros H. destruct cd; [reflexivity | congruence].
Qed.

(** On a record of the shape whose fields can be converted
    [displayCocktail] returns, with one markup in the cocktail display
    whatever the world; the markup is valid when the record has no markup
    characters. *)
Lemma displayCocktail_paints (drink : value) :
  record_shape drink = true ->
  prints detail_keys drink = true ->
  exists html,
    (forall w, displayCocktail drink w = (Ok tt, paint_cocktail html w))
    /\ (markup_free drink = true -> valid_markup html = true).
Proof.
  intros Hshape Hprints. unfold record_shape in Hshape.
  destruct (truthy drink) eqn:Ht; cbn [negb orb] in Hshape.
  - pose proof (truthy_readable drink Ht) as Hr.
    destruct (ingredientsHtml_fragment drink Hr Hshape) as (list & Hlist & Hlf).
    destruct (detailHtml_fragment drink list Hr Hprints) as (html & Hhtml & Hhf).
    exists html. split.
    + intros [n t si cd cg]. unfold displayCocktail, bind, cocktailDisplayDiv, lift.
      cbn [cocktailDisplay]. destruct cd; [| reflexivity].
      cbn [negb]. rewrite Ht. cbn [negb]. rewrite Hlist, Hhtml. reflexivity.
    + intros Hd. apply fragment_valid. auto.
  - exists not_found_state. split.
    + intros w. now apply displayCocktail_falsy.
    + intros _. vm_compute. reflexivity.
Qed.

Lemma text_of_clean (v : value) :
  markup_free v = true -> no_lt (trim (text_of v)) = true.
Proof.
  intros H. apply trim_keeps. destruct v; try reflexivity.
  cbn [markup_free] in H. apply andb_prop in H. apply H.
Qed.

Lemma field_clean (drink : value) (key : jsstring) :
  markup_free drink = true ->
  markup_free (match get drink key with Ok v => v | Throw _ => VUndefined end) = true.
Proof.
  intros H. destruct (get drink key) as [v | e] eqn:Hg; [| reflexivity].
  now apply (get_markup_free drink v key).
Qed.

(** An entry of a record without markup characters is one list item. *)
Lemma ingredient_entry_sealed (drink : value) (i : N) :
  markup_free drink = true -> sealed (ingredient_entry drink i) 1.
Proof.
  intros Hd b. unfold ingredient_entry.
  pose proof (text_of_clean (strMeasure drink i) (field_clean drink _ Hd)) as Hm.
  pose proof (text_of_clean (strIngredient drink i) (field_clean drink _ Hd)) as Hi.
  destruct (truthy (strMeasure drink i)); rewrite <- !app_assoc.
  - count_items. reflexivity.
  - cbn [app]. count_items. reflexivity.
Qed.

Lemma ingredient_entries_sealed (drink : value) (ps : list N) :
  markup_free drink = true ->
  sealed (concat (map (ingredient_entry drink) ps)) (length ps).
Proof.
  intros Hd. induction ps as [| i ps IH]; [apply sealed_nil |].
  cbn [map concat length].
  apply (sealed_app _ _ 1 (length ps)); [now apply ingredient_entry_sealed | exact IH].
Qed.

(** [displayCocktail] on a record that is present, whose fields can be
    converted and whose list of ingredients is [list]: the cocktail
    display gets the detail view with [list] between the two headings. *)
Lemma displayCocktail_with_list (drink : value) (list : jsstring) :
  truthy drink = true ->
  prints detail_keys drink = true ->
  ingredientsHtml drink = Ok list ->
  exists before after,
    (forall w, displayCocktail drink w
               = (Ok tt, paint_cocktail (detail_with_list before list after) w))
    /\ (markup_free drink = true -> sealed before 0 /\ sealed after 0).
Proof.
  intros Ht Hp Hlist.
  destruct (detailHtml_parts drink (truthy_readable drink Ht) Hp)
    as (before & after & Hrun & Hparts).
  exists before, after. split.
  - intros [n t si cd cg]. unfold displayCocktail, bind, cocktailDisplayDiv, lift.
    cbn [cocktailDisplay]. destruct cd; [| reflexivity].
    cbn [negb]. rewrite Ht. cbn [negb]. rewrite Hlist, Hrun. reflexivity.
  - intros Hd. apply (Hparts Hd).
Qed.

(** C3. The ingredient list walks the positions 1 to 15 and stops at the
    first position without an ingredient: when the first [k] positions
    hold an ingredient (a non-empty text, its measure a text or missing)
    and position [k+1], if there is one, holds none, the list has exactly
    the [k] entries of these positions, whatever the later positions
    hold.  An entry is the trimmed measure and a space, when the measure
    is present, followed by the trimmed ingredient.  This list is what
    [displayCocktail] renders: for a record that is present and whose
    other fields can be converted, the cocktail display gets the detail
    view with this list between the heading of the ingredients and the
    heading of the instructions; and when the record has no markup
    characters, the markup in the display has exactly [k] list items. *)
Theorem ingredient_list_stops_at_first_gap :
  forall (drink : value) (k : nat),
    drink <> VNull -> drink <> VUndefined ->
    (k <= 15)%nat ->
    (forall j, In j (positions 1 k) ->
               (exists s, strIngredient drink j = VStr s /\ s <> [])
               /\ text_or_missing (strMeasure drink j) = true) ->
    ((k < 15)%nat -> truthy (strIngredient drink (1 + N.of_nat k)) = false) ->
    ingredientsHtml drink
    = Ok (lit "<ul>" ++ concat (map (ingredient_entry drink) (positions 1 k))
          ++ lit "</ul>")
    /\ length (map (ingredient_entry drink) (positions 1 k)) = k
    /\ (truthy drink = true ->
        prints detail_keys drink = true ->
        exists before after,
          (forall w,
              displayCocktail drink w
              = (Ok tt,
                 paint_cocktail
                   (detail_with_list before
                      (lit "<ul>"
                       ++ concat (map (ingredient_entry drink) (positions 1 k))
                       ++ lit "</ul>")
                      after) w))
          /\ (markup_free drink = true ->
              list_items
                (detail_with_list before
                   (lit "<ul>"
                    ++ concat (map (ingredient_entry drink) (positions 1 k))
                    ++ lit "</ul>")
                   after) = k)).
Proof.
  intros drink k Hn Hu Hle Hpresent Hstop.
  assert (Hlist : ingredientsHtml drink
                  = Ok (lit "<ul>" ++ concat (map (ingredient_entry drink) (positions 1 k))
                        ++ lit "</ul>")).
  { unfold ingredientsHtml.
    rewrite (ingredients_from_run drink k Hn Hu 1 15 (lit "<ul>") Hle Hpresent Hstop).
    cbn [rbind]. now rewrite <- app_assoc. }
  split; [exact Hlist |]. split; [now rewrite length_map, positions_length |].
  intros Ht Hp.
  destruct (displayCocktail_with_list drink _ Ht Hp Hlist)
    as (before & after & Hrun & Hparts).
  exists before, after. split; [exact Hrun |].
  intros Hd. destruct (Hparts Hd) as [Hb Ha].
  pose proof (ingredient_entries_sealed drink (positions 1 k) Hd) as Hentries.
  rewrite positions_length in Hentries.
  apply sealed_total. intros b. unfold detail_with_list. rewrite <- !app_assoc.
  count_items. lia.
Qed.

(** The theorem at a record with ingredients at positions 1, 2 and 4:
    the display shows two entries, the fourth ingredient is not among
    them. *)
Lemma ingredient_list_stops_at_first_gap_witness :
  ingredientsHtml gapped_drink
  = Ok (lit "<ul><li>2 oz Gin</li><li>Lime</li></ul>")
  /\ exists before after,
       (forall w,
           displayCocktail gapped_drink w
           = (Ok tt,
              paint_cocktail
                (detail_with_list before
                   (lit "<ul><li>2 oz Gin</li><li>Lime</li></ul>") after) w))
       /\ list_items
            (detail_with_list before
               (lit "<ul><li>2 oz Gin</li><li>Lime</li></ul>") after) = 2%nat.
Proof.
  assert (Hlist : lit "<ul>" ++ concat (map (ingredient_entry gapped_drink) (positions 1 2))
                  ++ lit "</ul>"
                  = lit "<ul><li>2 oz Gin</li><li>Lime</li></ul>")
    by (vm_compute; reflexivity).
  assert (Hpresent : forall j, In j (positions 1 2) ->
            (exists s, strIngredient gapped_drink j = VStr s /\ s <> [])
            /\ text_or_missing (strMeasure gapped_drink j) = true).
  { intros j [<- | [<- | []]];
      (split; [eexists; split; [vm_compute; reflexivity | discriminate]
              | vm_compute; reflexivity]). }
  destruct (ingredient_list_stops_at_first_gap gapped_drink 2
              ltac:(discriminate) ltac:(discriminate) ltac:(repeat constructor)
              Hpresent ltac:(intros _; vm_compute; reflexivity))
    as (Hrun & _ & Hshown).
  rewrite Hlist in Hrun. split; [exact Hrun |].
  destruct Hshown as (before & after & Hpaint & Hcount);
    [vm_compute; reflexivity | vm_compute; reflexivity |].
  rewrite Hlist in Hpaint, Hcount.
  exists before, after. split; [exact Hpaint |].
  apply Hcount. vm_compute. reflexivity.
Defined.

Lemma categoryCard_fragment (category : value) :
  readable category && prints card_keys category = true ->
  exists card,
    categoryCard category = Ok card
    /\ (markup_free category = true -> fragment card).
Proof.
  intros H. apply andb_prop in H as [Hr Hp].
  pose proof (prints_field card_keys category (lit "strCategory") Hp (or_introl eq_refl))
    as Hprint.
  unfold field in Hprint. rewrite readable_get in Hprint by exact Hr.
  destruct (printable_toString _ Hprint) as [name Hname].
  unfold categoryCard. rewrite readable_get by exact Hr. cbn [rbind].
  rewrite Hname. cbn [rbind].
  eexists. split; [reflexivity |]. intros Hd.
  assert (Hclean : no_lt name = true /\ no_quote name = true).
  { apply (toString_markup_free _ _ Hname).
    destruct category; try reflexivity. now apply lookup_markup_free. }
  destruct Hclean as [H1 H2].
  intros open. read_markup. reflexivity.
Qed.

Lemma cocktailItem_fragment (drink : value) :
  readable drink && prints item_keys drink = true ->
  exists item,
    cocktailItem drink = Ok item
    /\ (markup_free drink = true -> fragment item).
Proof.
  intros H. apply andb_prop in H as [Hr Hp].
  assert (Hkey : forall key, In key item_keys -> printable (field drink key) = true)
    by (intros key; now apply prints_field).
  unfold item_keys in Hkey. cbn [In] in Hkey.
  destruct (interpolate_prints drink (lit "idDrink") Hr) as [id Hid]; [auto |].
  destruct (interpolate_prints drink (lit "strDrinkThumb") Hr) as [thumb Hthumb]; [auto |].
  destruct (interpolate_prints drink (lit "strDrink") Hr) as [name Hname]; [auto |].
  unfold cocktailItem. rewrite Hid, Hthumb, Hname. cbn [rbind].
  eexists. split; [reflexivity |]. intros Hd.
  destruct (interpolate_markup_free drink _ id Hid Hd) as [_ Hi].
  destruct (interpolate_markup_free drink _ thumb Hthumb Hd) as [_ Ht].
  destruct (interpolate_markup_free drink _ name Hname Hd) as [Hn1 Hn2].
  intros open. read_markup. reflexivity.
Qed.

(** A loop that appends one fragment for each item of a kind appends a
    fragment. *)
Lemma forEach_append_fragments (f : value -> result jsstring) (good : value -> bool) :
  (forall x, good x = true ->
             exists piece, f x = Ok piece /\ (markup_free x = true -> fragment piece)) ->
  forall (l : list value) (html : jsstring),
    forallb good l = true ->
    exists body,
      forEach_append f l html = Ok (html ++ body)
      /\ (markup_free (VArr l) = true -> fragment body).
Proof.
  intros Hf. induction l as [| x l IH]; intros html Hl.
  - exists []. split; [cbn; now rewrite app_nil_r | intros _; apply fragment_nil].
  - cbn [forallb] in Hl. apply andb_prop in Hl as [Hx Hl].
    destruct (Hf x Hx) as (piece & Hpiece & Hpf).
    destruct (IH (html ++ piece) Hl) as (body & Hbody & Hbf).
    exists (piece ++ body). cbn [forEach_append]. rewrite Hpiece. cbn [rbind].
    rewrite Hbody. split; [now rewrite app_assoc |].
    intros Hd.
    assert (Hxl : markup_free x = true /\ markup_free (VArr l) = true).
    { cbn in Hd. apply andb_prop in Hd. exact Hd. }
    apply fragment_app; [apply Hpf | apply Hbf]; apply Hxl.
Qed.

Lemma paint_categories_absent (html : jsstring) (w : World) :
  categoriesDisplay w = None -> paint_categories html w = w.
Proof. destruct w as [n t si cd cg]. cbn. now intros ->. Qed.

Lemma forallb_both (p q : value -> bool) (l : list value) :
  forallb p l = true -> forallb q l = true ->
  forallb (fun x => p x && q x) l = true.
Proof.
  induction l as [| x l IH]; cbn; [reflexivity |].
  intros Hp Hq. apply andb_prop in Hp as [-> Hp]. apply andb_prop in Hq as [-> Hq].
  now apply IH.
Qed.

(** On a list of readable records whose category can be converted, or
    none, [displayCategories] returns, with one markup in the categories
    display; the markup is valid when the records have no markup
    characters. *)
Lemma displayCategories_paints (categories : value) :
  list_shape categories = true ->
  forallb (prints card_keys) (items_of categories) = true ->
  exists html,
    (forall w, displayCategories categories w = (Ok tt, paint_categories html w))
    /\ (markup_free categories = true -> valid_markup html = true).
Proof.
  intros Hshape Hprints.
  assert (Hempty : negb (truthy categories) || length_is_zero categories = true ->
            exists html,
              (forall w, displayCategories categories w = (Ok tt, paint_categories html w))
              /\ (markup_free categories = true -> valid_markup html = true)).
  { intros He. exists no_categories_state. split.
    - intros [n t si cd cg]. unfold displayCategories, bind, categoriesDisplayDiv.
      cbn [categoriesDisplay]. destruct cg; [| reflexivity].
      cbn [negb]. rewrite He. reflexivity.
    - intros _. vm_compute. reflexivity. }
  destruct categories as [| | b | nz t | s | l | fs]; cbn in Hshape;
    try (apply Hempty; cbn; now rewrite ?Hshape).
  destruct l as [| x l]; [now apply Hempty |].
  cbn [items_of] in Hprints.
  destruct (forEach_append_fragments categoryCard
              (fun c => readable c && prints card_keys c) categoryCard_fragment
              (x :: l) [] (forallb_both _ _ _ Hshape Hprints))
    as (body & Hbody & Hbf).
  exists body. split.
  - intros [n t si cd cg]. unfold displayCategories, bind, categoriesDisplayDiv, lift.
    cbn [categoriesDisplay]. destruct cg; [| reflexivity].
    cbn [negb truthy length_is_zero orb forEach]. rewrite Hbody. reflexivity.
  - intros Hd. apply fragment_valid. auto.
Qed.

(** On a list of readable records whose identifier, thumbnail and name
    can be converted the grid is written, given the page has the
    cocktail display; the markup is valid when the records have no
    markup characters. *)
Lemma displayCocktailGrid_paints (l : list value) :
  forallb readable l = true ->
  forallb (prints item_keys) l = true ->
  exists html,
    (forall w, cocktailDisplay w <> None ->
               displayCocktailGrid (VArr l) w = (Ok tt, paint_cocktail html w))
    /\ (markup_free (VArr l) = true -> valid_markup html = true).
Proof.
  intros Hl Hp.
  destruct (forEach_append_fragments cocktailItem
              (fun d => readable d && prints item_keys d) cocktailItem_fragment l
              (lit "<div class=`grid grid-cols-2 md:grid-cols-3 lg:grid-cols-4 gap-4`>")
              (forallb_both _ _ _ Hl Hp))
    as (body & Hbody & Hbf).
  eexists. split.
  - intros w Hw. unfold displayCocktailGrid, bind, lift, forEach. rewrite Hbody.
    now apply set_cocktailDisplay_run.
  - intros Hd. specialize (Hbf Hd). apply fragment_valid. intros open.
    rewrite <- app_assoc. read_markup. reflexivity.
Qed.

(** C4, as the script has it.  Every renderer is total and idempotent on
    the shapes it is given, missing optional fields included: the error
    and the loading state for every message; the detail view for every
    record whose ingredients and measures are texts or missing and whose
    name, thumbnail, category, type, glass and instructions can be
    converted to a string, and for the absence of a record; the category
    cards for every list of readable records whose category can be
    converted, and for the absence of one; the grid for every list of
    readable records whose identifier, thumbnail and name can be
    converted, given that the page has the cocktail display.  A field
    can be converted unless it is, or an array of it holds, an object
    with a key [toString]: for that one the conversion raises.  Each
    renderer assigns one markup to its region and returns, and rendering
    again changes nothing.  The texts go into the markup as they are, so
    the markup is valid when they hold no markup characters: no [<] in a
    message, neither [<] nor a double quote in the texts of a record. *)
Theorem renderers_total_idempotent :
  (forall msg,
      (forall w, displayError msg w = (Ok tt, paint_cocktail (error_state msg) w))
      /\ (forall w, displayError msg (snd (displayError msg w)) = displayError msg w)
      /\ (no_lt msg = true -> valid_markup (error_state msg) = true))
  /\ (forall msg,
        (forall w, displayLoading (Some msg) w
                   = (Ok tt, paint_cocktail (loading_state msg) w))
        /\ (forall w, displayLoading (Some msg) (snd (displayLoading (Some msg) w))
                      = displayLoading (Some msg) w)
        /\ (no_lt msg = true -> valid_markup (loading_state msg) = true))
  /\ (forall drink,
        record_shape drink = true ->
        prints detail_keys drink = true ->
        exists html,
          (forall w, displayCocktail drink w = (Ok tt, paint_cocktail html w))
          /\ (forall w, displayCocktail drink (snd (displayCocktail drink w))
                        = displayCocktail drink w)
          /\ (markup_free drink = true -> valid_markup html = true))
  /\ (forall categories,
        list_shape categories = true ->
        forallb (prints card_keys) (items_of categories) = true ->
        exists html,
          (forall w, displayCategories categories w
                     = (Ok tt, paint_categories html w))
          /\ (forall w, displayCategories categories (snd (displayCategories categories w))
                        = displayCategories categories w)
          /\ (markup_free categories = true -> valid_markup html = true))
  /\ (forall drinks,
        forallb readable drinks = true ->
        forallb (prints item_keys) drinks = true ->
        exists html,
          (forall w, cocktailDisplay w <> None ->
                     displayCocktailGrid (VArr drinks) w
                     = (Ok tt, paint_cocktail html w))
          /\ (forall w, cocktailDisplay w <> None ->
                        displayCocktailGrid (VArr drinks)
                          (snd (displayCocktailGrid (VArr drinks) w))
                        = displayCocktailGrid (VArr drinks) w)
          /\ (markup_free (VArr drinks) = true -> valid_markup html = true)).
Proof.
  repeat match goal with |- _ /\ _ => split end.
  - intros msg. repeat split.
    + apply displayError_run.
    + intros w. rewrite !displayError_run. cbn [snd]. now rewrite paint_cocktail_twice.
    + intros H. now apply fragment_valid, error_state_fragment.
  - intros msg. repeat split.
    + apply displayLoading_run.
    + intros w. rewrite !displayLoading_run. cbn [snd]. now rewrite paint_cocktail_twice.
    + intros H. now apply fragment_valid, loading_state_fragment.
  - intros drink Hshape Hprints.
    destruct (displayCocktail_paints drink Hshape Hprints) as (html & Hrun & Hvalid).
    exists html. repeat split; [exact Hrun | | exact Hvalid].
    intros w. rewrite !Hrun. cbn [snd]. now rewrite paint_cocktail_twice.
  - intros categories Hshape Hprints.
    destruct (displayCategories_paints categories Hshape Hprints) as (html & Hrun & Hvalid).
    exists html. repeat split; [exact Hrun | | exact Hvalid].
    intros w. rewrite !Hrun. cbn [snd]. now rewrite paint_categories_twice.
  - intros drinks Hshape Hprints.
    destruct (displayCocktailGrid_paints drinks Hshape Hprints) as (html & Hrun & Hvalid).
    exists html. repeat split; [exact Hrun | | exact Hvalid].
    intros w Hw. rewrite (Hrun w Hw). cbn [snd].
    rewrite Hrun.
    + now rewrite paint_cocktail_twice.
    + destruct w as [n t si cd cg]. cbn in *. destruct cd; [discriminate | congruence].
Qed.

(** The theorem at a record without category, type, glass, instructions,
    thumbnail and measures. *)
Lemma renderers_total_idempotent_witness :
  exists html,
    (forall w, displayCocktail bare_drink w = (Ok tt, paint_cocktail html w))
    /\ valid_markup html = true.
Proof.
  assert (Hshape : record_shape bare_drink = true) by (vm_compute; reflexivity).
  assert (Hprints : prints detail_keys bare_drink = true) by (vm_compute; reflexivity).
  assert (Hfree : markup_free bare_drink = true) by (vm_compute; reflexivity).
  destruct (proj1 (proj2 (proj2 renderers_total_idempotent)) bare_drink Hshape Hprints)
    as (html & Hrun & _ & Hvalid).
  exists html. split; [exact Hrun | exact (Hvalid Hfree)].
Defined.

(** C4 fails as stated: the markup is not valid when a text brings markup
    characters.  A server that answers with a page of markup makes the
    random flow end in an error state whose message holds [<]; a search
    for [<b>] shows a loading state that holds it. *)
Lemma renderers_write_texts_unescaped :
  (exists html,
      cocktailDisplay (snd (fetchAndDisplayRandomCocktail page_answered_with_markup))
      = Some html
      /\ valid_markup html = false)
  /\ (exists html,
        cocktailDisplay (snd (displayLoading (Some (lit "Buscando `<b>`..."))
                                page_answered_with_markup))
        = Some html
        /\ valid_markup html = false).
Proof.
  split; eexists; (split; [vm_compute; reflexivity | vm_compute; reflexivity]).
Qed.

(** * Further properties of the script *)

(** ** fetchCocktailData: when it raises and what it logs *)

Lemma after_events_app (a b : list event) (w : World) :
  after_events b (after_events a w) = after_events (a ++ b) w.
Proof. destruct w as [n t si cd cg]. unfold after_events. cbn. now rewrite app_assoc. Qed.

Lemma fetchCocktailData_world :
  forall (w : World) (url : jsstring),
    snd (fetchCocktailData url w)
    = after_events
        (ConsoleLog (lit "Fetching URL:") url :: Request url
         :: match fst (fetchCocktailData url w) with
            | Throw e => [ConsoleError (lit "Cocktail Fetch error:") e]
            | Ok _ => []
            end) w.
Proof.
  intros [n t si cd cg] url. run_script. unfold after_events. cbn.
  destruct (n url) as [msg | r]; cbn; [now rewrite <- !app_assoc |].
  destruct (negb (ok r)); cbn; [now rewrite <- !app_assoc |].
  destruct (payload r) as [msg | data]; cbn; [now rewrite <- !app_assoc |].
  destruct (get data (lit "drinks")) as [drinks | e]; cbn; [| now rewrite <- !app_assoc].
  destruct (negb (truthy drinks)); cbn; [now rewrite <- !app_assoc |].
  destruct (get_first drinks); cbn; now rewrite <- !app_assoc.
Qed.

(** X1. [fetchCocktailData] touches nothing but the trace: after the console
    line with the URL and the request comes one [console.error] line when
    it raises, and nothing when it returns. *)
Theorem fetchCocktailData_logs_each_raise :
  forall (w : World) (url : jsstring),
    match fst (fetchCocktailData url w) with
    | Throw e =>
        snd (fetchCocktailData url w)
        = after_events [ConsoleLog (lit "Fetching URL:") url; Request url;
                        ConsoleError (lit "Cocktail Fetch error:") e] w
    | Ok _ =>
        snd (fetchCocktailData url w)
        = after_events [ConsoleLog (lit "Fetching URL:") url; Request url] w
    end.
Proof.
  intros w url. pose proof (fetchCocktailData_world w url) as H.
  destruct (fst (fetchCocktailData url w)); exact H.
Qed.

Lemma get_first_truthy (v : value) :
  truthy v = true -> exists first, get_first v = Ok first.
Proof. destruct v; cbn; intros H; try discriminate; eauto. Qed.

Lemma fetch_failure_none (o : fetch_outcome) :
  fetch_failure o = None ->
  exists r data, o = Responded r /\ ok r = true /\ payload r = Json data.
Proof.
  destruct o as [msg | r]; cbn; [discriminate |].
  destruct (ok r) eqn:Hok; cbn; [| discriminate].
  destruct (payload r) as [msg | data] eqn:Hp; [discriminate |].
  intros _. now exists r, data.
Qed.

Lemma fetchCocktailData_unreadable
  (w : World) (url : jsstring) (r : response) (data : value) (e : exn) :
  net w url = Responded r -> ok r = true -> payload r = Json data ->
  get data (lit "drinks") = Throw e ->
  fetchCocktailData url w
  = (Throw e,
     after_events [ConsoleLog (lit "Fetching URL:") url; Request url;
                   ConsoleError (lit "Cocktail Fetch error:") e] w).
Proof.
  intros Hnet Hok Hbody Hget. destruct w as [n t si cd cg]. cbn in Hnet.
  run_script. rewrite Hnet, Hok. cbn [negb]. rewrite Hbody, Hget. cbn.
  unfold after_events. cbn. now rewrite <- !app_assoc.
Qed.

(** X2. [fetchCocktailData] raises exactly when the request fails (no
    response, a status outside 200..299, a body that is not JSON) or the
    JSON body is [null]; on every other JSON body, an array or a number
    as well as an object, it returns. *)
Theorem fetchCocktailData_raises_iff :
  forall (w : World) (url : jsstring),
    (exists e, fst (fetchCocktailData url w) = Throw e)
    <-> (fetch_failure (net w url) <> None
         \/ exists r data, net w url = Responded r /\ ok r = true
                           /\ payload r = Json data /\ readable data = false).
Proof.
  intros w url. destruct (fetch_failure (net w url)) as [e |] eqn:Hf.
  - split; [intros _; left; discriminate |].
    intros _. exists e. now rewrite (fetchCocktailData_raises w url e Hf).
  - destruct (fetch_failure_none _ Hf) as (r & data & Hnet & Hok & Hbody).
    destruct (get data (lit "drinks")) as [drinks | e] eqn:Hget.
    + assert (Hr : readable data = true)
        by (destruct data; try reflexivity; discriminate).
      assert (Hret : exists v, fst (fetchCocktailData url w) = Ok v).
      { destruct (truthy drinks) eqn:Ht.
        - destruct (get_first_truthy drinks Ht) as [first Hfirst]. exists first.
          now rewrite (fetchCocktailData_found w url r data drinks first).
        - exists VNull.
          now rewrite (fetchCocktailData_nothing_found w url r data drinks). }
      destruct Hret as [v Hv]. split.
      * intros [e He]. congruence.
      * intros [Hfail | (r' & data' & Hr' & _ & Hp' & Hd')]; [congruence |].
        rewrite Hnet in Hr'. injection Hr' as <-. rewrite Hbody in Hp'.
        injection Hp' as <-. congruence.
    + split.
      * intros _. right. exists r, data. repeat split; auto.
        destruct data; try reflexivity; discriminate.
      * intros _. exists e.
        now rewrite (fetchCocktailData_unreadable w url r data e).
Qed.

(** ** The single-cocktail flows when a drink is found *)

Lemma show_fetched_found (url : jsstring) (f : exn -> jsstring) (loading : jsstring)
  (w : World) (first : value) (rest : list value) (html : jsstring) :
  answers_with w url (VArr (first :: rest)) ->
  (forall w', displayCocktail first w' = (Ok tt, paint_cocktail html w')) ->
  try_catch (drink <- fetchCocktailData url ;; displayCocktail drink)
    (fun error => displayError (f error)) (paint_cocktail loading w)
  = (Ok tt,
     paint_cocktail html
       (after_events [ConsoleLog (lit "Fetching URL:") url; Request url] w)).
Proof.
  intros (r & data & Hnet & Hok & Hbody & Hget) Hshow. unfold try_catch, bind.
  rewrite (fetchCocktailData_found (paint_cocktail loading w) url r data
             (VArr (first :: rest)) first Hnet Hok Hbody Hget eq_refl eq_refl).
  rewrite Hshow. now rewrite paint_after_events_paint.
Qed.

(** X3. When the request of a single-cocktail flow is answered with a list of
    drinks whose first is a record of the shape, with a name, thumbnail,
    category, type, glass and instructions that can be converted to a
    string, the flow ends with the detail view of that first drink in
    the cocktail display, as [displayCocktail] paints it; the other
    drinks of the list play no part, the loading state is gone, and the
    console holds the URL and no error. *)
Theorem single_cocktail_flows_show_the_first_drink :
  forall (w : World) (first : value) (rest : list value),
    record_shape first = true ->
    prints detail_keys first = true ->
    exists html,
      (forall w', displayCocktail first w' = (Ok tt, paint_cocktail html w'))
      /\ (answers_with w randomUrl (VArr (first :: rest)) ->
          fetchAndDisplayRandomCocktail w
          = (Ok tt,
             paint_cocktail html
               (after_events [ConsoleLog (lit "Fetching URL:") randomUrl;
                              Request randomUrl] w)))
      /\ (forall drinkId encoded,
            encodeURIComponent drinkId = Ok encoded ->
            answers_with w (cocktailApiBaseUrl ++ lit "lookup.php?i=" ++ encoded)
              (VArr (first :: rest)) ->
            fetchAndDisplayCocktailDetails drinkId w
            = (Ok tt,
               paint_cocktail html
                 (after_events
                    [ConsoleLog (lit "Fetching URL:")
                       (cocktailApiBaseUrl ++ lit "lookup.php?i=" ++ encoded);
                     Request (cocktailApiBaseUrl ++ lit "lookup.php?i=" ++ encoded)] w)))
      /\ (forall s encoded,
            searchInput w = Some s ->
            whitespace_only s = false ->
            encodeURIComponent (trim s) = Ok encoded ->
            answers_with w (cocktailApiBaseUrl ++ lit "search.php?s=" ++ encoded)
              (VArr (first :: rest)) ->
            searchAndDisplayCocktail w
            = (Ok tt,
               paint_cocktail html
                 (after_events
                    [ConsoleLog (lit "Fetching URL:")
                       (cocktailApiBaseUrl ++ lit "search.php?s=" ++ encoded);
                     Request (cocktailApiBaseUrl ++ lit "search.php?s=" ++ encoded)] w))).
Proof.
  intros w first rest Hshape Hprints.
  destruct (displayCocktail_paints first Hshape Hprints) as (html & Hrun & _).
  exists html. split; [exact Hrun |]. repeat split.
  - intros Hans. unfold fetchAndDisplayRandomCocktail, bind at 1.
    rewrite displayLoading_run.
    exact (show_fetched_found randomUrl
             (fun error => lit "Error al cargar cóctel aleatorio: " ++ message error)
             (loading_state (lit "Buscando un cóctel aleatorio...")) w first rest html
             Hans Hrun).
  - intros drinkId encoded Henc Hans.
    unfold fetchAndDisplayCocktailDetails, bind at 1.
    rewrite displayLoading_run, Henc, try_catch_bind_lift_ok.
    exact (show_fetched_found (cocktailApiBaseUrl ++ lit "lookup.php?i=" ++ encoded)
             (fun error => lit "Error al cargar detalles del cóctel: " ++ message error)
             (loading_state (lit "Cargando detalles del cóctel...")) w first rest html
             Hans Hrun).
  - intros s encoded Hs Hws Henc Hans.
    assert (Ht : truthy (VStr (trim s)) = true).
    { destruct (trim s) eqn:Htrim; [| reflexivity].
      apply trim_empty_iff in Htrim. congruence. }
    unfold searchAndDisplayCocktail, bind at 1, searchInput_value.
    rewrite Hs, Ht. cbn [negb]. unfold bind at 1.
    rewrite displayLoading_run, Henc, try_catch_bind_lift_ok.
    exact (show_fetched_found (cocktailApiBaseUrl ++ lit "search.php?s=" ++ encoded)
             (fun error => lit "Error al buscar cóctel: " ++ message error)
             (loading_state (lit "Buscando `" ++ trim s ++ lit "`...")) w first rest html
             Hans Hrun).
Qed.

(** The theorem at a random request answered with a Margarita and a Gin
    Fizz: the Margarita is shown. *)
Lemma single_cocktail_flows_show_the_first_drink_witness :
  exists html,
    (forall w', displayCocktail margarita w' = (Ok tt, paint_cocktail html w'))
    /\ fetchAndDisplayRandomCocktail
         (page_serving (VObj [(lit "drinks", VArr [margarita; gin_fizz])]))
       = (Ok tt,
          paint_cocktail html
            (after_events [ConsoleLog (lit "Fetching URL:") randomUrl; Request randomUrl]
               (page_serving (VObj [(lit "drinks", VArr [margarita; gin_fizz])])))).
Proof.
  assert (Hshape : record_shape margarita = true) by (vm_compute; reflexivity).
  assert (Hprints : prints detail_keys margarita = true) by (vm_compute; reflexivity).
  destruct (single_cocktail_flows_show_the_first_drink
              (page_serving (VObj [(lit "drinks", VArr [margarita; gin_fizz])]))
              margarita [gin_fizz] Hshape Hprints) as (html & Hrun & Hrandom & _).
  exists html. split; [exact Hrun |].
  apply Hrandom.
  exists (mkResponse 200 (Json (VObj [(lit "drinks", VArr [margarita; gin_fizz])]))),
    (VObj [(lit "drinks", VArr [margarita; gin_fizz])]).
  repeat split; vm_compute; reflexivity.
Defined.

(** ** The flow of a category and the listing of the categories *)

Lemma forEach_append_concat (f : value -> result jsstring) (l : list value)
  (pieces : list jsstring) :
  Forall2 (fun x piece => f x = Ok piece) l pieces ->
  forall html, forEach_append f l html = Ok (html ++ concat pieces).
Proof.
  induction 1 as [| x piece l pieces Hx Hl IH]; intros html; cbn [forEach_append concat].
  - now rewrite app_nil_r.
  - rewrite Hx. cbn [rbind]. rewrite IH. now rewrite app_assoc.
Qed.

Lemma category_flow_answered (w : World) (category encoded : jsstring) (drinks : value) :
  encodeURIComponent category = Ok encoded ->
  answers_with w (cocktailApiBaseUrl ++ lit "filter.php?c=" ++ encoded) drinks ->
  fetchAndDisplayCocktailsByCategory category w
  = try_catch
      (if negb (truthy drinks) then
         set_cocktailDisplay
           (lit "<p class=`error-text`>No se encontraron cócteles en la categoría `"
            ++ category ++ lit "`.</p>")
       else displayCocktailGrid drinks)
      (fun error =>
         displayError (lit "Error al cargar cócteles de la categoría `" ++ category
                       ++ lit "`: " ++ message error))
      (after_events [Request (cocktailApiBaseUrl ++ lit "filter.php?c=" ++ encoded)]
         (paint_cocktail
            (loading_state (lit "Cargando cócteles de la categoría `" ++ category
                            ++ lit "`...")) w)).
Proof.
  intros Henc (r & data & Hnet & Hok & Hbody & Hget).
  unfold fetchAndDisplayCocktailsByCategory, bind at 1.
  rewrite displayLoading_run, Henc, try_catch_bind_lift_ok.
  destruct w as [n t si cd cg]. cbn in Hnet.
  unfold try_catch, fetch, json, emit, bind, lift, ret, throw, paint_cocktail, after_events.
  cbn [net trace searchInput cocktailDisplay categoriesDisplay].
  rewrite Hnet, Hok. cbn [negb]. rewrite Hbody, Hget. reflexivity.
Qed.

(** X4. The flow of a category, when its request is answered.  Without
    [drinks] the cocktail display tells that the category has no
    cocktails and names it.  With a list, the display holds the grid: its
    opening tag, one item for each drink in the order of the list, and
    the closing tag; for the empty list, which is truthy, that is an
    empty grid and not the none-found message.  Either way the one event
    is the request, and the loading state is gone. *)
Theorem category_flow_paints_the_grid :
  forall (w : World) (category encoded : jsstring),
    encodeURIComponent category = Ok encoded ->
    (forall drinks,
        answers_with w (cocktailApiBaseUrl ++ lit "filter.php?c=" ++ encoded) drinks ->
        truthy drinks = false ->
        fetchAndDisplayCocktailsByCategory category w
        = (Ok tt,
           paint_cocktail
             (lit "<p class=`error-text`>No se encontraron cócteles en la categoría `"
              ++ category ++ lit "`.</p>")
             (after_events
                [Request (cocktailApiBaseUrl ++ lit "filter.php?c=" ++ encoded)] w)))
    /\ (forall l items,
          answers_with w (cocktailApiBaseUrl ++ lit "filter.php?c=" ++ encoded) (VArr l) ->
          Forall2 (fun drink item => cocktailItem drink = Ok item) l items ->
          fetchAndDisplayCocktailsByCategory category w
          = (Ok tt,
             paint_cocktail (grid_open ++ concat items ++ lit "</div>")
               (after_events
                  [Request (cocktailApiBaseUrl ++ lit "filter.php?c=" ++ encoded)] w))).
Proof.
  intros w category encoded Henc. split.
  - intros drinks Hans Hf.
    rewrite (category_flow_answered w category encoded drinks Henc Hans), Hf.
    cbn [negb]. destruct w as [n t si cd cg]. destruct cd; reflexivity.
  - intros l items Hans Hitems.
    rewrite (category_flow_answered w category encoded (VArr l) Henc Hans).
    cbn [truthy negb]. unfold try_catch, displayCocktailGrid, bind, lift, forEach.
    fold grid_open. rewrite (forEach_append_concat cocktailItem l items Hitems).
    rewrite <- app_assoc.
    destruct w as [n t si cd cg]. destruct cd; reflexivity.
Qed.

(** The theorem at the category [Shot] answered with two drinks, and
    answered with the empty list. *)
Lemma category_flow_paints_the_grid_witness :
  (exists item1 item2,
      cocktailDisplay
        (snd (fetchAndDisplayCocktailsByCategory (lit "Shot")
                (page_serving (VObj [(lit "drinks", VArr [shot_b52; shot_b53])]))))
      = Some (grid_open ++ concat [item1; item2] ++ lit "</div>")
      /\ cocktailItem shot_b52 = Ok item1 /\ cocktailItem shot_b53 = Ok item2)
  /\ cocktailDisplay
       (snd (fetchAndDisplayCocktailsByCategory (lit "Shot")
               (page_serving (VObj [(lit "drinks", VArr [])]))))
     = Some (grid_open ++ lit "</div>").
Proof.
  assert (Henc : encodeURIComponent (lit "Shot") = Ok (lit "Shot"))
    by (vm_compute; reflexivity).
  split.
  - destruct (cocktailItem shot_b52) as [item1 |] eqn:H1; [| vm_compute in H1; discriminate].
    destruct (cocktailItem shot_b53) as [item2 |] eqn:H2; [| vm_compute in H2; discriminate].
    exists item1, item2. split; [| split; reflexivity].
    rewrite (proj2 (category_flow_paints_the_grid
                      (page_serving (VObj [(lit "drinks", VArr [shot_b52; shot_b53])]))
                      (lit "Shot") (lit "Shot") Henc)
               [shot_b52; shot_b53] [item1; item2]).
    + reflexivity.
    + eexists _, _. repeat split; vm_compute; reflexivity.
    + repeat constructor; assumption.
  - rewrite (proj2 (category_flow_paints_the_grid
                      (page_serving (VObj [(lit "drinks", VArr [])]))
                      (lit "Shot") (lit "Shot") Henc) [] []).
    + reflexivity.
    + eexists _, _. repeat split; vm_compute; reflexivity.
    + constructor.
Defined.

Lemma fetchCocktailCategories_answered (w : World) (drinks : value) :
  answers_with w categoriesUrl drinks ->
  fetchCocktailCategories w
  = (Ok (if negb (truthy drinks) then VNull else drinks),
     after_events [Request categoriesUrl] w).
Proof.
  intros (r & data & Hnet & Hok & Hbody & Hget).
  destruct w as [n t si cd cg]. cbn in Hnet.
  unfold fetchCocktailCategories. fold categoriesUrl.
  unfold try_catch, fetch, json, emit, bind, lift, ret, throw, after_events.
  cbn [net trace searchInput cocktailDisplay categoriesDisplay].
  rewrite Hnet, Hok. cbn [negb]. rewrite Hbody, Hget.
  now destruct (negb (truthy drinks)).
Qed.

Lemma displayCategories_none (categories : value) (w : World) :
  negb (truthy categories) || length_is_zero categories = true ->
  displayCategories categories w = (Ok tt, paint_categories no_categories_state w).
Proof.
  intros He. destruct w as [n t si cd cg].
  unfold displayCategories, bind, categoriesDisplayDiv.
  cbn [categoriesDisplay]. destruct cg; [| reflexivity].
  cbn [negb]. rewrite He. reflexivity.
Qed.

(** X5. The initial listing, when its request is answered.  With a non-empty
    list the categories display holds one card for each category, in the
    order of the list; without [drinks], or with the empty list, it holds
    the none-found message.  Either way the one event is the request and
    the cocktail display is not touched. *)
Theorem initializeCategories_paints_the_cards :
  forall (w : World),
    (forall first rest cards,
        answers_with w categoriesUrl (VArr (first :: rest)) ->
        Forall2 (fun category card => categoryCard category = Ok card)
          (first :: rest) cards ->
        initializeCategories w
        = (Ok tt,
           paint_categories (concat cards) (after_events [Request categoriesUrl] w)))
    /\ (forall drinks,
          answers_with w categoriesUrl drinks ->
          truthy drinks = false \/ drinks = VArr [] ->
          initializeCategories w
          = (Ok tt,
             paint_categories no_categories_state
               (after_events [Request categoriesUrl] w))).
Proof.
  intros w. split.
  - intros first rest cards Hans Hcards. unfold initializeCategories, bind.
    rewrite (fetchCocktailCategories_answered w (VArr (first :: rest)) Hans).
    cbn [truthy negb].
    pose proof (forEach_append_concat categoryCard (first :: rest) cards Hcards []) as Hloop.
    destruct w as [n t si cd cg].
    unfold displayCategories, bind, categoriesDisplayDiv, lift, forEach, after_events.
    cbn [categoriesDisplay]. destruct cg; [| reflexivity].
    cbn [negb truthy length_is_zero orb]. rewrite Hloop. reflexivity.
  - intros drinks Hans Hnone. unfold initializeCategories, bind.
    rewrite (fetchCocktailCategories_answered w drinks Hans).
    destruct Hnone as [Hf | ->].
    + rewrite Hf. cbn [negb]. now apply displayCategories_none.
    + cbn [truthy negb]. now apply displayCategories_none.
Qed.

(** The theorem at a listing of two categories. *)
Lemma initializeCategories_paints_the_cards_witness :
  exists card1 card2,
    categoryCard category_shot = Ok card1 /\ categoryCard category_beer = Ok card2
    /\ categoriesDisplay
         (snd (initializeCategories
                 (page_serving (VObj [(lit "drinks", VArr [category_shot; category_beer])]))))
       = Some (card1 ++ card2)
    /\ cocktailDisplay
         (snd (initializeCategories
                 (page_serving (VObj [(lit "drinks", VArr [category_shot; category_beer])]))))
       = Some [].
Proof.
  destruct (categoryCard category_shot) as [card1 |] eqn:H1;
    [| vm_compute in H1; discriminate].
  destruct (categoryCard category_beer) as [card2 |] eqn:H2;
    [| vm_compute in H2; discriminate].
  exists card1, card2. split; [reflexivity |]. split; [reflexivity |].
  rewrite (proj1 (initializeCategories_paints_the_cards
                    (page_serving (VObj [(lit "drinks", VArr [category_shot; category_beer])])))
             category_shot [category_beer] [card1; card2]).
  - cbn [snd concat]. rewrite app_nil_r. split; reflexivity.
  - eexists _, _. repeat split; vm_compute; reflexivity.
  - repeat constructor; assumption.
Defined.

Lemma forEach_append_unreadable (l : list value) (html : jsstring) :
  forallb readable l = false ->
  exists e, forEach_append categoryCard l html = Throw e.
Proof.
  revert html. induction l as [| x l IH]; intros html H; [discriminate |].
  cbn [forallb] in H. cbn [forEach_append].
  destruct (categoryCard x) as [card | e] eqn:Hcard; cbn [rbind]; [| eauto].
  apply IH. destruct (readable x) eqn:Hx; [exact H |].
  destruct x; try discriminate; cbn in Hcard; discriminate.
Qed.

(** X6. The initial listing has no handler around [displayCategories]: when
    the listing is answered with a [drinks] that is neither absent nor
    empty and is not a list of readable records (a text, a number, an
    object, or a list that holds [null]), [initializeCategories] raises,
    and nothing was painted. *)
Theorem initializeCategories_raises_on_a_malformed_listing :
  forall (w : World) (drinks : value),
    answers_with w categoriesUrl drinks ->
    truthy drinks = true ->
    length_is_zero drinks = false ->
    list_shape drinks = false ->
    categoriesDisplay w <> None ->
    exists e,
      initializeCategories w = (Throw e, after_events [Request categoriesUrl] w).
Proof.
  intros w drinks Hans Ht Hz Hshape Hcg. unfold initializeCategories, bind.
  rewrite (fetchCocktailCategories_answered w drinks Hans), Ht. cbn [negb].
  destruct w as [n t si cd cg]. cbn in Hcg.
  unfold displayCategories, bind, categoriesDisplayDiv, lift, after_events.
  cbn [categoriesDisplay]. destruct cg; [| congruence].
  cbn [negb]. rewrite Ht, Hz. cbn [negb orb].
  assert (Hthrow : exists e, forEach "categories" drinks categoryCard [] = Throw e).
  { destruct drinks; cbn in Ht, Hshape |- *; try discriminate; eauto.
    now apply forEach_append_unreadable. }
  destruct Hthrow as [e ->]. now exists e.
Qed.

(** The theorem at a listing whose [drinks] holds [null]. *)
Lemma initializeCategories_raises_on_a_malformed_listing_witness :
  exists e,
    initializeCategories (page_serving (VObj [(lit "drinks", VArr [category_shot; VNull])]))
    = (Throw e,
       after_events [Request categoriesUrl]
         (page_serving (VObj [(lit "drinks", VArr [category_shot; VNull])]))).
Proof.
  apply (initializeCategories_raises_on_a_malformed_listing
           (page_serving (VObj [(lit "drinks", VArr [category_shot; VNull])]))
           (VArr [category_shot; VNull])).
  - eexists _, _. repeat split; vm_compute; reflexivity.
  - reflexivity.
  - reflexivity.
  - reflexivity.
  - discriminate.
Defined.

(** ** Pages that lack an element *)

(** X7. A handler that reads or writes an element without testing for it
    raises when the page lacks the element, before anything is requested
    or painted: the search without the search field, the click on a
    category card without the cocktail display. *)
Theorem handlers_raise_without_their_element :
  (forall w, searchInput w = None ->
             exists e, searchAndDisplayCocktail w = (Throw e, w))
  /\ (forall w category,
        cocktailDisplay w = None ->
        exists e, categoryCardClick category w = (Throw e, w)).
Proof.
  split.
  - intros w Hs. unfold searchAndDisplayCocktail, bind, searchInput_value.
    rewrite Hs. eauto.
  - intros w category Hcd. unfold categoryCardClick, bind, set_cocktailDisplay.
    rewrite Hcd. eauto.
Qed.

(** The theorem at pages without any element. *)
Lemma handlers_raise_without_their_element_witness :
  (exists e, searchAndDisplayCocktail (mkWorld (net page_offline) [] None None None)
             = (Throw e, mkWorld (net page_offline) [] None None None))
  /\ (exists e, categoryCardClick (lit "Shot") (mkWorld (net page_offline) [] None None None)
                = (Throw e, mkWorld (net page_offline) [] None None None)).
Proof.
  split.
  - exact (proj1 handlers_raise_without_their_element
             (mkWorld (net page_offline) [] None None None) eq_refl).
  - exact (proj2 handlers_raise_without_their_element
             (mkWorld (net page_offline) [] None None None) (lit "Shot") eq_refl).
Defined.

Lemma displayCocktail_absent_display (drink : value) (w : World) :
  cocktailDisplay w = None -> displayCocktail drink w = (Ok tt, w).
Proof.
  intros H. unfold displayCocktail, bind, cocktailDisplayDiv. now rewrite H.
Qed.

Lemma displayError_absent_display (msg : jsstring) (w : World) :
  cocktailDisplay w = None -> displayError msg w = (Ok tt, w).
Proof.
  intros H. unfold displayError, bind, cocktailDisplayDiv. now rewrite H.
Qed.

Lemma show_fetched_absent_display (url : jsstring) (f : exn -> jsstring) (w : World) :
  cocktailDisplay w = None ->
  exists evs,
    try_catch (drink <- fetchCocktailData url ;; displayCocktail drink)
      (fun error => displayError (f error)) w
    = (Ok tt, after_events evs w)
    /\ requests evs = [url].
Proof.
  intros Hcd. unfold try_catch, bind.
  pose proof (fetchCocktailData_world w url) as Hw.
  destruct (fetchCocktailData url w) as [[drink | e] w1]; cbn [fst snd] in Hw; subst w1.
  - rewrite displayCocktail_absent_display by exact Hcd. eexists. split; reflexivity.
  - rewrite displayError_absent_display by exact Hcd. eexists. split; reflexivity.
Qed.

(** X8. On a page without the cocktail display the flows still run: each
    issues its one request and returns, and all it changes is the
    trace. *)
Theorem flows_run_without_the_cocktail_display :
  forall (w : World),
    cocktailDisplay w = None ->
    (exists evs,
        fetchAndDisplayRandomCocktail w = (Ok tt, after_events evs w)
        /\ requests evs = [randomUrl])
    /\ (forall drinkId encoded,
          encodeURIComponent drinkId = Ok encoded ->
          exists evs,
            fetchAndDisplayCocktailDetails drinkId w = (Ok tt, after_events evs w)
            /\ requests evs = [cocktailApiBaseUrl ++ lit "lookup.php?i=" ++ encoded])
    /\ (forall s encoded,
          searchInput w = Some s ->
          whitespace_only s = false ->
          encodeURIComponent (trim s) = Ok encoded ->
          exists evs,
            searchAndDisplayCocktail w = (Ok tt, after_events evs w)
            /\ requests evs = [cocktailApiBaseUrl ++ lit "search.php?s=" ++ encoded])
    /\ (forall category encoded,
          encodeURIComponent category = Ok encoded ->
          fetchAndDisplayCocktailsByCategory category w
          = (Ok tt,
             after_events
               [Request (cocktailApiBaseUrl ++ lit "filter.php?c=" ++ encoded)] w)).
Proof.
  intros w Hcd.
  assert (Hpaint : forall html, paint_cocktail html w = w)
    by (intros html; now apply paint_cocktail_absent).
  repeat match goal with |- _ /\ _ => split end.
  - unfold fetchAndDisplayRandomCocktail, bind at 1.
    rewrite displayLoading_run, Hpaint. fold randomUrl.
    exact (show_fetched_absent_display randomUrl
             (fun error => lit "Error al cargar cóctel aleatorio: " ++ message error) w Hcd).
  - intros drinkId encoded Henc. unfold fetchAndDisplayCocktailDetails, bind at 1.
    rewrite displayLoading_run, Hpaint, Henc, try_catch_bind_lift_ok.
    exact (show_fetched_absent_display _
             (fun error => lit "Error al cargar detalles del cóctel: " ++ message error) w Hcd).
  - intros s encoded Hs Hws Henc.
    assert (Ht : truthy (VStr (trim s)) = true).
    { destruct (trim s) eqn:Htrim; [| reflexivity].
      apply trim_empty_iff in Htrim. congruence. }
    unfold searchAndDisplayCocktail, bind at 1, searchInput_value.
    rewrite Hs, Ht. cbn [negb]. unfold bind at 1.
    rewrite displayLoading_run, Hpaint, Henc, try_catch_bind_lift_ok.
    exact (show_fetched_absent_display _
             (fun error => lit "Error al buscar cóctel: " ++ message error) w Hcd).
  - intros category encoded Henc.
    unfold fetchAndDisplayCocktailsByCategory, bind at 1.
    rewrite displayLoading_run, Hpaint, Henc, try_catch_bind_lift_ok.
    destruct w as [n t si cd cg]. cbn in Hcd. subst cd.
    unfold try_catch, fetch, json, emit, bind, lift, ret, throw, after_events.
    cbn [net trace searchInput cocktailDisplay categoriesDisplay].
    destruct (n _) as [msg | r]; [reflexivity |].
    destruct (negb (ok r)); [reflexivity |].
    destruct (payload r) as [msg | data]; [reflexivity |].
    destruct (get data (lit "drinks")) as [drinks | e]; [| reflexivity].
    destruct (negb (truthy drinks)); [reflexivity |].
    unfold displayCocktailGrid, bind, lift.
    destruct (forEach "data.drinks" drinks cocktailItem _); reflexivity.
Qed.

(** The theorem at a page without the cocktail display whose server
    serves a drink. *)
Lemma flows_run_without_the_cocktail_display_witness :
  exists evs,
    fetchAndDisplayRandomCocktail
      (mkWorld (net (page_serving (VObj [(lit "drinks", VArr [margarita])]))) []
         (Some []) None (Some []))
    = (Ok tt,
       after_events evs
         (mkWorld (net (page_serving (VObj [(lit "drinks", VArr [margarita])]))) []
            (Some []) None (Some [])))
    /\ requests evs = [randomUrl].
Proof.
  exact (proj1 (flows_run_without_the_cocktail_display
                  (mkWorld (net (page_serving (VObj [(lit "drinks", VArr [margarita])]))) []
                     (Some []) None (Some [])) eq_refl)).
Defined.

(** ** Values that cannot be encoded *)

Lemma encodeURIComponent_unpaired (n : nat) :
  forall (s : jsstring),
    (length s <= n)%nat -> well_paired s = false ->
    encodeURIComponent s = Throw URIError.
Proof.
  induction n as [| n IH]; intros s Hlen Hp.
  - destruct s; [discriminate | cbn in Hlen; lia].
  - destruct s as [| c r]; [discriminate |].
    cbn [length] in Hlen. cbn [well_paired] in Hp. cbn [encodeURIComponent].
    destruct (unescaped c) eqn:Hun.
    + destruct (unescaped_not_surrogate c Hun) as [Hl Hh]. rewrite Hl, Hh in Hp.
      now rewrite (IH r ltac:(lia) Hp).
    + destruct (is_low_surrogate c); [reflexivity |].
      destruct (is_high_surrogate c).
      * destruct r as [| d r']; [reflexivity |].
        destruct (is_low_surrogate d); [| reflexivity].
        cbn [andb length] in *. now rewrite (IH r' ltac:(lia) Hp).
      * now rewrite (IH r ltac:(lia) Hp).
Qed.

(** X9. A value with a surrogate that has no partner cannot be encoded: the
    URIError is raised inside the [try] of the flow, which ends in the
    error state with the error's message, and the trace is as before:
    nothing was requested. *)
Theorem unpaired_surrogate_ends_in_error_state :
  forall (w : World) (value : jsstring),
    well_paired value = false ->
    fetchAndDisplayCocktailsByCategory value w
    = (Ok tt,
       paint_cocktail
         (error_state (lit "Error al cargar cócteles de la categoría `" ++ value
                       ++ lit "`: " ++ message URIError)) w)
    /\ fetchAndDisplayCocktailDetails value w
       = (Ok tt,
          paint_cocktail
            (error_state (lit "Error al cargar detalles del cóctel: " ++ message URIError))
            w)
    /\ (forall s,
          searchInput w = Some s -> trim s = value ->
          searchAndDisplayCocktail w
          = (Ok tt,
             paint_cocktail
               (error_state (lit "Error al buscar cóctel: " ++ message URIError)) w)).
Proof.
  intros w value Hp.
  pose proof (encodeURIComponent_unpaired (length value) value (le_n _) Hp) as Henc.
  repeat split.
  - unfold fetchAndDisplayCocktailsByCategory, bind at 1.
    rewrite displayLoading_run, Henc, try_catch_bind_lift_throw, displayError_run.
    now rewrite paint_cocktail_twice.
  - unfold fetchAndDisplayCocktailDetails, bind at 1.
    rewrite displayLoading_run, Henc, try_catch_bind_lift_throw, displayError_run.
    now rewrite paint_cocktail_twice.
  - intros s Hs Ht.
    assert (Htr : truthy (VStr value) = true) by (destruct value; [discriminate | reflexivity]).
    unfold searchAndDisplayCocktail, bind at 1, searchInput_value.
    rewrite Hs, Ht, Htr. cbn [negb]. unfold bind at 1.
    rewrite displayLoading_run, Henc, try_catch_bind_lift_throw, displayError_run.
    now rewrite paint_cocktail_twice.
Qed.

(** The theorem at an identifier that is a lone high surrogate. *)
Lemma unpaired_surrogate_ends_in_error_state_witness :
  fetchAndDisplayCocktailDetails [55357] page_offline
  = (Ok tt,
     paint_cocktail
       (error_state (lit "Error al cargar detalles del cóctel: URI malformed"))
       page_offline).
Proof.
  assert (H : lit "Error al cargar detalles del cóctel: " ++ message URIError
              = lit "Error al cargar detalles del cóctel: URI malformed")
    by (vm_compute; reflexivity).
  rewrite <- H.
  exact (proj1 (proj2 (unpaired_surrogate_ends_in_error_state page_offline [55357] eq_refl))).
Defined.

(** ** What the flows leave alone *)

Lemma keeps_page_bind {A B : Type} (c : M A) (k : A -> M B) :
  keeps_page c -> (forall a, keeps_page (k a)) -> keeps_page (bind c k).
Proof.
  intros Hc Hk w. unfold bind. specialize (Hc w).
  destruct (c w) as [[a | e] w']; cbn [snd] in *; [| exact Hc].
  destruct (Hk a w') as (H1 & H2 & H3 & H7). destruct Hc as (H4 & H5 & H6 & H8).
  repeat split; congruence.
Qed.

Lemma keeps_page_try_catch {A : Type} (c : M A) (h : exn -> M A) :
  keeps_page c -> (forall e, keeps_page (h e)) -> keeps_page (try_catch c h).
Proof.
  intros Hc Hh w. unfold try_catch. specialize (Hc w).
  destruct (c w) as [[a | e] w']; cbn [snd] in *; [exact Hc |].
  destruct (Hh e w') as (H1 & H2 & H3 & H7). destruct Hc as (H4 & H5 & H6 & H8).
  repeat split; congruence.
Qed.

Lemma keeps_page_pure {A : Type} (r : result A) : keeps_page (lift r).
Proof. intros w. repeat split. Qed.

Lemma keeps_page_emit (ev : event) : keeps_page (emit ev).
Proof. intros w. repeat split. Qed.

Lemma keeps_page_fetch (url : jsstring) : keeps_page (fetch url).
Proof.
  intros [n t si cd cg]. unfold fetch, bind, emit. cbn.
  destruct (n url); repeat split.
Qed.

Lemma keeps_page_json (r : response) : keeps_page (json r).
Proof. intros w. unfold json. destruct (payload r); repeat split. Qed.

Lemma keeps_page_set_cocktailDisplay (html : jsstring) :
  keeps_page (set_cocktailDisplay html).
Proof. intros [n t si cd cg]. destruct cd; repeat split. Qed.

Lemma keeps_page_displayError (msg : jsstring) : keeps_page (displayError msg).
Proof. intros [n t si cd cg]. rewrite displayError_run. destruct cd; repeat split. Qed.

Lemma keeps_page_displayLoading (msg : option jsstring) : keeps_page (displayLoading msg).
Proof.
  intros [n t si cd cg]. unfold displayLoading, bind, cocktailDisplayDiv.
  cbn [cocktailDisplay]. destruct cd; repeat split.
Qed.

Lemma keeps_page_displayCocktail (drink : value) : keeps_page (displayCocktail drink).
Proof.
  unfold displayCocktail. apply keeps_page_bind; [intros w; repeat split |].
  intros present. destruct (negb present); [intros w; repeat split |].
  destruct (negb (truthy drink)); [apply keeps_page_set_cocktailDisplay |].
  apply keeps_page_bind; [apply keeps_page_pure |]. intros ingredients.
  apply keeps_page_bind; [apply keeps_page_pure |]. intros html.
  apply keeps_page_set_cocktailDisplay.
Qed.

Lemma keeps_page_fetchCocktailData (url : jsstring) : keeps_page (fetchCocktailData url).
Proof.
  intros w. rewrite (fetchCocktailData_world w url). repeat split.
Qed.

Lemma keeps_page_show_fetched (url : jsstring) (f : exn -> jsstring) :
  keeps_page (try_catch (drink <- fetchCocktailData url ;; displayCocktail drink)
                (fun error => displayError (f error))).
Proof.
  apply keeps_page_try_catch; [| intros e; apply keeps_page_displayError].
  apply keeps_page_bind; [apply keeps_page_fetchCocktailData |].
  intros drink. apply keeps_page_displayCocktail.
Qed.

Lemma keeps_page_random : keeps_page fetchAndDisplayRandomCocktail.
Proof.
  unfold fetchAndDisplayRandomCocktail.
  apply keeps_page_bind; [apply keeps_page_displayLoading |]. intros _.
  apply (keeps_page_show_fetched _
           (fun error => lit "Error al cargar cóctel aleatorio: " ++ message error)).
Qed.

Lemma keeps_page_details (drinkId : jsstring) :
  keeps_page (fetchAndDisplayCocktailDetails drinkId).
Proof.
  unfold fetchAndDisplayCocktailDetails.
  apply keeps_page_bind; [apply keeps_page_displayLoading |]. intros _.
  apply keeps_page_try_catch; [| intros e; apply keeps_page_displayError].
  apply keeps_page_bind; [apply keeps_page_pure |]. intros encoded.
  apply keeps_page_bind; [apply keeps_page_fetchCocktailData |].
  intros drink. apply keeps_page_displayCocktail.
Qed.

Lemma keeps_page_search : keeps_page searchAndDisplayCocktail.
Proof.
  unfold searchAndDisplayCocktail.
  apply keeps_page_bind.
  { intros [n t si cd cg]. unfold searchInput_value. cbn. destruct si; repeat split. }
  intros value. destruct (negb (truthy (VStr (trim value))));
    [apply keeps_page_displayError |].
  apply keeps_page_bind; [apply keeps_page_displayLoading |]. intros _.
  apply keeps_page_try_catch; [| intros e; apply keeps_page_displayError].
  apply keeps_page_bind; [apply keeps_page_pure |]. intros encoded.
  apply keeps_page_bind; [apply keeps_page_fetchCocktailData |].
  intros drink. apply keeps_page_displayCocktail.
Qed.

Lemma keeps_page_category (category : jsstring) :
  keeps_page (fetchAndDisplayCocktailsByCategory category).
Proof.
  unfold fetchAndDisplayCocktailsByCategory.
  apply keeps_page_bind; [apply keeps_page_displayLoading |]. intros _.
  apply keeps_page_try_catch; [| intros e; apply keeps_page_displayError].
  apply keeps_page_bind; [apply keeps_page_pure |]. intros encoded.
  apply keeps_page_bind; [apply keeps_page_fetch |]. intros response.
  destruct (negb (ok response)); [intros w; repeat split |].
  apply keeps_page_bind; [apply keeps_page_json |]. intros data.
  apply keeps_page_bind; [apply keeps_page_pure |]. intros drinks.
  destruct (negb (truthy drinks)); [apply keeps_page_set_cocktailDisplay |].
  unfold displayCocktailGrid.
  apply keeps_page_bind; [apply keeps_page_pure |]. intros html.
  apply keeps_page_set_cocktailDisplay.
Qed.

(** X10. No flow that the user starts, the click on a category card included,
    changes the categories display, the search field or the server: all
    their painting goes to the cocktail display, which they keep present
    or absent as it was. *)
Theorem user_flows_keep_the_categories_display :
  keeps_page fetchAndDisplayRandomCocktail
  /\ keeps_page searchAndDisplayCocktail
  /\ (forall drinkId, keeps_page (fetchAndDisplayCocktailDetails drinkId))
  /\ (forall category, keeps_page (fetchAndDisplayCocktailsByCategory category))
  /\ (forall category, keeps_page (categoryCardClick category)).
Proof.
  split; [| split; [| split; [| split]]].
  - apply keeps_page_random.
  - apply keeps_page_search.
  - apply keeps_page_details.
  - apply keeps_page_category.
  - intros category. unfold categoryCardClick.
    apply keeps_page_bind; [apply keeps_page_set_cocktailDisplay |].
    intros _. apply keeps_page_category.
Qed.

(** ** A flow overwrites what was shown before *)

Lemma same_view_page (w1 w2 : World) : same_view w1 w2 -> same_page w1 w2.
Proof. intros (H1 & H2 & H3). repeat split; congruence. Qed.

Lemma repaints_respects {A : Type} (c : M A) : repaints c -> respects c.
Proof. intros H w1 w2 Hv. apply H. now apply same_view_page. Qed.

Lemma respects_bind {A B : Type} (c : M A) (k : A -> M B) :
  respects c -> (forall a, respects (k a)) -> respects (bind c k).
Proof.
  intros Hc Hk w1 w2 Hv. unfold bind. destruct (Hc w1 w2 Hv) as [Hr Hw].
  destruct (c w1) as [[a1 | e1] w1'], (c w2) as [[a2 | e2] w2'];
    cbn [fst snd] in *; try discriminate.
  - injection Hr as <-. now apply Hk.
  - injection Hr as <-. now split.
Qed.

Lemma repaints_bind {A B : Type} (c : M A) (k : A -> M B) :
  repaints c -> (forall a, respects (k a)) -> repaints (bind c k).
Proof.
  intros Hc Hk w1 w2 Hp. unfold bind. destruct (Hc w1 w2 Hp) as [Hr Hw].
  destruct (c w1) as [[a1 | e1] w1'], (c w2) as [[a2 | e2] w2'];
    cbn [fst snd] in *; try discriminate.
  - injection Hr as <-. now apply Hk.
  - injection Hr as <-. now split.
Qed.

Lemma respects_try_catch {A : Type} (c : M A) (h : exn -> M A) :
  respects c -> (forall e, respects (h e)) -> respects (try_catch c h).
Proof.
  intros Hc Hh w1 w2 Hv. unfold try_catch. destruct (Hc w1 w2 Hv) as [Hr Hw].
  destruct (c w1) as [[a1 | e1] w1'], (c w2) as [[a2 | e2] w2'];
    cbn [fst snd] in *; try discriminate.
  - now split.
  - injection Hr as <-. now apply Hh.
Qed.

Lemma respects_pure {A : Type} (r : result A) : respects (lift r).
Proof. intros w1 w2 Hv. now split. Qed.

Lemma respects_emit (ev : event) : respects (emit ev).
Proof. intros w1 w2 Hv. split; [reflexivity | exact Hv]. Qed.

Lemma respects_fetch (url : jsstring) : respects (fetch url).
Proof.
  intros [n1 t1 s1 c1 g1] [n2 t2 s2 c2 g2] (H1 & H2 & H3). cbn in H1, H2, H3. subst.
  unfold fetch, bind, emit. cbn. destruct (n2 url); repeat split.
Qed.

Lemma respects_json (r : response) : respects (json r).
Proof. intros w1 w2 Hv. unfold json. destruct (payload r); now split. Qed.

Lemma respects_throw {A : Type} (e : exn) : respects (@throw A e).
Proof. intros w1 w2 Hv. now split. Qed.

Lemma respects_ret {A : Type} (a : A) : respects (ret a).
Proof. intros w1 w2 Hv. now split. Qed.

Lemma respects_set_cocktailDisplay (html : jsstring) : respects (set_cocktailDisplay html).
Proof.
  intros [n1 t1 s1 c1 g1] [n2 t2 s2 c2 g2] (H1 & H2 & H3). cbn in H1, H2, H3. subst.
  destruct c2; repeat split.
Qed.

Lemma repaints_set_cocktailDisplay (html : jsstring) : repaints (set_cocktailDisplay html).
Proof.
  intros [n1 t1 s1 c1 g1] [n2 t2 s2 c2 g2] (H1 & H2 & H3). cbn in H1, H2, H3. subst.
  destruct c1, c2; try discriminate; repeat split.
Qed.

Lemma repaints_displayError (msg : jsstring) : repaints (displayError msg).
Proof.
  intros [n1 t1 s1 c1 g1] [n2 t2 s2 c2 g2] (H1 & H2 & H3). cbn in H1, H2, H3. subst.
  rewrite !displayError_run. destruct c1, c2; try discriminate; repeat split.
Qed.

Lemma repaints_displayLoading (msg : jsstring) : repaints (displayLoading (Some msg)).
Proof.
  intros [n1 t1 s1 c1 g1] [n2 t2 s2 c2 g2] (H1 & H2 & H3). cbn in H1, H2, H3. subst.
  rewrite !displayLoading_run. destruct c1, c2; try discriminate; repeat split.
Qed.

Lemma respects_displayCocktail (drink : value) : respects (displayCocktail drink).
Proof.
  unfold displayCocktail. apply respects_bind.
  { intros [n1 t1 s1 c1 g1] [n2 t2 s2 c2 g2] (H1 & H2 & H3). cbn in H1, H2, H3. subst.
    repeat split. }
  intros present. destruct (negb present); [apply respects_ret |].
  destruct (negb (truthy drink)); [apply respects_set_cocktailDisplay |].
  apply respects_bind; [apply respects_pure |]. intros ingredients.
  apply respects_bind; [apply respects_pure |]. intros html.
  apply respects_set_cocktailDisplay.
Qed.

Lemma respects_fetchCocktailData (url : jsstring) : respects (fetchCocktailData url).
Proof.
  unfold fetchCocktailData, console_log, console_error.
  apply respects_bind; [apply respects_emit |]. intros _.
  apply respects_try_catch.
  - apply respects_bind; [apply respects_fetch |]. intros response.
    destruct (negb (ok response)); [apply respects_throw |].
    apply respects_bind; [apply respects_json |]. intros data.
    apply respects_bind; [apply respects_pure |]. intros drinks.
    destruct (negb (truthy drinks)); [apply respects_ret | apply respects_pure].
  - intros e. apply respects_bind; [apply respects_emit |]. intros _.
    apply respects_throw.
Qed.

Lemma respects_show_fetched (url : jsstring) (f : exn -> jsstring) :
  respects (try_catch (drink <- fetchCocktailData url ;; displayCocktail drink)
              (fun error => displayError (f error))).
Proof.
  apply respects_try_catch.
  - apply respects_bind; [apply respects_fetchCocktailData |].
    intros drink. apply respects_displayCocktail.
  - intros e. apply repaints_respects, repaints_displayError.
Qed.

Lemma repaints_random : repaints fetchAndDisplayRandomCocktail.
Proof.
  unfold fetchAndDisplayRandomCocktail.
  apply repaints_bind; [apply repaints_displayLoading |]. intros _.
  apply (respects_show_fetched _
           (fun error => lit "Error al cargar cóctel aleatorio: " ++ message error)).
Qed.

Lemma repaints_details (drinkId : jsstring) :
  repaints (fetchAndDisplayCocktailDetails drinkId).
Proof.
  unfold fetchAndDisplayCocktailDetails.
  apply repaints_bind; [apply repaints_displayLoading |]. intros _.
  apply respects_try_catch; [| intros e; apply repaints_respects, repaints_displayError].
  apply respects_bind; [apply respects_pure |]. intros encoded.
  apply respects_bind; [apply respects_fetchCocktailData |].
  intros drink. apply respects_displayCocktail.
Qed.

Lemma repaints_category (category : jsstring) :
  repaints (fetchAndDisplayCocktailsByCategory category).
Proof.
  unfold fetchAndDisplayCocktailsByCategory.
  apply repaints_bind; [apply repaints_displayLoading |]. intros _.
  apply respects_try_catch; [| intros e; apply repaints_respects, repaints_displayError].
  apply respects_bind; [apply respects_pure |]. intros encoded.
  apply respects_bind; [apply respects_fetch |]. intros response.
  destruct (negb (ok response)); [apply respects_throw |].
  apply respects_bind; [apply respects_json |]. intros data.
  apply respects_bind; [apply respects_pure |]. intros drinks.
  destruct (negb (truthy drinks)); [apply respects_set_cocktailDisplay |].
  unfold displayCocktailGrid.
  apply respects_bind; [apply respects_pure |]. intros html.
  apply respects_set_cocktailDisplay.
Qed.

Lemma repaints_search (w1 w2 : World) :
  same_page w1 w2 -> searchInput w2 <> None ->
  fst (searchAndDisplayCocktail w1) = fst (searchAndDisplayCocktail w2)
  /\ same_view (snd (searchAndDisplayCocktail w1)) (snd (searchAndDisplayCocktail w2)).
Proof.
  intros Hp Hfield. pose proof Hp as (_ & Hs & _).
  destruct (searchInput w2) as [s |] eqn:E2; [| congruence].
  assert (Hrun : forall w,
            searchInput w = Some s ->
            searchAndDisplayCocktail w
            = (if negb (truthy (VStr (trim s))) then
                 displayError (lit "Por favor, introduce un nombre de cóctel para buscar.")
               else
                 displayLoading (Some (lit "Buscando `" ++ trim s ++ lit "`...")) ;;
                 try_catch
                   (encoded <- lift (encodeURIComponent (trim s)) ;;
                    drink <- fetchCocktailData
                               (cocktailApiBaseUrl ++ lit "search.php?s=" ++ encoded) ;;
                    displayCocktail drink)
                   (fun error =>
                      displayError (lit "Error al buscar cóctel: " ++ message error))) w).
  { intros w E. unfold searchAndDisplayCocktail, bind at 1, searchInput_value.
    now rewrite E. }
  rewrite (Hrun w1 Hs), (Hrun w2 E2).
  destruct (negb (truthy (VStr (trim s)))); [now apply repaints_displayError |].
  revert w1 w2 Hp Hs E2 Hfield Hrun.
  assert (Hrep : repaints
            (displayLoading (Some (lit "Buscando `" ++ trim s ++ lit "`...")) ;;
             try_catch
               (encoded <- lift (encodeURIComponent (trim s)) ;;
                drink <- fetchCocktailData
                           (cocktailApiBaseUrl ++ lit "search.php?s=" ++ encoded) ;;
                displayCocktail drink)
               (fun error =>
                  displayError (lit "Error al buscar cóctel: " ++ message error)))).
  { apply repaints_bind; [apply repaints_displayLoading |]. intros _.
    apply respects_try_catch; [| intros e; apply repaints_respects, repaints_displayError].
    apply respects_bind; [apply respects_pure |]. intros encoded.
    apply respects_bind; [apply respects_fetchCocktailData |].
    intros drink. apply respects_displayCocktail. }
  intros w1 w2 Hp _ _ _ _. now apply Hrep.
Qed.

Lemma keeps_page_same_page {A : Type} (c : M A) (w : World) :
  keeps_page c -> same_page (snd (c w)) w.
Proof. intros H. destruct (H w) as (H1 & H2 & _ & H4). now repeat split. Qed.

(** X11. What a flow leaves in the cocktail display is fixed by the server,
    the search field and whether the page has the display: it does not
    depend on what the displays or the console held before.  So a flow
    that runs after any other computation that keeps the page, another
    flow for one, leaves the display as if it had run alone: the later
    result overwrites the earlier. *)
Theorem flows_overwrite_the_cocktail_display :
  (forall w1 w2,
      same_page w1 w2 ->
      cocktailDisplay (snd (fetchAndDisplayRandomCocktail w1))
      = cocktailDisplay (snd (fetchAndDisplayRandomCocktail w2))
      /\ (forall drinkId,
            cocktailDisplay (snd (fetchAndDisplayCocktailDetails drinkId w1))
            = cocktailDisplay (snd (fetchAndDisplayCocktailDetails drinkId w2)))
      /\ (forall category,
            cocktailDisplay (snd (fetchAndDisplayCocktailsByCategory category w1))
            = cocktailDisplay (snd (fetchAndDisplayCocktailsByCategory category w2)))
      /\ (searchInput w2 <> None ->
          cocktailDisplay (snd (searchAndDisplayCocktail w1))
          = cocktailDisplay (snd (searchAndDisplayCocktail w2))))
  /\ (forall (earlier : M unit) (w : World),
        keeps_page earlier ->
        cocktailDisplay (snd (fetchAndDisplayRandomCocktail (snd (earlier w))))
        = cocktailDisplay (snd (fetchAndDisplayRandomCocktail w))
        /\ (forall drinkId,
              cocktailDisplay (snd (fetchAndDisplayCocktailDetails drinkId (snd (earlier w))))
              = cocktailDisplay (snd (fetchAndDisplayCocktailDetails drinkId w)))
        /\ (forall category,
              cocktailDisplay
                (snd (fetchAndDisplayCocktailsByCategory category (snd (earlier w))))
              = cocktailDisplay (snd (fetchAndDisplayCocktailsByCategory category w)))
        /\ (searchInput w <> None ->
            cocktailDisplay (snd (searchAndDisplayCocktail (snd (earlier w))))
            = cocktailDisplay (snd (searchAndDisplayCocktail w)))).
Proof.
  assert (Hall : forall w1 w2,
      same_page w1 w2 ->
      cocktailDisplay (snd (fetchAndDisplayRandomCocktail w1))
      = cocktailDisplay (snd (fetchAndDisplayRandomCocktail w2))
      /\ (forall drinkId,
            cocktailDisplay (snd (fetchAndDisplayCocktailDetails drinkId w1))
            = cocktailDisplay (snd (fetchAndDisplayCocktailDetails drinkId w2)))
      /\ (forall category,
            cocktailDisplay (snd (fetchAndDisplayCocktailsByCategory category w1))
            = cocktailDisplay (snd (fetchAndDisplayCocktailsByCategory category w2)))
      /\ (searchInput w2 <> None ->
          cocktailDisplay (snd (searchAndDisplayCocktail w1))
          = cocktailDisplay (snd (searchAndDisplayCocktail w2)))).
  { intros w1 w2 Hp. split; [| split; [| split]].
    - apply (repaints_random w1 w2 Hp).
    - intros drinkId. apply (repaints_details drinkId w1 w2 Hp).
    - intros category. apply (repaints_category category w1 w2 Hp).
    - intros Hfield. apply (repaints_search w1 w2 Hp Hfield). }
  split; [exact Hall |].
  intros earlier w Hk. apply Hall. now apply keeps_page_same_page.
Qed.

(** The theorem at two pages that differ in what the cocktail display
    shows. *)
Lemma flows_overwrite_the_cocktail_display_witness :
  cocktailDisplay
    (snd (fetchAndDisplayRandomCocktail
            (paint_cocktail (lit "<p>other</p>") (page_searching (lit "gin")))))
  = cocktailDisplay (snd (fetchAndDisplayRandomCocktail (page_searching (lit "gin")))).
Proof.
  refine (proj1 (proj1 flows_overwrite_the_cocktail_display
                   (paint_cocktail (lit "<p>other</p>") (page_searching (lit "gin")))
                   (page_searching (lit "gin")) _)).
  repeat split; reflexivity.
Defined.

(** ** No flow leaves the loading state behind *)

Lemma not_loading_state (html : jsstring) :
  nth 0 html 0 <> 60 \/ nth 1 html 0 <> 112 \/ nth 10 html 0 <> 108 ->
  ~ is_loading_state html.
Proof.
  intros H [msg ->]. destruct H as [H | [H | H]]; apply H; vm_compute; reflexivity.
Qed.

Lemma error_state_not_loading (msg : jsstring) : ~ is_loading_state (error_state msg).
Proof.
  apply not_loading_state. right. right. vm_compute. discriminate.
Qed.

Lemma detailHtml_not_loading (drink : value) (ingredients html : jsstring) :
  detailHtml drink ingredients = Ok html -> ~ is_loading_state html.
Proof.
  unfold detailHtml. intros H.
  repeat match type of H with
         | (rbind ?g _) = _ => destruct g; cbn [rbind] in H; [| discriminate]
         end.
  injection H as <-. apply not_loading_state. left. vm_compute. discriminate.
Qed.

Lemma forEach_append_prefix (f : value -> result jsstring) (l : list value) :
  forall html out, forEach_append f l html = Ok out -> exists body, out = html ++ body.
Proof.
  induction l as [| x l IH]; intros html out H; cbn [forEach_append] in H.
  - injection H as <-. exists []. now rewrite app_nil_r.
  - destruct (f x) as [piece | e]; cbn [rbind] in H; [| discriminate].
    destruct (IH _ _ H) as [body ->]. exists (piece ++ body). now rewrite app_assoc.
Qed.

Lemma settled_painted (html : jsstring) (w : World) :
  cocktailDisplay w <> None -> ~ is_loading_state html ->
  settled (paint_cocktail html w).
Proof.
  intros Hw Hh. exists html. split; [| exact Hh].
  destruct w as [n t si cd cg]. cbn in *. destruct cd; [reflexivity | congruence].
Qed.

Lemma settles_set_cocktailDisplay (html : jsstring) :
  ~ is_loading_state html -> settles (set_cocktailDisplay html).
Proof.
  intros Hh w Hw. rewrite set_cocktailDisplay_run by exact Hw. cbn [fst snd]. split.
  - destruct w as [n t si cd cg]. cbn in *. destruct cd; [discriminate | congruence].
  - intros _ _. now apply settled_painted.
Qed.

Lemma has_region_present (o1 o2 : option jsstring) :
  has_region o1 = has_region o2 -> o2 <> None -> o1 <> None.
Proof. destruct o1, o2; cbn; congruence. Qed.

Lemma settles_bind {A B : Type} (c : M A) (k : A -> M B) :
  keeps_page c -> (forall a, settles (k a)) -> settles (bind c k).
Proof.
  intros Hc Hk w Hw. unfold bind.
  destruct (Hc w) as (_ & _ & _ & Hr).
  destruct (c w) as [[a | e] w']; cbn [fst snd] in *.
  - apply Hk. now apply (has_region_present _ _ Hr).
  - split; [now apply (has_region_present _ _ Hr) | discriminate].
Qed.

Lemma settles_displayCocktail (drink : value) : settles (displayCocktail drink).
Proof.
  intros w Hw. split.
  - destruct (keeps_page_displayCocktail drink w) as (_ & _ & _ & Hr).
    now apply (has_region_present _ _ Hr).
  - revert w Hw. unfold displayCocktail, bind, cocktailDisplayDiv, lift.
    intros [n t si cd cg] Hw a. cbn [cocktailDisplay] in *.
    destruct cd as [old |]; [| congruence]. cbn [negb].
    destruct (negb (truthy drink)).
    + intros _. eexists. split; [reflexivity |]. apply not_loading_state.
      right. right. vm_compute. discriminate.
    + destruct (ingredientsHtml drink) as [ingredients | e]; [| discriminate].
      destruct (detailHtml drink ingredients) as [html | e] eqn:Hd; [| discriminate].
      intros _. eexists. split; [reflexivity |].
      now apply (detailHtml_not_loading drink ingredients).
Qed.

(** A [try] that settles what it returns, with a [displayError] as
    handler, leaves the display settled. *)
Lemma settled_try_displayError (c : M unit) (f : exn -> jsstring) :
  keeps_page c -> settles c ->
  forall w, cocktailDisplay w <> None ->
            settled (snd (try_catch c (fun error => displayError (f error)) w)).
Proof.
  intros Hk Hc w Hw. unfold try_catch.
  destruct (Hc w Hw) as [Hpresent Hsettled].
  destruct (c w) as [[[] | e] w']; cbn [fst snd] in *.
  - now apply (Hsettled tt).
  - rewrite displayError_run. cbn [snd].
    apply settled_painted; [exact Hpresent | apply error_state_not_loading].
Qed.

Lemma present_painted (html : jsstring) (w : World) :
  cocktailDisplay w <> None -> cocktailDisplay (paint_cocktail html w) <> None.
Proof. destruct w as [n t si cd cg]. cbn. destruct cd; [discriminate | congruence]. Qed.

Lemma settles_show_fetched (url : jsstring) :
  keeps_page (drink <- fetchCocktailData url ;; displayCocktail drink)
  /\ settles (drink <- fetchCocktailData url ;; displayCocktail drink).
Proof.
  split.
  - apply keeps_page_bind; [apply keeps_page_fetchCocktailData |].
    intros drink. apply keeps_page_displayCocktail.
  - apply settles_bind; [apply keeps_page_fetchCocktailData |].
    intros drink. apply settles_displayCocktail.
Qed.

Lemma settles_encoded_show_fetched (value prefix : jsstring) :
  keeps_page (encoded <- lift (encodeURIComponent value) ;;
              drink <- fetchCocktailData (cocktailApiBaseUrl ++ prefix ++ encoded) ;;
              displayCocktail drink)
  /\ settles (encoded <- lift (encodeURIComponent value) ;;
              drink <- fetchCocktailData (cocktailApiBaseUrl ++ prefix ++ encoded) ;;
              displayCocktail drink).
Proof.
  split.
  - apply keeps_page_bind; [apply keeps_page_pure |]. intros encoded.
    apply settles_show_fetched.
  - apply settles_bind; [apply keeps_page_pure |]. intros encoded.
    apply settles_show_fetched.
Qed.

Lemma settles_category_body (category : jsstring) :
  keeps_page
    (encoded <- lift (encodeURIComponent category) ;;
     response <- fetch (cocktailApiBaseUrl ++ lit "filter.php?c=" ++ encoded) ;;
     if negb (ok response) then throw (HttpError (status response))
     else
       data <- json response ;;
       drinks <- lift (get data (lit "drinks")) ;;
       if negb (truthy drinks) then
         set_cocktailDisplay
           (lit "<p class=`error-text`>No se encontraron cócteles en la categoría `"
            ++ category ++ lit "`.</p>")
       else displayCocktailGrid drinks)
  /\ settles
       (encoded <- lift (encodeURIComponent category) ;;
        response <- fetch (cocktailApiBaseUrl ++ lit "filter.php?c=" ++ encoded) ;;
        if negb (ok response) then throw (HttpError (status response))
        else
          data <- json response ;;
          drinks <- lift (get data (lit "drinks")) ;;
          if negb (truthy drinks) then
            set_cocktailDisplay
              (lit "<p class=`error-text`>No se encontraron cócteles en la categoría `"
               ++ category ++ lit "`.</p>")
          else displayCocktailGrid drinks).
Proof.
  split.
  - apply keeps_page_bind; [apply keeps_page_pure |]. intros encoded.
    apply keeps_page_bind; [apply keeps_page_fetch |]. intros response.
    destruct (negb (ok response)); [intros w; repeat split |].
    apply keeps_page_bind; [apply keeps_page_json |]. intros data.
    apply keeps_page_bind; [apply keeps_page_pure |]. intros drinks.
    destruct (negb (truthy drinks)); [apply keeps_page_set_cocktailDisplay |].
    unfold displayCocktailGrid.
    apply keeps_page_bind; [apply keeps_page_pure |]. intros html.
    apply keeps_page_set_cocktailDisplay.
  - apply settles_bind; [apply keeps_page_pure |]. intros encoded.
    apply settles_bind; [apply keeps_page_fetch |]. intros response.
    destruct (negb (ok response)).
    { intros w Hw. split; [exact Hw | discriminate]. }
    apply settles_bind; [apply keeps_page_json |]. intros data.
    apply settles_bind; [apply keeps_page_pure |]. intros drinks.
    destruct (negb (truthy drinks)).
    + apply settles_set_cocktailDisplay, not_loading_state.
      right. right. vm_compute. discriminate.
    + unfold displayCocktailGrid, lift, bind. intros w Hw.
      destruct (forEach "data.drinks" drinks cocktailItem _) as [out | e] eqn:Hloop.
      * apply settles_set_cocktailDisplay; [| exact Hw].
        assert (Hp : exists body,
                   out = lit "<div class=`grid grid-cols-2 md:grid-cols-3 lg:grid-cols-4 gap-4`>"
                         ++ body).
        { destruct drinks; cbn in Hloop; try discriminate.
          now apply (forEach_append_prefix cocktailItem items). }
        destruct Hp as [body ->]. apply not_loading_state.
        right. left. vm_compute. discriminate.
      * split; [exact Hw | discriminate].
Qed.

(** X12. On a page with the cocktail display, once a flow has ended the
    display holds a final state, never the loading state the flow began
    with: every path through a flow paints after the request has
    settled.  (The search flow given that the page has its search
    field.) *)
Theorem flows_end_settled :
  forall (w : World),
    cocktailDisplay w <> None ->
    settled (snd (fetchAndDisplayRandomCocktail w))
    /\ (forall drinkId, settled (snd (fetchAndDisplayCocktailDetails drinkId w)))
    /\ (forall category, settled (snd (fetchAndDisplayCocktailsByCategory category w)))
    /\ (searchInput w <> None -> settled (snd (searchAndDisplayCocktail w))).
Proof.
  intros w Hw. split; [| split; [| split]].
  - unfold fetchAndDisplayRandomCocktail, bind at 1. rewrite displayLoading_run.
    apply (settled_try_displayError _
             (fun error => lit "Error al cargar cóctel aleatorio: " ++ message error));
      [apply settles_show_fetched | apply settles_show_fetched | now apply present_painted].
  - intros drinkId. unfold fetchAndDisplayCocktailDetails, bind at 1.
    rewrite displayLoading_run.
    apply (settled_try_displayError _
             (fun error => lit "Error al cargar detalles del cóctel: " ++ message error));
      [apply (settles_encoded_show_fetched drinkId (lit "lookup.php?i="))
      | apply (settles_encoded_show_fetched drinkId (lit "lookup.php?i="))
      | now apply present_painted].
  - intros category. unfold fetchAndDisplayCocktailsByCategory, bind at 1.
    rewrite displayLoading_run.
    apply (settled_try_displayError _
             (fun error => lit "Error al cargar cócteles de la categoría `" ++ category
                             ++ lit "`: " ++ message error));
      [apply settles_category_body | apply settles_category_body
      | now apply present_painted].
  - intros Hfield. unfold searchAndDisplayCocktail, bind at 1, searchInput_value.
    destruct (searchInput w) as [s |]; [| congruence].
    destruct (negb (truthy (VStr (trim s)))).
    + rewrite displayError_run. cbn [snd].
      apply settled_painted; [exact Hw | apply error_state_not_loading].
    + unfold bind at 1. rewrite displayLoading_run.
      apply (settled_try_displayError _
               (fun error => lit "Error al buscar cóctel: " ++ message error));
        [apply (settles_encoded_show_fetched (trim s) (lit "search.php?s="))
        | apply (settles_encoded_show_fetched (trim s) (lit "search.php?s="))
        | now apply present_painted].
Qed.

(** The theorem at a page whose server cannot be reached. *)
Lemma flows_end_settled_witness :
  settled (snd (fetchAndDisplayRandomCocktail page_offline)).
Proof.
  refine (proj1 (flows_end_settled page_offline _)). discriminate.
Defined.

(** ** The requests of the flows *)

Lemma quiet_displayCategories (categories : value) : quiet (displayCategories categories).
Proof.
  unfold displayCategories. apply quiet_bind; [intros w; reflexivity |].
  intros present. destruct (negb present); [apply quiet_ret |].
  assert (Hset : forall html, quiet (set_categoriesDisplay html)).
  { intros html [n t si cd cg]. destruct cg; reflexivity. }
  destruct (negb (truthy categories) || length_is_zero categories); [apply Hset |].
  apply quiet_bind; [apply quiet_lift |]. intros html. apply Hset.
Qed.

(** X13. The random flow and the initial listing each issue exactly one
    request, to their fixed URL, whatever the server answers and however
    they end, the listing also when it raises. *)
Theorem random_and_listing_request_once :
  forall (w : World),
    requests (trace (snd (fetchAndDisplayRandomCocktail w)))
    = requests (trace w) ++ [randomUrl]
    /\ requests (trace (snd (initializeCategories w)))
       = requests (trace w) ++ [categoriesUrl].
Proof.
  intros w. split.
  - unfold fetchAndDisplayRandomCocktail, bind at 1. rewrite displayLoading_run.
    fold randomUrl.
    exact (show_fetched_requests randomUrl
             (fun error => lit "Error al cargar cóctel aleatorio: " ++ message error) _).
  - unfold initializeCategories.
    rewrite trace_bind by (intros categories; apply quiet_displayCategories).
    destruct (fetchCocktailCategories_trace w) as (tail & -> & Htail).
    rewrite requests_app. cbn. now destruct Htail as [-> | [e ->]].
Qed.

Lemma decode_once_encoded (s u : jsstring) :
  utf16 s -> encodeURIComponent s = Ok u -> decode_once u = Some s.
Proof.
  intros H16 Henc.
  destruct (encodeURIComponent_sound (length s) s u (le_n _) H16 Henc)
    as (_ & bs & Hd & Hu).
  unfold decode_once. now rewrite Hd, Hu.
Qed.

(** X14. Different values are never requested under the same URL: the lookup,
    the filter or the search URLs of two different values differ. *)
Theorem request_urls_tell_the_values_apart :
  forall (path a b ea eb : jsstring),
    utf16 a -> utf16 b ->
    encodeURIComponent a = Ok ea ->
    encodeURIComponent b = Ok eb ->
    a <> b ->
    cocktailApiBaseUrl ++ path ++ ea <> cocktailApiBaseUrl ++ path ++ eb.
Proof.
  intros path a b ea eb Ha Hb Hea Heb Hab Hurl. apply Hab.
  apply app_inv_head in Hurl. apply app_inv_head in Hurl. subst eb.
  pose proof (decode_once_encoded a ea Ha Hea) as H1.
  pose proof (decode_once_encoded b ea Hb Heb) as H2.
  congruence.
Qed.

(** The theorem at the categories [Coffee / Tea] and [Coffee/Tea]. *)
Lemma request_urls_tell_the_values_apart_witness :
  cocktailApiBaseUrl ++ lit "filter.php?c=" ++ lit "Coffee%20%2F%20Tea"
  <> cocktailApiBaseUrl ++ lit "filter.php?c=" ++ lit "Coffee%2FTea".
Proof.
  assert (H16 : forall s, forallb (fun c => c <? 65536) s = true -> utf16 s).
  { intros s Hs. apply Forall_forall. intros c Hc. apply N.ltb_lt.
    revert c Hc. now apply forallb_forall. }
  apply (request_urls_tell_the_values_apart (lit "filter.php?c=")
           (lit "Coffee / Tea") (lit "Coffee/Tea")).
  - apply H16. vm_compute. reflexivity.
  - apply H16. vm_compute. reflexivity.
  - vm_compute. reflexivity.
  - vm_compute. reflexivity.
  - vm_compute. discriminate.
Defined.

(** ** A record that cannot be rendered *)

Lemma trim_of_untrimmable (who : string) (v : value) :
  untrimmable v = true -> exists e, trim_of who v = Throw e.
Proof.
  destruct v as [| | b | nz t | s | l | fs]; intros H;
    try (eexists; reflexivity).
  unfold untrimmable in H. rewrite andb_false_r in H. discriminate H.
Qed.

(** The loop raises when, after [k] positions that hold an ingredient, it
    comes to a position whose ingredient, or whose measure, is present
    but is not a text. *)
Lemma ingredients_from_raises (drink : value) (k : nat) :
  drink <> VNull -> drink <> VUndefined ->
  forall (i : N) (n : nat) (html : jsstring),
    (k < n)%nat ->
    (forall j, In j (positions i k) ->
               (exists s, strIngredient drink j = VStr s /\ s <> [])
               /\ text_or_missing (strMeasure drink j) = true) ->
    untrimmable (strIngredient drink (i + N.of_nat k)) = true
    \/ (truthy (strIngredient drink (i + N.of_nat k)) = true
        /\ untrimmable (strMeasure drink (i + N.of_nat k)) = true) ->
    exists e, ingredients_from drink i n html = Throw e.
Proof.
  intros Hn Hu. induction k as [| k IH]; intros i n html Hlt Hpresent Hbad.
  - destruct n as [| n]; [lia |]. cbn [ingredients_from].
    rewrite N.add_0_r in Hbad. unfold strIngredient, strMeasure in Hbad.
    destruct (get_not_nullish drink (lit "strIngredient" ++ dec i) Hn Hu) as [g Hg].
    destruct (get_not_nullish drink (lit "strMeasure" ++ dec i) Hn Hu) as [m Hm].
    rewrite Hg, Hm in *. cbn [rbind].
    assert (Htg : truthy g = true).
    { destruct Hbad as [Hb | [Hb _]]; [| exact Hb].
      unfold untrimmable in Hb. now apply andb_prop in Hb. }
    rewrite Htg. cbn [negb].
    destruct Hbad as [Hb | [_ Hb]].
    + destruct (trim_of_untrimmable "ingredient" g Hb) as [e He]. rewrite He.
      destruct (if truthy m then _ else _) as [mp | e']; cbn [rbind]; eauto.
    + assert (Htm : truthy m = true)
        by (unfold untrimmable in Hb; now apply andb_prop in Hb).
      destruct (trim_of_untrimmable "measure" m Hb) as [e He].
      rewrite Htm, He. cbn [rbind]. eauto.
  - destruct n as [| n]; [lia |]. cbn [ingredients_from].
    destruct (Hpresent i (or_introl eq_refl)) as [(s & Hs & Hne) Hmeasure].
    unfold strIngredient in Hs. unfold strMeasure in Hmeasure.
    destruct (get_not_nullish drink (lit "strIngredient" ++ dec i) Hn Hu) as [g Hg].
    destruct (get_not_nullish drink (lit "strMeasure" ++ dec i) Hn Hu) as [m Hm].
    rewrite Hg in *. rewrite Hm in *. subst g. cbn [rbind].
    assert (Ht : truthy (VStr s) = true) by (destruct s; [congruence | reflexivity]).
    rewrite Ht. cbn [negb trim_of rbind].
    assert (Hmp : exists mp,
               (if truthy m
                then (t <-- trim_of "measure" m ;; Ok (t ++ lit " "))
                else Ok []) = Ok mp).
    { destruct m; try discriminate; cbn [truthy trim_of rbind]; eauto.
      destruct (negb (str_eqb s0 [])); cbn [rbind]; eauto. }
    destruct Hmp as [mp ->]. cbn [rbind].
    apply IH.
    + lia.
    + intros j Hj. apply Hpresent. now right.
    + replace (i + 1 + N.of_nat k) with (i + N.of_nat (S k)) by lia. exact Hbad.
Qed.

(** X15. A record with an ingredient or a measure that is present but is not
    a text, at a position the list comes to, cannot be rendered:
    [displayCocktail] raises and paints nothing.  Inside a flow the raise
    is caught like a failed request: the random flow ends in the error
    state with the message of that error. *)
Theorem unrenderable_record_ends_in_error_state :
  forall (drink : value) (k : nat),
    truthy drink = true ->
    (k < 15)%nat ->
    (forall j, In j (positions 1 k) ->
               (exists s, strIngredient drink j = VStr s /\ s <> [])
               /\ text_or_missing (strMeasure drink j) = true) ->
    untrimmable (strIngredient drink (1 + N.of_nat k)) = true
    \/ (truthy (strIngredient drink (1 + N.of_nat k)) = true
        /\ untrimmable (strMeasure drink (1 + N.of_nat k)) = true) ->
    exists e,
      (forall w, cocktailDisplay w <> None -> displayCocktail drink w = (Throw e, w))
      /\ (forall w rest,
            answers_with w randomUrl (VArr (drink :: rest)) ->
            fetchAndDisplayRandomCocktail w
            = (Ok tt,
               paint_cocktail
                 (error_state (lit "Error al cargar cóctel aleatorio: " ++ message e))
                 (after_events [ConsoleLog (lit "Fetching URL:") randomUrl;
                                Request randomUrl] w))).
Proof.
  intros drink k Ht Hk Hpresent Hbad.
  assert (Hn : drink <> VNull) by (intros H; rewrite H in Ht; discriminate).
  assert (Hu : drink <> VUndefined) by (intros H; rewrite H in Ht; discriminate).
  destruct (ingredients_from_raises drink k Hn Hu 1 15 (lit "<ul>") Hk Hpresent Hbad)
    as [e He].
  assert (Hshow : forall w, displayCocktail drink w
                            = (if has_region (cocktailDisplay w) then Throw e else Ok tt, w)).
  { intros [n t si cd cg]. unfold displayCocktail, bind, cocktailDisplayDiv, lift.
    cbn [cocktailDisplay]. destruct cd; [| reflexivity].
    cbn [negb has_region]. rewrite Ht. cbn [negb].
    unfold ingredientsHtml. rewrite He. reflexivity. }
  exists e. split.
  - intros w Hw. rewrite Hshow. destruct (cocktailDisplay w); [reflexivity | congruence].
  - intros w rest (r & data & Hnet & Hok & Hbody & Hget).
    unfold fetchAndDisplayRandomCocktail, bind at 1. rewrite displayLoading_run.
    fold randomUrl. unfold try_catch, bind.
    rewrite (fetchCocktailData_found (paint_cocktail _ w) randomUrl r data
               (VArr (drink :: rest)) drink Hnet Hok Hbody Hget eq_refl eq_refl).
    rewrite Hshow.
    destruct w as [n t si cd cg]. destruct cd; cbn [has_region cocktailDisplay paint_cocktail after_events painted].
    + rewrite displayError_run. reflexivity.
    + reflexivity.
Qed.

(** The theorem at a record whose second ingredient is a number. *)
Lemma unrenderable_record_ends_in_error_state_witness :
  exists e,
    fetchAndDisplayRandomCocktail (page_serving (VObj [(lit "drinks", VArr [odd_drink])]))
    = (Ok tt,
       paint_cocktail
         (error_state (lit "Error al cargar cóctel aleatorio: " ++ message e))
         (after_events [ConsoleLog (lit "Fetching URL:") randomUrl; Request randomUrl]
            (page_serving (VObj [(lit "drinks", VArr [odd_drink])])))).
Proof.
  destruct (unrenderable_record_ends_in_error_state odd_drink 1) as (e & _ & Hflow).
  - reflexivity.
  - repeat constructor.
  - intros j [<- | []]. split; [eexists; split; [reflexivity | discriminate] | reflexivity].
  - left. reflexivity.
  - exists e. apply (Hflow _ []).
    eexists _, _. repeat split; vm_compute; reflexivity.
Defined.

Lemma toString_raises :
  forall v e, toString v = Throw e ->
              e = TypeError (lit "Cannot convert object to primitive value").
Proof.
  fix IH 1. intros v. destruct v as [| | b | nz t | s0 | l | fs]; intros e H;
    try (cbn in H; discriminate).
  - destruct b; cbn in H; discriminate.
  - revert l e H. fix IHl 1. intros [| x r] e H; [cbn in H; discriminate |].
    pose proof (IH x) as IHx. pose proof (IHl r) as IHr.
    rewrite toString_array in H.
    destruct (match x with VUndefined | VNull => Ok [] | _ => toString x end)
      as [first | e1] eqn:Ef; cbn [rbind] in H.
    + destruct r as [| y r']; [cbn [rbind] in H; discriminate |].
      destruct (toString (VArr (y :: r'))) as [t | e2] eqn:Et; cbn [rbind] in H;
        [discriminate |].
      injection H as <-. now apply IHr.
    + injection H as <-. destruct x; try discriminate; now apply IHx.
  - cbn in H. destruct (has_key (lit "toString") fs); [| discriminate].
    now injection H as <-.
Qed.

Lemma interpolate_field (record : value) (key : jsstring) :
  readable record = true -> interpolate record key = toString (field record key).
Proof.
  intros Hr. unfold interpolate, field. now rewrite readable_get by exact Hr.
Qed.

Lemma falsy_printable (v : value) : truthy v = false -> printable v = true.
Proof.
  destruct v as [| | b | nz t | s | l | fs]; cbn [truthy]; intros H;
    try discriminate; try reflexivity.
  now destruct b.
Qed.

Lemma detailHtml_raises (drink : value) (list : jsstring) :
  readable drink = true ->
  prints detail_keys drink = false ->
  detailHtml drink list = Throw (TypeError (lit "Cannot convert object to primitive value")).
Proof.
  intros Hr Hp. unfold detailHtml.
  rewrite !interpolate_field by exact Hr.
  rewrite !readable_get by exact Hr. cbn [rbind].
  assert (Hfield : forall key,
            match drink with VObj fs => lookup key fs | _ => VUndefined end
            = field drink key).
  { intros key. unfold field. now rewrite readable_get by exact Hr. }
  rewrite !Hfield.
  unfold prints, detail_keys in Hp. cbn [forallb] in Hp.
  pose proof (falsy_printable (field drink (lit "strCategory"))) as Fc.
  pose proof (falsy_printable (field drink (lit "strAlcoholic"))) as Fa.
  pose proof (falsy_printable (field drink (lit "strGlass"))) as Fg.
  pose proof (falsy_printable (field drink (lit "strInstructions"))) as Fi.
  unfold printable in *.
  destruct (toString (field drink (lit "strDrink"))) as [name | e] eqn:E1; cbn [rbind];
    [| now rewrite (toString_raises _ _ E1)].
  destruct (toString (field drink (lit "strDrinkThumb"))) as [thumb | e] eqn:E2;
    cbn [rbind]; [| now rewrite (toString_raises _ _ E2)].
  destruct (toString (field drink (lit "strCategory"))) as [c1 | e] eqn:E3;
    [| destruct (truthy (field drink (lit "strCategory")));
       [cbn [rbind]; now rewrite (toString_raises _ _ E3) | now discriminate Fc]].
  destruct (toString (field drink (lit "strAlcoholic"))) as [c2 | e] eqn:E4;
    [| destruct (truthy (field drink (lit "strCategory")));
       destruct (truthy (field drink (lit "strAlcoholic")));
       cbn [rbind]; try (now discriminate Fa); now rewrite (toString_raises _ _ E4)].
  destruct (toString (field drink (lit "strGlass"))) as [c3 | e] eqn:E5;
    [| destruct (truthy (field drink (lit "strCategory")));
       destruct (truthy (field drink (lit "strAlcoholic")));
       destruct (truthy (field drink (lit "strGlass")));
       cbn [rbind]; try (now discriminate Fg); now rewrite (toString_raises _ _ E5)].
  destruct (toString (field drink (lit "strInstructions"))) as [c4 | e] eqn:E6;
    [cbn [andb] in Hp; discriminate |].
  destruct (truthy (field drink (lit "strCategory")));
    destruct (truthy (field drink (lit "strAlcoholic")));
    destruct (truthy (field drink (lit "strGlass")));
    destruct (truthy (field drink (lit "strInstructions")));
    cbn [rbind]; try (now discriminate Fi);
    rewrite E6; cbn [rbind]; now rewrite (toString_raises _ _ E6).
Qed.

(** X16. A field that is an object with a property [toString], alone or in
    an array, cannot be converted to a string, and a template that
    converts it raises.  For a record that is present, whose list of
    ingredients can be built and one of whose name, thumbnail, category,
    type, glass and instructions cannot be converted,
    [displayCocktail] raises a [TypeError] and paints nothing; in the
    random flow the handler shows the message of that error.  The
    initial listing has no handler: a first category that cannot be
    converted makes [initializeCategories] raise. *)
Theorem unconvertible_field_raises :
  (forall (drink : value) (list : jsstring),
      truthy drink = true ->
      ingredientsHtml drink = Ok list ->
      prints detail_keys drink = false ->
      (forall w, cocktailDisplay w <> None ->
                 displayCocktail drink w
                 = (Throw (TypeError (lit "Cannot convert object to primitive value")), w))
      /\ (forall w rest,
            answers_with w randomUrl (VArr (drink :: rest)) ->
            fetchAndDisplayRandomCocktail w
            = (Ok tt,
               paint_cocktail
                 (error_state (lit "Error al cargar cóctel aleatorio: "
                               ++ lit "Cannot convert object to primitive value"))
                 (after_events [ConsoleLog (lit "Fetching URL:") randomUrl;
                                Request randomUrl] w))))
  /\ (forall (category : value) (rest : list value) (w : World),
        readable category = true ->
        prints card_keys category = false ->
        answers_with w categoriesUrl (VArr (category :: rest)) ->
        categoriesDisplay w <> None ->
        initializeCategories w
        = (Throw (TypeError (lit "Cannot convert object to primitive value")),
           after_events [Request categoriesUrl] w)).
Proof.
  split.
  - intros drink list Ht Hlist Hp.
    pose proof (detailHtml_raises drink list (truthy_readable drink Ht) Hp) as Hraise.
    assert (Hshow : forall w,
               displayCocktail drink w
               = (if has_region (cocktailDisplay w)
                  then Throw (TypeError (lit "Cannot convert object to primitive value"))
                  else Ok tt, w)).
    { intros [n t si cd cg]. unfold displayCocktail, bind, cocktailDisplayDiv, lift.
      cbn [cocktailDisplay]. destruct cd; [| reflexivity].
      cbn [negb has_region]. rewrite Ht. cbn [negb]. rewrite Hlist, Hraise. reflexivity. }
    split.
    + intros w Hw. rewrite Hshow. destruct (cocktailDisplay w); [reflexivity | congruence].
    + intros w rest (r & data & Hnet & Hok & Hbody & Hget).
      unfold fetchAndDisplayRandomCocktail, bind at 1. rewrite displayLoading_run.
      fold randomUrl. unfold try_catch, bind.
      rewrite (fetchCocktailData_found (paint_cocktail _ w) randomUrl r data
                 (VArr (drink :: rest)) drink Hnet Hok Hbody Hget eq_refl eq_refl).
      rewrite Hshow.
      destruct w as [n t si cd cg].
      destruct cd; cbn [has_region cocktailDisplay paint_cocktail after_events painted].
      * rewrite displayError_run. reflexivity.
      * reflexivity.
  - intros category rest w Hr Hp Hans Hcg. unfold initializeCategories, bind.
    rewrite (fetchCocktailCategories_answered w (VArr (category :: rest)) Hans).
    cbn [truthy negb].
    destruct w as [n t si cd cg]. cbn in Hcg.
    unfold displayCategories, bind, categoriesDisplayDiv, lift, after_events.
    cbn [categoriesDisplay]. destruct cg; [| congruence].
    cbn [negb truthy length_is_zero orb forEach forEach_append].
    assert (Hcard : categoryCard category
                    = Throw (TypeError (lit "Cannot convert object to primitive value"))).
    { unfold categoryCard. rewrite readable_get by exact Hr. cbn [rbind].
      unfold prints, card_keys in Hp. cbn [forallb] in Hp. rewrite andb_true_r in Hp.
      unfold printable, field in Hp. rewrite readable_get in Hp by exact Hr.
      destruct (toString _) as [s | e] eqn:E; [discriminate |].
      cbn [rbind]. now rewrite (toString_raises _ _ E). }
    rewrite Hcard. reflexivity.
Qed.

(** The theorem at a record whose name is an object with a property
    [toString]. *)
Lemma unconvertible_field_raises_witness :
  displayCocktail (VObj [(lit "strDrink", VObj [(lit "toString", VNull)])])
    (page_serving VNull)
  = (Throw (TypeError (lit "Cannot convert object to primitive value")),
     page_serving VNull).
Proof.
  apply (proj1 (proj1 unconvertible_field_raises
                  (VObj [(lit "strDrink", VObj [(lit "toString", VNull)])])
                  (lit "<ul></ul>")
                  ltac:(reflexivity) ltac:(vm_compute; reflexivity)
                  ltac:(vm_compute; reflexivity))).
  discriminate.
Defined.
